(** * The capabilities manager of malai: skills, recipes and the recipe interpreter

    A shallow embedding of [framework/capabilities_manager.py]: the skills
    registry built by [load_skills], the recipe table built by
    [register_recipes_endpoints], the discovery operation [get_capabilities]
    and the interpreter [execute_recipe], followed by the properties of the
    engine that the design document states about them.

    Python values are embedded as the JSON/YAML fragment the engine moves
    around; a [dict] is an association list in insertion order, because the
    order of the keys is visible in [str] and in the capability schema.
    Strings are Rocq strings (sequences of bytes); the case conversions act
    on the ASCII letters. *)

From Stdlib Require Import List String Ascii Bool ZArith Lia DecimalString.
Import ListNotations.
Local Open Scope list_scope.
Local Open Scope string_scope.

Set Warnings "-register-all".

(** ** Python dictionaries with string keys *)

Module Dict.

Definition t (V : Type) : Type := list (string * V).

Definition empty {V} : t V := [].

(** [d[k]], [None] standing for the [KeyError]. *)
Fixpoint get {V} (k : string) (d : t V) : option V :=
  match d with
  | [] => None
  | (k', v) :: d' => if String.eqb k k' then Some v else get k d'
  end.

(** [k in d]. *)
Definition mem {V} (k : string) (d : t V) : bool :=
  match get k d with Some _ => true | None => false end.

(** [d[k] = v]: an existing key keeps its position, a new key goes last. *)
Fixpoint set {V} (k : string) (v : V) (d : t V) : t V :=
  match d with
  | [] => [(k, v)]
  | (k', v') :: d' =>
      if String.eqb k k' then (k', v) :: d' else (k', v') :: set k v d'
  end.

Definition keys {V} (d : t V) : list string := map fst d.

Definition map_values {V W} (f : V -> W) (d : t V) : t W :=
  map (fun kv => (fst kv, f (snd kv))) d.

End Dict.

(** ** Values, exceptions and results *)

Inductive value : Type :=
| VNone
| VBool (b : bool)
| VInt (n : Z)
| VFloat (repr : string)   (* a float, carried with its [repr]: the engine only moves and prints it *)
| VStr (s : string)
| VList (l : list value)
| VDict (d : list (string * value)).

(** The exceptions the engine raises or lets through. *)
Inductive exn : Type :=
| KeyError (key : value)          (* [d[k]] on a missing key, and the interpreter's own [raise KeyError(msg)] *)
| TypeError (what : string)       (* subscripting or hashing a value that does not allow it *)
| IndexError                      (* [flow[-1]] on an empty flow *)
| RuntimeError (what : string)    (* [StopIteration] leaving a coroutine *)
| ImportError (what : string)
| AttributeError (what : string)
| AssertionError (what : string)  (* the gateway refusing a second view under one endpoint name *)
| ValueError (what : string)      (* the gateway refusing a rule; a constructor refusing its configuration *)
| BadRequest (what : string)      (* the gateway failing to read the body of a request as JSON *)
| YAMLError (what : string)       (* a recipe file that does not parse *)
| SkillError (what : string).     (* anything a skill's [run] raises *)

Inductive result (A : Type) : Type :=
| Ok (a : A)
| Raise (e : exn).

Arguments Ok {A} a.
Arguments Raise {A} e.

Definition bind {A B} (r : result A) (k : A -> result B) : result B :=
  match r with
  | Ok a => k a
  | Raise e => Raise e
  end.

Notation "x <- r ;; k" := (bind r (fun x => k))
  (at level 61, r at next level, right associativity).

Definition fmap {A B} (f : A -> B) (r : result A) : result B :=
  match r with
  | Ok a => Ok (f a)
  | Raise e => Raise e
  end.

(** ** String primitives *)

(** A string is the sequence of the bytes of its UTF-8 encoding.  The
    functions that split, strip, search and join act on ASCII characters
    and are the same on bytes as on characters.  [lower] and [title]
    change the case of the ASCII letters and of no other byte: they are
    [str.lower] and [str.title] on the strings that [is_ascii] accepts,
    and the statements that depend on the case of a letter are made for
    those strings. *)

Module Str.

Definition is_ascii_char (c : ascii) : bool := (nat_of_ascii c <? 128)%nat.

Fixpoint is_ascii (s : string) : bool :=
  match s with
  | EmptyString => true
  | String c s' => is_ascii_char c && is_ascii s'
  end.

Definition is_upper (c : ascii) : bool :=
  let n := nat_of_ascii c in (65 <=? n)%nat && (n <=? 90)%nat.

Definition is_lower (c : ascii) : bool :=
  let n := nat_of_ascii c in (97 <=? n)%nat && (n <=? 122)%nat.

Definition is_digit (c : ascii) : bool :=
  let n := nat_of_ascii c in (48 <=? n)%nat && (n <=? 57)%nat.

Definition to_lower (c : ascii) : ascii :=
  if is_upper c then ascii_of_nat (nat_of_ascii c + 32) else c.

Definition to_upper (c : ascii) : ascii :=
  if is_lower c then ascii_of_nat (nat_of_ascii c - 32) else c.

(** [s.lower()], for ASCII letters. *)
Fixpoint lower (s : string) : string :=
  match s with
  | EmptyString => EmptyString
  | String c s' => String (to_lower c) (lower s')
  end.

(** [s.title()], for ASCII letters: a letter that follows a letter is
    lowered, any other letter is raised. *)
Fixpoint title_from (prev_cased : bool) (s : string) : string :=
  match s with
  | EmptyString => EmptyString
  | String c s' =>
      if is_lower c || is_upper c
      then String (if prev_cased then to_lower c else to_upper c)
                  (title_from true s')
      else String c (title_from false s')
  end.

Definition title (s : string) : string := title_from false s.

(** [s.startswith(c)] for a one-character prefix. *)
Definition startswith (c : ascii) (s : string) : bool :=
  match s with
  | String c' _ => Ascii.eqb c' c
  | EmptyString => false
  end.

Fixpoint lstrip (c : ascii) (s : string) : string :=
  match s with
  | String c' s' => if Ascii.eqb c' c then lstrip c s' else s
  | EmptyString => EmptyString
  end.

Fixpoint rev_onto (s acc : string) : string :=
  match s with
  | EmptyString => acc
  | String c s' => rev_onto s' (String c acc)
  end.

Definition rev (s : string) : string := rev_onto s EmptyString.

(** [s.strip(c)]: every leading and every trailing [c] is removed. *)
Definition strip (c : ascii) (s : string) : string :=
  rev (lstrip c (rev (lstrip c s))).

(** [s.split(sep)] for a one-character separator: empty pieces are kept
    and the empty string gives one empty piece. *)
Fixpoint split_acc (sep : ascii) (cur : string) (s : string) : list string :=
  match s with
  | EmptyString => [rev cur]
  | String c s' =>
      if Ascii.eqb c sep then rev cur :: split_acc sep EmptyString s'
      else split_acc sep (String c cur) s'
  end.

Definition split (sep : ascii) (s : string) : list string :=
  split_acc sep EmptyString s.

(** [sep.join(l)]. *)
Fixpoint join (sep : string) (l : list string) : string :=
  match l with
  | [] => EmptyString
  | [x] => x
  | x :: l' => x ++ sep ++ join sep l'
  end.

(** [c in s]. *)
Fixpoint contains (c : ascii) (s : string) : bool :=
  match s with
  | EmptyString => false
  | String c' s' => Ascii.eqb c' c || contains c s'
  end.

(** The longest prefix of [s] whose characters satisfy [p], and the rest. *)
Fixpoint span (p : ascii -> bool) (s : string) : string * string :=
  match s with
  | String c s' =>
      if p c then let (a, b) := span p s' in (String c a, b)
      else (EmptyString, s)
  | EmptyString => (EmptyString, EmptyString)
  end.

(** The text before the first [c] and the text after it, when [c]
    occurs. *)
Fixpoint cut (c : ascii) (s : string) : option (string * string) :=
  match s with
  | EmptyString => None
  | String c' s' =>
      if Ascii.eqb c' c then Some (EmptyString, s')
      else match cut c s' with
           | Some (a, b) => Some (String c' a, b)
           | None => None
           end
  end.

End Str.

(** ** [repr] and [str] *)

Module Repr.

Definition dquote : ascii := ascii_of_nat 34.
Definition squote : ascii := "'"%char.
Definition backslash : ascii := "\"%char.

Definition hex_digit (n : nat) : ascii :=
  if (n <? 10)%nat then ascii_of_nat (48 + n) else ascii_of_nat (87 + n).

Definition char1 (c : ascii) : string := String c EmptyString.

(** One character of a string literal delimited by [q].  The control
    characters of ASCII are escaped; a byte above 127 is kept, as [repr]
    keeps the printable characters such bytes encode (the others it
    escapes, which is not modelled: the statements below are about ASCII
    texts where they depend on the escaping). *)
Definition escape (q c : ascii) : string :=
  let n := nat_of_ascii c in
  if Ascii.eqb c backslash then "\\"
  else if Ascii.eqb c q then String backslash (char1 q)
  else if (n =? 10)%nat then "\n"
  else if (n =? 13)%nat then "\r"
  else if (n =? 9)%nat then "\t"
  else if (n <? 32)%nat || (n =? 127)%nat
       then "\x" ++ char1 (hex_digit (n / 16)) ++ char1 (hex_digit (n mod 16))
  else char1 c.

Fixpoint escape_all (q : ascii) (s : string) : string :=
  match s with
  | EmptyString => EmptyString
  | String c s' => escape q c ++ escape_all q s'
  end.

(** [repr] of a [str]: single quotes, unless the text has a single quote
    and no double quote. *)
Definition repr_str (s : string) : string :=
  let q := if Str.contains squote s && negb (Str.contains dquote s)
           then dquote else squote in
  char1 q ++ escape_all q s ++ char1 q.

Definition repr_int (n : Z) : string := NilZero.string_of_int (Z.to_int n).

Fixpoint repr (v : value) : string :=
  match v with
  | VNone => "None"
  | VBool true => "True"
  | VBool false => "False"
  | VInt n => repr_int n
  | VFloat r => r
  | VStr s => repr_str s
  | VList l => "[" ++ Str.join ", " (map repr l) ++ "]"
  | VDict d =>
      "{" ++ Str.join ", "
               (map (fun kv => let '(k, x) := kv in repr_str k ++ ": " ++ repr x) d)
          ++ "}"
  end.

(** [str(v)]. *)
Definition str (v : value) : string :=
  match v with
  | VStr s => s
  | _ => repr v
  end.

(** [bool(v)]. *)
Definition truthy (v : value) : bool :=
  match v with
  | VNone => false
  | VBool b => b
  | VInt n => negb (Z.eqb n 0)
  | VFloat r => negb (String.eqb r "0.0" || String.eqb r "-0.0")
  | VStr s => negb (String.eqb s "")
  | VList l => match l with [] => false | _ => true end
  | VDict d => match d with [] => false | _ => true end
  end.

End Repr.

(** ** Data model *)

(** One parameter of a skill's [run], as [inspect.signature] and
    [get_type_hints] show it. *)
Record sig_param : Type := {
  sp_name : string;
  sp_hint : option string;     (* [str] of the annotation, when there is one *)
  sp_default : option string   (* [str] of the default, when there is one *)
}.

(** A skill instance.  [run_params] is the signature of the bound method
    [run], in order; [run] is taken as a function of its keyword
    arguments, the check of the arguments against the signature included
    (a coroutine is awaited, a plain method is called: the interpreter
    sees a result or an exception either way). *)
Record skill : Type := {
  class_doc : option string;
  hiddenCapability : bool;
  run_doc : option string;
  run_params : list sig_param;
  run_return : option string;  (* [str] of the return annotation *)
  run : Dict.t value -> result value
}.

(** A declared parameter of a recipe. *)
Record param_decl : Type := {
  name : string;
  aliases : option (list string);
  optional : option value;
  param_doc : Dict.t value      (* the documentation keys: description, type *)
}.

(** A step of a flow.  [output_type] is the key the interpreter adds. *)
Record step : Type := {
  skill_name : string;          (* step["skill"] *)
  input : value;                (* step["input"] *)
  output : string;              (* step["output"] *)
  output_type : option string   (* step["output_type"] *)
}.

(** A recipe definition as loaded from its YAML file; an absent key is
    [None]. *)
Record recipe : Type := {
  endpoint : string;
  method : option string;
  description : option string;
  required_skills : option (list string);
  parameters : option (list param_decl);
  flow : list step
}.

(** A route of the gateway: path, methods and endpoint name. *)
Record route : Type := {
  route_path : string;
  route_methods : list string;
  route_endpoint : string
}.

(** The manager: the two tables, the rules it added to the gateway's map,
    in order, and the records its loaders logged at level ERROR.  An
    endpoint name has a view function bound exactly when a rule bears it:
    a rule is added with its view, or finds one bound. *)
Record manager : Type := {
  skills : Dict.t skill;
  recipes : Dict.t recipe;
  routes : list route;
  error_log : list string
}.

Definition with_output_type (t : option string) (s : step) : step :=
  {| skill_name := skill_name s; input := input s; output := output s;
     output_type := t |}.

Definition with_flow (f : list step) (r : recipe) : recipe :=
  {| endpoint := endpoint r; method := method r; description := description r;
     required_skills := required_skills r; parameters := parameters r;
     flow := f |}.

Definition with_recipes (rs : Dict.t recipe) (m : manager) : manager :=
  {| skills := skills m; recipes := rs; routes := routes m;
     error_log := error_log m |}.

Definition from_option {A} (d : A) (o : option A) : A :=
  match o with Some a => a | None => d end.

Definition exn_str (e : exn) : string :=
  match e with
  | KeyError k => Repr.repr k
  | IndexError => "list index out of range"
  | TypeError w | RuntimeError w | ImportError w | AttributeError w
  | AssertionError w | ValueError w | BadRequest w | YAMLError w
  | SkillError w => w
  end.

(** ** Discovery: [camel_to_snake] and [get_capabilities] *)

Definition newline : ascii := ascii_of_nat 10.

(** [re.sub("(.)([A-Z][a-z]+)", r"\1_\2", name)]: a character other than a
    newline, a capital and a longest non-empty run of small letters; the
    search resumes after the run. *)
Fixpoint snake_words (fuel : nat) (s : string) : string :=
  match fuel with
  | O => s
  | S fuel' =>
      match s with
      | String c (String u (String l rest) as tail) =>
          if negb (Ascii.eqb c newline) && Str.is_upper u && Str.is_lower l
          then let (small, rest') := Str.span Str.is_lower rest in
               String c (String "_" (String u (String l
                 (small ++ snake_words fuel' rest'))))
          else String c (snake_words fuel' tail)
      | String c tail => String c (snake_words fuel' tail)
      | EmptyString => EmptyString
      end
  end.

(** [re.sub("([a-z0-9])([A-Z])", r"\1_\2", name)]. *)
Fixpoint snake_humps (s : string) : string :=
  match s with
  | String a tail =>
      match tail with
      | String u rest =>
          if (Str.is_lower a || Str.is_digit a) && Str.is_upper u
          then String a (String "_" (String u (snake_humps rest)))
          else String a (snake_humps tail)
      | EmptyString => s
      end
  | EmptyString => EmptyString
  end.

Definition camel_to_snake (name : string) : string :=
  Str.lower (snake_humps (snake_words (String.length name) name)).

Definition value_of_option (o : option string) : value :=
  match o with Some s => VStr s | None => VNone end.

Definition param_info (p : sig_param) : value :=
  VDict [("type", VStr (from_option "any" (sp_hint p)));
         ("default", value_of_option (sp_default p));
         ("required", VBool (match sp_default p with None => true | Some _ => false end))].

(** The ["parameters"] mapping of a method: every parameter of the
    signature not called [self]. *)
Definition params_info (ps : list sig_param) : Dict.t value :=
  fold_left
    (fun d p => if String.eqb (sp_name p) "self" then d
                else Dict.set (sp_name p) (param_info p) d)
    ps Dict.empty.

Definition method_info (sk : skill) : value :=
  VDict ([("description", VStr (from_option "" (run_doc sk)));
          ("parameters", VDict (params_info (run_params sk)))]
         ++ match run_return sk with
            | Some t => [("return_type", VStr t)]
            | None => []
            end)%list.

Definition skill_info (sk : skill) : value :=
  VDict [("description", VStr (from_option "" (class_doc sk)));
         ("methods", VDict []);
         ("run", method_info sk)].

Definition value_of_param (p : param_decl) : value :=
  VDict ([("name", VStr (name p))]
         ++ match aliases p with
            | Some l => [("aliases", VList (map VStr l))]
            | None => []
            end
         ++ match optional p with
            | Some o => [("optional", o)]
            | None => []
            end
         ++ param_doc p)%list.

Definition value_of_step (s : step) : value :=
  VDict ([("skill", VStr (skill_name s));
          ("input", input s);
          ("output", VStr (output s))]
         ++ match output_type s with
            | Some t => [("output_type", VStr t)]
            | None => []
            end)%list.

Definition recipe_info (endpoint_key : string) (r : recipe) : value :=
  VDict [("endpoint", VStr endpoint_key);
         ("description", VStr (from_option "" (description r)));
         ("method", VStr (from_option "POST" (method r)));
         ("required_skills", VList (map VStr (from_option [] (required_skills r))));
         ("parameters", VList (map value_of_param (from_option [] (parameters r))));
         ("flow", VList (map value_of_step (flow r)))].

Definition skills_capabilities (sks : Dict.t skill) : Dict.t value :=
  fold_left
    (fun d kv => let '(skill_id, skill_instance) := kv in
                 if hiddenCapability skill_instance then d
                 else Dict.set (camel_to_snake skill_id) (skill_info skill_instance) d)
    sks Dict.empty.

Definition recipes_capabilities (rs : Dict.t recipe) : Dict.t value :=
  fold_left
    (fun d kv => let '(endpoint_key, r) := kv in
                 Dict.set endpoint_key (recipe_info endpoint_key r) d)
    rs Dict.empty.

Definition get_capabilities (m : manager) : value :=
  VDict [("skills", VDict (skills_capabilities (skills m)));
         ("recipes", VDict (recipes_capabilities (recipes m)))].

(** ** Startup: the skills registry *)

(** What [importlib.import_module] gives for a candidate file: the
    module, as its attributes by name, or the exception the import
    raises.  An attribute is given by what calling it without arguments
    does: it returns an instance, or it raises. *)
Inductive imported : Type :=
| Module_ (attributes : Dict.t (result skill))
| NoModule (e : exn).

(** A candidate file of the skills directory. *)
Record plugin : Type := {
  plugin_path : string;
  stem : string;
  imported_as : imported
}.

Definition import_module (p : plugin) : result (Dict.t (result skill)) :=
  match imported_as p with
  | Module_ attributes => Ok attributes
  | NoModule e => Raise e
  end.

(** ["".join(word.title() for word in stem.split("_"))]. *)
Definition class_name_of (stem : string) : string :=
  String.concat "" (map Str.title (Str.split "_" stem)).

Definition getattr (module : Dict.t (result skill)) (attr : string)
    : result (result skill) :=
  match Dict.get attr module with
  | Some c => Ok c
  | None => Raise (AttributeError ("module has no attribute '" ++ attr ++ "'"))
  end.

Definition with_skills (sks : Dict.t skill) (m : manager) : manager :=
  {| skills := sks; recipes := recipes m; routes := routes m;
     error_log := error_log m |}.

Definition log_error (line : string) (m : manager) : manager :=
  {| skills := skills m; recipes := recipes m; routes := routes m;
     error_log := (error_log m ++ [line])%list |}.

(** The body of the [try] of the loop: the module is imported, the class
    is taken from it and called. *)
Definition instantiate (p : plugin) : result skill :=
  module <- import_module p ;;
  skill_class <- getattr module (class_name_of (stem p)) ;;
  skill_class.

(** [except (ImportError, AttributeError)]. *)
Definition caught_by_loader (e : exn) : bool :=
  match e with
  | ImportError _ | AttributeError _ => true
  | _ => false
  end.

(** The body of the loop of [load_skills]: an exception of another class
    than the two above leaves the loop and the loader. *)
Definition load_skill (m : manager) (p : plugin) : result manager :=
  if String.prefix "__" (stem p) then Ok m
  else
    match instantiate p with
    | Ok instance =>
        Ok (with_skills (Dict.set (class_name_of (stem p)) instance (skills m)) m)
    | Raise e =>
        if caught_by_loader e
        then Ok (log_error ("Failed to load skill from " ++ plugin_path p ++ ": "
                            ++ exn_str e) m)
        else Raise e
    end.

Fixpoint load_skills (files : list plugin) (m : manager) : result manager :=
  match files with
  | [] => Ok m
  | p :: files' => m' <- load_skill m p ;; load_skills files' m'
  end.

(** ** Startup: the recipe table *)

(** The gateway's rule compiler: what adding a rule of the given path
    gives, nothing or the exception of a path the gateway cannot parse.
    The compiler is the gateway library's, not the program's; the startup
    takes it as an argument. *)
Definition rule_compiler : Type := string -> result unit.

(** The gateway's [route] decorator with an explicit endpoint name.  The
    rule is compiled and added to the map; then the view is bound, unless
    the endpoint name has one already, which is an assertion failure
    (every handler the manager builds is a new function).  The rule stays
    in the map when the view is refused. *)
Definition app_route (compile : rule_compiler) (r : route) (m : manager)
    : manager * result unit :=
  match compile (route_path r) with
  | Raise e => (m, Raise e)
  | Ok _ =>
      ({| skills := skills m; recipes := recipes m;
          routes := (routes m ++ [r])%list; error_log := error_log m |},
       if existsb (fun r' => String.eqb (route_endpoint r') (route_endpoint r))
                  (routes m)
       then Raise (AssertionError
                     ("View function mapping is overwriting an existing endpoint function: "
                      ++ route_endpoint r))
       else Ok tt)
  end.

Definition recipe_route (r : recipe) : route :=
  {| route_path := "/recipes" ++ endpoint r;
     route_methods := [from_option "POST" (method r)];
     route_endpoint := "recipe_" ++ endpoint r |}.

Definition register_route (compile : rule_compiler) (r : recipe) (m : manager)
    : manager * result unit :=
  app_route compile (recipe_route r) m.

(** A file of the recipes directory: its name, its path and what
    [yaml.safe_load] gives for it. *)
Record recipe_file : Type := {
  file_name : string;
  file_path : string;
  safe_load : result recipe
}.

Definition missing_skills (sks : Dict.t skill) (r : recipe) : list string :=
  filter (fun s => negb (Dict.mem s sks)) (from_option [] (required_skills r)).

(** The body of the loop of [register_recipes_endpoints].  The recipe is
    stored before its route is registered, and stays stored when the
    registration raises. *)
Definition load_recipe (compile : rule_compiler) (m : manager) (f : recipe_file)
    : manager :=
  let failed e :=
    log_error ("Failed to load recipe from " ++ file_path f ++ ": " ++ exn_str e) in
  match safe_load f with
  | Raise e => failed e m
  | Ok r =>
      match missing_skills (skills m) r with
      | (_ :: _) as missing =>
          log_error ("Recipe " ++ file_name f ++ " requires unavailable skills: "
                     ++ Str.join ", " missing) m
      | [] =>
          let m1 := with_recipes (Dict.set (endpoint r) r (recipes m)) m in
          match register_route compile r m1 with
          | (m2, Ok _) => m2
          | (m2, Raise e) => failed e m2
          end
      end
  end.

Definition register_recipes_endpoints (compile : rule_compiler)
    (files : list recipe_file) (m : manager) : manager :=
  fold_left (load_recipe compile) files m.

(** ** Startup: the constructor *)

Definition skill_route (skill_id : string) : route :=
  {| route_path := "/skills/" ++ camel_to_snake skill_id;
     route_methods := ["POST"];
     route_endpoint := "skill_" ++ skill_id |}.

(** A registration outside any [try]: its exception leaves the caller. *)
Definition route_or_raise (compile : rule_compiler) (r : route) (m : manager)
    : result manager :=
  match app_route compile r m with
  | (m', Ok _) => Ok m'
  | (_, Raise e) => Raise e
  end.

Fixpoint register_skills_endpoints (compile : rule_compiler)
    (skill_ids : list string) (m : manager) : result manager :=
  match skill_ids with
  | [] => Ok m
  | skill_id :: rest =>
      m' <- route_or_raise compile (skill_route skill_id) m ;;
      register_skills_endpoints compile rest m'
  end.

Definition capabilities_route : route :=
  {| route_path := "/capabilities"; route_methods := ["GET"];
     route_endpoint := "get_capabilities" |}.

Definition new_manager : manager :=
  {| skills := Dict.empty; recipes := Dict.empty; routes := []; error_log := [] |}.

(** [CapabilitiesManager.__init__], on a gateway with the given rule
    compiler. *)
Definition init (compile : rule_compiler) (plugins : list plugin)
    (recipe_files : list recipe_file) : result manager :=
  m <- load_skills plugins new_manager ;;
  m <- register_skills_endpoints compile (Dict.keys (skills m)) m ;;
  let m := register_recipes_endpoints compile recipe_files m in
  route_or_raise compile capabilities_route m.

(** ** The recipe interpreter *)

(** *** Context seeding *)

Definition seed_alias (params : Dict.t value) (param_name : string)
    (context : Dict.t value) (alias : string) : Dict.t value :=
  match Dict.get alias params with
  | Some v => Dict.set param_name v context
  | None => context
  end.

(** One declared parameter: the declared name first, then its aliases in
    order, each assigning to the declared name. *)
Definition seed_param (params : Dict.t value) (context : Dict.t value)
    (param : param_decl) : Dict.t value :=
  let param_name := name param in
  let context :=
    match Dict.get param_name params with
    | Some v => Dict.set param_name v context
    | None => context
    end in
  match aliases param with
  | Some als => fold_left (seed_alias params param_name) als context
  | None => context
  end.

Definition seed_context (r : recipe) (params : Dict.t value) : Dict.t value :=
  match parameters r with
  | Some ps => fold_left (seed_param params) ps Dict.empty
  | None => params
  end.

(** *** Variable substitution *)

Definition param_is_optional (r : recipe) (var_name : string) : bool :=
  match parameters r with
  | Some ps =>
      existsb (fun param => String.eqb (name param) var_name
                            && Repr.truthy (from_option (VBool false) (optional param)))
              ps
  | None => false
  end.

(** [value[key]] for a string key. *)
Definition subscript (v : value) (key : string) : result value :=
  match v with
  | VDict d =>
      match Dict.get key d with
      | Some x => Ok x
      | None => Raise (KeyError (VStr key))
      end
  | VStr _ => Raise (TypeError "string indices must be integers")
  | VList _ => Raise (TypeError "list indices must be integers or slices, not str")
  | _ => Raise (TypeError "object is not subscriptable")
  end.

Fixpoint walk (v : value) (path : list string) : result value :=
  match path with
  | [] => Ok v
  | key :: path' => x <- subscript v key ;; walk x path'
  end.

(** [replace_var]: the callback of the substitution, given group 1 of the
    match. *)
Definition replace_var (context : Dict.t value) (group1 : string) : result string :=
  let var_path := Str.strip "$" group1 in
  v <- walk (VDict context) (Str.split "." var_path) ;;
  Ok (Repr.str v).

(** The pattern [{(\$[^}]+)}] matched at the start of [s]: group 1 and the
    text after the match. *)
Definition match_template (s : string) : option (string * string) :=
  match s with
  | String c0 (String c1 after) =>
      if Ascii.eqb c0 "{" && Ascii.eqb c1 "$"
      then match Str.cut "}" after with
           | Some (String c body, rest) => Some (String "$" (String c body), rest)
           | _ => None
           end
      else None
  | _ => None
  end.

(** [re.sub(r"{(\$[^}]+)}", replace_var, s)]: matches are taken from left
    to right and do not overlap; an exception of the callback leaves the
    substitution. *)
Fixpoint sub_templates (fuel : nat) (context : Dict.t value) (s : string)
    : result string :=
  match fuel with
  | O => Ok s
  | S fuel' =>
      match match_template s with
      | Some (group1, rest) =>
          text <- replace_var context group1 ;;
          out <- sub_templates fuel' context rest ;;
          Ok (text ++ out)
      | None =>
          match s with
          | String c tail =>
              out <- sub_templates fuel' context tail ;;
              Ok (String c out)
          | EmptyString => Ok EmptyString
          end
      end
  end.

Definition expand (context : Dict.t value) (s : string) : result string :=
  sub_templates (String.length s) context s.

(** What one entry of an input mapping contributes: a value for its key,
    or nothing ([continue]). *)
Inductive resolved : Type :=
| Bound (v : value)
| Skipped.

Definition missing_variable (var_name : string) : exn :=
  KeyError (VStr ("Required variable '" ++ var_name ++ "' not found in recipe context")).

Definition resolve_value (r : recipe) (context : Dict.t value) (v : value)
    : result resolved :=
  match v with
  | VStr s =>
      if Str.startswith "$" s
      then
        let var_name := Str.strip "$" s in
        let optional := param_is_optional r var_name in
        match Dict.get var_name context with
        | None => if optional then Ok Skipped else Raise (missing_variable var_name)
        | Some x => Ok (Bound x)
        end
      else text <- expand context s ;; Ok (Bound (VStr text))
  | _ => Ok (Bound v)
  end.

(** The loop over [step["input"].items()]. *)
Fixpoint build_input (r : recipe) (context : Dict.t value)
    (entries : list (string * value)) (input_params : Dict.t value)
    : result (Dict.t value) :=
  match entries with
  | [] => Ok input_params
  | (k, v) :: entries' =>
      x <- resolve_value r context v ;;
      build_input r context entries'
        (match x with
         | Bound y => Dict.set k y input_params
         | Skipped => input_params
         end)
  end.

(** [context[e]] for an arbitrary expression [e]: the keys of a context
    are strings. *)
Definition context_item (context : Dict.t value) (e : value) : result value :=
  match e with
  | VStr k =>
      match Dict.get k context with
      | Some x => Ok x
      | None => Raise (KeyError e)
      end
  | VList _ => Raise (TypeError "unhashable type: 'list'")
  | VDict _ => Raise (TypeError "unhashable type: 'dict'")
  | _ => Raise (KeyError e)
  end.

(** The input of a step whose specification is not a mapping. *)
Definition single_input (sk : skill) (context : Dict.t value) (e : value)
    : result (Dict.t value) :=
  match run_params sk with
  | [] => Raise (RuntimeError "coroutine raised StopIteration")
  | first :: _ =>
      let param_name := sp_name first in
      let param_name :=
        if String.eqb param_name "self" then sp_name first else param_name in
      x <- context_item context e ;;
      Ok [(param_name, x)]
  end.

Definition step_input (r : recipe) (sk : skill) (context : Dict.t value)
    (st : step) : result (Dict.t value) :=
  match input st with
  | VDict entries => build_input r context entries Dict.empty
  | e => single_input sk context e
  end.

(** *** Execution *)

(** An invocation of a skill's [run]: which skill, with which keyword
    arguments. *)
Record call : Type := {
  callee : string;
  kwargs : Dict.t value
}.

(** The state an execution runs in: the manager, whose stored recipes the
    interpreter reaches through [self.recipes], and the invocations made
    so far (kept to say which skills ran). *)
Record world : Type := {
  mgr : manager;
  calls : list call
}.

Definition M (A : Type) : Type := world -> world * result A.

Definition retM {A} (a : A) : M A := fun w => (w, Ok a).

Definition bindM {A B} (c : M A) (k : A -> M B) : M B :=
  fun w => match c w with
           | (w', Ok a) => k a w'
           | (w', Raise e) => (w', Raise e)
           end.

Definition lift {A} (r : result A) : M A := fun w => (w, r).

Notation "x <~ c ;; k" := (bindM c (fun x => k))
  (at level 61, c at next level, right associativity).

Definition get_skill (skill_id : string) : M skill :=
  fun w => (w, match Dict.get skill_id (skills (mgr w)) with
               | Some sk => Ok sk
               | None => Raise (KeyError (VStr skill_id))
               end).

Definition get_recipe (recipe_name : string) : M recipe :=
  fun w => (w, match Dict.get recipe_name (recipes (mgr w)) with
               | Some r => Ok r
               | None => Raise (KeyError (VStr recipe_name))
               end).

Fixpoint update_nth {A} (i : nat) (f : A -> A) (l : list A) : list A :=
  match l, i with
  | [], _ => []
  | x :: l', O => f x :: l'
  | x :: l', S i' => x :: update_nth i' f l'
  end.

(** [step["output_type"] = t] on step [i] of the stored recipe. *)
Definition set_output_type (recipe_name : string) (i : nat) (t : string)
    (m : manager) : manager :=
  match Dict.get recipe_name (recipes m) with
  | Some r =>
      with_recipes
        (Dict.set recipe_name
           (with_flow (update_nth i (with_output_type (Some t)) (flow r)) r)
           (recipes m))
        m
  | None => m
  end.

(** "Add output type information to the step". *)
Definition annotate_step (recipe_name : string) (i : nat) (sk : skill) : M unit :=
  fun w => match run_return sk with
           | Some return_hint =>
               ({| mgr := set_output_type recipe_name i return_hint (mgr w);
                   calls := calls w |}, Ok tt)
           | None => (w, Ok tt)
           end.

Definition invoke (skill_id : string) (sk : skill) (input_params : Dict.t value)
    : M value :=
  fun w => ({| mgr := mgr w;
               calls := (calls w ++ [{| callee := skill_id; kwargs := input_params |}])%list |},
            run sk input_params).

(** The body of the loop over the flow, for the step at index [i]. *)
Definition run_step (recipe_name : string) (r : recipe) (i : nat) (st : step)
    (context : Dict.t value) : M (Dict.t value) :=
  sk <~ get_skill (skill_name st) ;;
  input_params <~ lift (step_input r sk context st) ;;
  _ <~ annotate_step recipe_name i sk ;;
  result <~ invoke (skill_name st) sk input_params ;;
  retM (Dict.set (output st) result context).

Fixpoint run_flow (recipe_name : string) (r : recipe) (i : nat)
    (steps : list step) (context : Dict.t value) : M (Dict.t value) :=
  match steps with
  | [] => retM context
  | st :: steps' =>
      context' <~ run_step recipe_name r i st context ;;
      run_flow recipe_name r (S i) steps' context'
  end.

(** [context[recipe["flow"][-1]["output"]]]. *)
Definition final_output (r : recipe) (context : Dict.t value) : result value :=
  match List.last (map Some (flow r)) None with
  | None => Raise IndexError
  | Some st =>
      match Dict.get (output st) context with
      | Some v => Ok v
      | None => Raise (KeyError (VStr (output st)))
      end
  end.

Definition execute_recipe (recipe_name : string) (params : Dict.t value) : M value :=
  r <~ get_recipe recipe_name ;;
  let context := seed_context r params in
  context <~ run_flow recipe_name r 0 (flow r) context ;;
  lift (final_output r context).

(** ** Templates, as the design document words them *)

(** The text [{$body}]. *)
Definition template (body : string) : string := "{$" ++ body ++ "}".

(** Literal pieces alternating with templates, ending with a literal
    piece. *)
Fixpoint assemble (segs : list (string * string)) (final : string) : string :=
  match segs with
  | [] => final
  | (lit, body) :: segs' => lit ++ template body ++ assemble segs' final
  end.

(** Whether the text [{$] occurs in [s]. *)
Fixpoint has_open (s : string) : bool :=
  match s with
  | String c tail => (Ascii.eqb c "{" && Str.startswith "$" tail) || has_open tail
  | EmptyString => false
  end.


(** What may stand between [{$] and [}]: some text without [}]. *)
Definition template_body (body : string) : Prop :=
  body <> EmptyString /\ Str.contains "}" body = false.

Definition literal_text (s : string) : Prop := has_open s = false.

(** The string form of the value found by walking [path], a
    dot-separated sequence of keys, from the context. *)
Definition lookup_path (context : Dict.t value) (path : string) : result string :=
  v <- walk (VDict context) (Str.split "." path) ;;
  Ok (Repr.str v).

(** Each template replaced by the string form of the value at its path,
    the literal text kept; the first lookup that fails ends it. *)
Fixpoint spec_render (context : Dict.t value) (segs : list (string * string))
    (final : string) : result string :=
  match segs with
  | [] => Ok final
  | (lit, body) :: segs' =>
      text <- lookup_path context (Str.strip "$" body) ;;
      out <- spec_render context segs' final ;;
      Ok (lit ++ text ++ out)
  end.

(** ** Auxiliary notions for the statements *)

(** The manager after the annotation of step [i] for skill [sk]. *)
Definition annotated (recipe_name : string) (i : nat) (sk : skill) (m : manager)
    : manager :=
  match run_return sk with
  | Some return_hint => set_output_type recipe_name i return_hint m
  | None => m
  end.

(** A recipe without the ["output_type"] entries of its steps. *)
Definition forget_types (r : recipe) : recipe :=
  with_flow (map (with_output_type None) (flow r)) r.

(** Two managers that differ at most in the ["output_type"] entries of the
    steps of the recipe stored under [recipe_name]. *)
Definition same_but_types (recipe_name : string) (m m' : manager) : Prop :=
  skills m' = skills m
  /\ routes m' = routes m
  /\ error_log m' = error_log m
  /\ Dict.map_values forget_types (recipes m') = Dict.map_values forget_types (recipes m)
  /\ forall e, e <> recipe_name -> Dict.get e (recipes m') = Dict.get e (recipes m).

(** The manager with the ["output_type"] entries left out. *)
Definition without_types (m : manager) : manager :=
  with_recipes (Dict.map_values forget_types (recipes m)) m.

(** A series of recipe invocations, one after the other; the results are
    dropped. *)
Definition execute_all (invocations : list (string * Dict.t value)) (w : world)
    : world :=
  fold_left (fun w inv => fst (execute_recipe (fst inv) (snd inv) w)) invocations w.

(** The recipes a load accepts: every required skill is registered. *)
Definition skills_available (sks : Dict.t skill) (r : recipe) : Prop :=
  forall s, In s (from_option [] (required_skills r)) -> Dict.mem s sks = true.

(** The recipe a file contributes, when the load stores one. *)
Definition accepted (sks : Dict.t skill) (f : recipe_file) : option recipe :=
  match safe_load f with
  | Ok r => match missing_skills sks r with [] => Some r | _ :: _ => None end
  | Raise _ => None
  end.


(** What a candidate file registers, when it registers something. *)
Definition registration (p : plugin) : option (string * skill) :=
  if String.prefix "__" (stem p) then None
  else match instantiate p with
       | Ok instance => Some (class_name_of (stem p), instance)
       | Raise _ => None
       end.

(** The exception of a candidate file that the loader does not catch,
    when there is one. *)
Definition escapes (p : plugin) : option exn :=
  if String.prefix "__" (stem p) then None
  else match instantiate p with
       | Ok _ => None
       | Raise e => if caught_by_loader e then None else Some e
       end.

(** A variable declared optional, as the design document has it: the
    parameter list of the recipe has a parameter of that name whose
    ["optional"] entry holds a true value. *)
Definition declared_optional (r : recipe) (var_name : string) : Prop :=
  exists ps p o,
    parameters r = Some ps /\ In p ps /\ name p = var_name
    /\ optional p = Some o /\ Repr.truthy o = true.

(** ** Worked examples *)

Module Example.

(** The context [{"user": {"name": "Ann"}}]. *)
Definition ann : Dict.t value := [("user", VDict [("name", VStr "Ann")])].

(** The shape of [TextCompletion]: [run(self, prompt: str) -> str],
    hidden from discovery; the reply is fixed to the answer the skill
    gives when the model returns nothing. *)
Definition text_completion : skill :=
  {| class_doc := Some "Skill for processing text using LLM";
     hiddenCapability := true;
     run_doc := Some "Process text using the provided prompt";
     run_params := [{| sp_name := "prompt"; sp_hint := Some "<class 'str'>";
                       sp_default := None |}];
     run_return := Some "<class 'str'>";
     run := fun _ => Ok (VStr "no answer") |}.

(** The shape of [HtmlTextParser]: [run(self, text)], no annotation;
    the extracted text is taken to be the input. *)
Definition html_text_parser : skill :=
  {| class_doc := None;
     hiddenCapability := false;
     run_doc := Some "Extract article text from an HTML page";
     run_params := [{| sp_name := "text"; sp_hint := None; sp_default := None |}];
     run_return := None;
     run := fun kw => match Dict.get "text" kw with
                      | Some t => Ok (VDict [("text", t)])
                      | None => Raise (SkillError "run() missing 1 required positional argument: 'text'")
                      end |}.

Definition registry : Dict.t skill :=
  [("TextCompletion", text_completion); ("HtmlTextParser", html_text_parser)].

(** A recipe that parses a page and completes a prompt about it. *)
Definition summarize : recipe :=
  {| endpoint := "/summarize";
     method := None;
     description := Some "Summarize a page";
     required_skills := Some ["HtmlTextParser"; "TextCompletion"];
     parameters := Some [{| name := "html"; aliases := Some ["page"; "content"];
                            optional := None; param_doc := [] |};
                         {| name := "style"; aliases := None;
                            optional := Some (VBool true); param_doc := [] |}];
     flow := [{| skill_name := "HtmlTextParser";
                 input := VDict [("text", VStr "$html")];
                 output := "parsed"; output_type := None |};
              {| skill_name := "TextCompletion";
                 input := VDict [("prompt", VStr "Summarize: {$parsed.text}");
                                 ("style", VStr "$style")];
                 output := "summary"; output_type := None |}] |}.

(** Two candidate files whose stems give the same class name, each
    module defining a class of that name. *)
Definition first_news : skill :=
  {| class_doc := Some "first"; hiddenCapability := false; run_doc := None;
     run_params := []; run_return := None; run := fun _ => Ok VNone |}.

Definition second_news : skill :=
  {| class_doc := Some "second"; hiddenCapability := false; run_doc := None;
     run_params := []; run_return := None; run := fun _ => Ok VNone |}.

Definition news_plugin : plugin :=
  {| plugin_path := "skills/news_search.py"; stem := "news_search";
     imported_as := Module_ [("NewsSearch", Ok first_news)] |}.

Definition news_plugin' : plugin :=
  {| plugin_path := "skills/news__search.py"; stem := "news__search";
     imported_as := Module_ [("NewsSearch", Ok second_news)] |}.

(** A file whose import fails for want of a library, one whose module
    has another class than the one its stem names, and one whose class
    refuses to be built without its configuration. *)
Definition broken_plugin : plugin :=
  {| plugin_path := "skills/broken.py"; stem := "broken";
     imported_as := NoModule (ImportError "No module named 'newsapi'") |}.

Definition misnamed_plugin : plugin :=
  {| plugin_path := "skills/html_parser.py"; stem := "html_parser";
     imported_as := Module_ [("HTMLParser", Ok html_text_parser)] |}.

Definition unconfigured_plugin : plugin :=
  {| plugin_path := "skills/text_completion.py"; stem := "text_completion";
     imported_as :=
       Module_ [("TextCompletion",
                 Raise (ValueError "AI_API_MODEL environment variable is not set"))] |}.

(** A rule compiler for the examples.  It accepts the paths in which no
    angle bracket occurs and refuses the others; the gateway does the
    same on every path of the examples (it also accepts brackets that
    enclose a well-formed variable, of which the examples have none). *)
Definition compile : rule_compiler :=
  fun path =>
    if Str.contains "<" path || Str.contains ">" path
    then Raise (ValueError ("malformed url rule: " ++ Repr.repr_str path))
    else Ok tt.

(** A recipe that needs a skill the registry does not have. *)
Definition headlines : recipe :=
  {| endpoint := "/headlines"; method := Some "GET"; description := None;
     required_skills := Some ["NewsSearch"; "TextCompletion"; "Translator"];
     parameters := None;
     flow := [{| skill_name := "NewsSearch"; input := VStr "query";
                 output := "news"; output_type := None |}] |}.

(** Two definitions under one endpoint, and one whose endpoint the
    gateway cannot parse; each requires a registered skill only. *)
Definition greet : recipe :=
  {| endpoint := "/greet"; method := None; description := Some "first";
     required_skills := Some ["HtmlTextParser"]; parameters := None;
     flow := [{| skill_name := "HtmlTextParser"; input := VStr "text";
                 output := "parsed"; output_type := None |}] |}.

Definition greet' : recipe :=
  {| endpoint := "/greet"; method := None; description := Some "second";
     required_skills := Some ["HtmlTextParser"]; parameters := None;
     flow := [{| skill_name := "HtmlTextParser"; input := VStr "text";
                 output := "parsed"; output_type := None |}] |}.

Definition unclosed : recipe :=
  {| endpoint := "/a<b"; method := None; description := None;
     required_skills := Some ["HtmlTextParser"]; parameters := None;
     flow := [{| skill_name := "HtmlTextParser"; input := VStr "text";
                 output := "parsed"; output_type := None |}] |}.

Definition greet_files : list recipe_file :=
  [{| file_name := "greet.yaml"; file_path := "recipes/greet.yaml";
      safe_load := Ok greet |};
   {| file_name := "greet2.yaml"; file_path := "recipes/greet2.yaml";
      safe_load := Ok greet' |};
   {| file_name := "unclosed.yaml"; file_path := "recipes/unclosed.yaml";
      safe_load := Ok unclosed |}].

Definition recipe_files : list recipe_file :=
  [{| file_name := "headlines.yaml"; file_path := "recipes/headlines.yaml";
      safe_load := Ok headlines |};
   {| file_name := "broken.yaml"; file_path := "recipes/broken.yaml";
      safe_load := Raise (YAMLError "mapping values are not allowed here") |};
   {| file_name := "summarize.yaml"; file_path := "recipes/summarize.yaml";
      safe_load := Ok summarize |}].

(** The manager once the skills are loaded. *)
Definition loaded : manager :=
  {| skills := registry; recipes := Dict.empty; routes := []; error_log := [] |}.

Definition manager0 : manager :=
  {| skills := registry; recipes := [("/summarize", summarize)];
     routes := [recipe_route summarize]; error_log := [] |}.

Definition world0 : world := {| mgr := manager0; calls := [] |}.

(** A recipe whose only step takes a single expression, written as a
    reference. *)
Definition page : recipe :=
  {| endpoint := "/page"; method := None; description := None;
     required_skills := Some ["HtmlTextParser"]; parameters := None;
     flow := [{| skill_name := "HtmlTextParser"; input := VStr "$html";
                 output := "parsed"; output_type := None |}] |}.

(** A recipe that declares one name twice, with an alias the first
    time. *)
Definition twice_declared : recipe :=
  {| endpoint := "/twice"; method := None; description := None;
     required_skills := None;
     parameters := Some [{| name := "a"; aliases := Some ["x"]; optional := None;
                            param_doc := [] |};
                         {| name := "a"; aliases := None; optional := None;
                            param_doc := [] |}];
     flow := [] |}.

(** A recipe whose only step gives its skill no argument. *)
Definition parse_nothing : recipe :=
  {| endpoint := "/parse_nothing"; method := None; description := None;
     required_skills := Some ["HtmlTextParser"]; parameters := None;
     flow := [{| skill_name := "HtmlTextParser"; input := VDict [];
                 output := "parsed"; output_type := None |}] |}.

(** A manager whose table also holds a recipe with a skill that is not
    registered and the recipe above. *)
Definition manager1 : manager :=
  {| skills := registry;
     recipes := [("/summarize", summarize); ("/headlines", headlines);
                 ("/parse_nothing", parse_nothing)];
     routes := []; error_log := [] |}.

Definition world1 : world := {| mgr := manager1; calls := [] |}.

End Example.

(** ** The HTTP handlers *)

(** A request, as the handlers read it: one that does not announce JSON,
    one that announces JSON with a body the gateway fails to read
    ([get_json] raises), and one whose body is a JSON object.  (A body of
    another JSON type is none of these.) *)
Inductive request : Type :=
| NotJson
| BadJson (e : exn)
| Json (params : Dict.t value).

(** What a handler returns to the gateway: [jsonify(v)] with a status, or
    the triple of [v], the status and the [text/plain] header.  What the
    gateway makes of a returned value is the gateway's affair: of the
    triple it makes a response when [v] is text. *)
Inductive payload : Type :=
| AsJson (v : value)
| AsText (v : value).

Record response : Type := {
  status : nat;
  body : payload
}.

Definition error_response (code : nat) (message : string) : response :=
  {| status := code; body := AsJson (VDict [("error", VStr message)]) |}.

(** What the handler returns for the outcome of its [try]: a [dict] as
    JSON, any other result in the triple, an exception as error 500. *)
Definition respond (r : result value) : response :=
  match r with
  | Ok (VDict d) => {| status := 200; body := AsJson (VDict d) |}
  | Ok v => {| status := 200; body := AsText v |}
  | Raise e => error_response 500 (exn_str e)
  end.

(** The handler [create_recipe_handler] builds for an endpoint. *)
Definition recipe_handler (recipe_endpoint : string) (req : request)
    (w : world) : world * response :=
  match req with
  | NotJson => (w, error_response 400 "Request must be JSON")
  | BadJson e => (w, respond (Raise e))
  | Json params =>
      let (w', r) := execute_recipe recipe_endpoint params w in
      (w', respond r)
  end.

(** The handler [create_skill_handler] builds for a skill. *)
Definition skill_handler (skill_id : string) (sk : skill) (req : request)
    (w : world) : world * response :=
  match req with
  | NotJson => (w, error_response 400 "Request must be JSON")
  | BadJson e => (w, respond (Raise e))
  | Json params =>
      let (w', r) := invoke skill_id sk params w in
      (w', respond r)
  end.

(** ** Notions for the further properties *)

(** Every binding of [context] is a declared name with the value the
    payload has under that name or under one of its aliases. *)
Definition from_payload (ps : list param_decl) (params context : Dict.t value) : Prop :=
  forall k v, Dict.get k context = Some v ->
    exists p key,
      In p ps /\ name p = k
      /\ (key = name p \/ In key (from_option [] (aliases p)))
      /\ Dict.get key params = Some v.

(** Whether [s] has a capital letter. *)
Fixpoint has_upper (s : string) : bool :=
  match s with
  | String c s' => Str.is_upper c || has_upper s'
  | EmptyString => false
  end.

(** The registry as a function of the registrations of the files. *)
Definition register (sks : Dict.t skill) (p : plugin) : Dict.t skill :=
  match registration p with
  | Some (class_name, instance) => Dict.set class_name instance sks
  | None => sks
  end.

(** The registry the files give, from the registry [sks]: the
    registrations one after the other, up to the first exception that
    the loader does not catch. *)
Fixpoint registry_after (files : list plugin) (sks : Dict.t skill)
    : result (Dict.t skill) :=
  match files with
  | [] => Ok sks
  | p :: files' =>
      match escapes p with
      | Some e => Raise e
      | None => registry_after files' (register sks p)
      end
  end.

(** Whether the map has a rule of the given path. *)
Definition has_rule (path : string) (m : manager) : bool :=
  existsb (fun rt => String.eqb (route_path rt) path) (routes m).

(** What the load of the recipes guarantees of a stored recipe: it is
    under its own endpoint, its skills are registered, it was read from a
    file, and its rule is in the map when the gateway compiles it. *)
Definition well_stored (compile : rule_compiler) (sks : Dict.t skill)
    (files : list recipe_file) (m : manager) : Prop :=
  forall e r, Dict.get e (recipes m) = Some r ->
    endpoint r = e
    /\ skills_available sks r
    /\ (exists f, In f files /\ safe_load f = Ok r)
    /\ (compile ("/recipes" ++ e) = Ok tt ->
        exists rt, In rt (routes m) /\ route_path rt = "/recipes" ++ e
                   /\ route_endpoint rt = "recipe_" ++ e).

(** The flow as a function of the registry alone: the return hints of the
    steps that get annotated, the invocations made, and how it ends. *)
Fixpoint pure_flow (sks : Dict.t skill) (r : recipe) (steps : list step)
    (context : Dict.t value)
    : list (option string) * list call * result (Dict.t value) :=
  match steps with
  | [] => ([], [], Ok context)
  | st :: steps' =>
      match Dict.get (skill_name st) sks with
      | None => ([], [], Raise (KeyError (VStr (skill_name st))))
      | Some sk =>
          match step_input r sk context st with
          | Raise e => ([], [], Raise e)
          | Ok kw =>
              let c := {| callee := skill_name st; kwargs := kw |} in
              match run sk kw with
              | Raise e => ([run_return sk], [c], Raise e)
              | Ok y =>
                  let '(hs, cs, res) :=
                    pure_flow sks r steps' (Dict.set (output st) y context) in
                  (run_return sk :: hs, c :: cs, res)
              end
          end
      end
  end.

(** The hints written on the steps from index [i] on. *)
Fixpoint apply_hints (i : nat) (hs : list (option string)) (f : list step)
    : list step :=
  match hs with
  | [] => f
  | h :: hs' =>
      apply_hints (S i) hs'
        (match h with
         | Some t => update_nth i (with_output_type (Some t)) f
         | None => f
         end)
  end.

(** The manager with the flow of the recipe [r], stored under
    [recipe_name], replaced by [f]. *)
Definition with_stored_flow (recipe_name : string) (r : recipe) (f : list step)
    (m : manager) : manager :=
  with_recipes (Dict.set recipe_name (with_flow f r) (recipes m)) m.

(** Whether every character of [s] is a small letter. *)
Fixpoint all_lower (s : string) : bool :=
  match s with
  | String c s' => Str.is_lower c && all_lower s'
  | EmptyString => true
  end.

(** A word of a file stem: two or more small letters. *)
Definition stem_word (w : string) : Prop :=
  all_lower w = true /\ (2 <= String.length w)%nat.

(** A word with its first letter raised. *)
Definition capitalized (w : string) : string :=
  match w with
  | String c s => String (Str.to_upper c) s
  | EmptyString => EmptyString
  end.

(** Capitalized words one after the other, some of them preceded by an
    underscore. *)
Fixpoint glue (ws : list (bool * string)) : string :=
  match ws with
  | [] => EmptyString
  | (underscore, w) :: ws' =>
      (if underscore then "_" else "") ++ capitalized w ++ glue ws'
  end.

(** The underscores the first substitution of [camel_to_snake] puts in:
    before every second word. *)
Fixpoint first_pass (ws : list string) : list (bool * string) :=
  match ws with
  | w1 :: w2 :: ws' => (false, w1) :: (true, w2) :: first_pass ws'
  | [w] => [(false, w)]
  | [] => []
  end.

(** The first substitution, with the fuel the string needs. *)
Definition words_pass (s : string) : string := snake_words (String.length s) s.

(** The words of a stem after the first, each after its underscore. *)
Fixpoint underscored (ws : list string) : string :=
  match ws with
  | [] => EmptyString
  | w :: ws' => "_" ++ w ++ underscored ws'
  end.

(** A step as a completed execution leaves it: with the return hint of its
    skill written on it, when the skill declares one. *)
Definition hinted (sks : Dict.t skill) (st : step) : step :=
  match Dict.get (skill_name st) sks with
  | Some sk =>
      match run_return sk with
      | Some return_hint => with_output_type (Some return_hint) st
      | None => st
      end
  | None => st
  end.

(** * Properties *)

(** ** The primitives on sample inputs *)

Example title_web : Str.title "web" = "Web".
Proof. reflexivity. Qed.

Example title_mixed : Str.title "fOO2bar" = "Foo2Bar".
Proof. reflexivity. Qed.

Example strip_both : Str.strip "$" "$$a$b$" = "a$b".
Proof. reflexivity. Qed.

Example split_dots : Str.split "." "a..b" = ["a"; ""; "b"].
Proof. reflexivity. Qed.

Example split_empty : Str.split "." "" = [""].
Proof. reflexivity. Qed.

Example str_of_dict :
  Repr.str (VDict [("a", VInt (-12)); ("it's", VList [VStr "x"; VNone; VBool true])])
  = "{'a': -12, " ++ String Repr.dquote ("it's" ++ String Repr.dquote ": ['x', None, True]}").
Proof. reflexivity. Qed.

Example str_of_text : Repr.str (VStr "Ann") = "Ann".
Proof. reflexivity. Qed.

Example snake_downloader : camel_to_snake "WebUrlDownloader" = "web_url_downloader".
Proof. reflexivity. Qed.

Example snake_acronym : camel_to_snake "HTMLTextParser2D" = "html_text_parser2_d".
Proof. reflexivity. Qed.

Example class_name_downloader :
  class_name_of "web_url_downloader" = "WebUrlDownloader".
Proof. reflexivity. Qed.


(** ** Dictionaries *)

Section DictFacts.

Context {V : Type}.

Lemma get_set_same (k : string) (v : V) (d : Dict.t V) :
  Dict.get k (Dict.set k v d) = Some v.
Proof.
  induction d as [|[k' v'] d IH]; simpl.
  - now rewrite String.eqb_refl.
  - destruct (String.eqb k k') eqn:E; simpl; rewrite E; auto.
Qed.

Lemma get_set_other (k k' : string) (v : V) (d : Dict.t V) :
  k <> k' -> Dict.get k (Dict.set k' v d) = Dict.get k d.
Proof.
  intros Hne. induction d as [|[k0 v0] d IH]; simpl.
  - destruct (String.eqb k k') eqn:E; auto.
    apply String.eqb_eq in E. contradiction.
  - destruct (String.eqb k' k0) eqn:E0; simpl.
    + apply String.eqb_eq in E0. subst k0.
      destruct (String.eqb k k') eqn:E; auto.
      apply String.eqb_eq in E. contradiction.
    + now rewrite IH.
Qed.

Lemma get_In (k : string) (v : V) (d : Dict.t V) :
  Dict.get k d = Some v -> In (k, v) d.
Proof.
  induction d as [|[k' v'] d IH]; simpl; [discriminate|].
  destruct (String.eqb k k') eqn:E.
  - apply String.eqb_eq in E. intros [= ->]. subst. now left.
  - intros H. right. auto.
Qed.

Lemma get_None_keys (k : string) (d : Dict.t V) :
  Dict.get k d = None <-> ~ In k (Dict.keys d).
Proof.
  induction d as [|[k' v'] d IH]; simpl.
  - tauto.
  - destruct (String.eqb k k') eqn:E.
    + apply String.eqb_eq in E. subst. split; [discriminate | tauto].
    + apply String.eqb_neq in E. rewrite IH. split.
      * intros H [H1 | H1]; [now subst | tauto].
      * tauto.
Qed.

Lemma keys_set_present (k : string) (v : V) (d : Dict.t V) :
  In k (Dict.keys d) -> Dict.keys (Dict.set k v d) = Dict.keys d.
Proof.
  induction d as [|[k' v'] d IH]; simpl; [tauto|].
  destruct (String.eqb k k') eqn:E; simpl; auto.
  apply String.eqb_neq in E. intros [H | H]; [now subst|].
  now rewrite IH.
Qed.

Lemma keys_set_absent (k : string) (v : V) (d : Dict.t V) :
  ~ In k (Dict.keys d) -> Dict.keys (Dict.set k v d) = (Dict.keys d ++ [k])%list.
Proof.
  induction d as [|[k' v'] d IH]; simpl; auto.
  destruct (String.eqb k k') eqn:E; simpl.
  - apply String.eqb_eq in E. subst. tauto.
  - intros H. rewrite IH; tauto.
Qed.

Lemma keys_set_incl (k k0 : string) (v : V) (d : Dict.t V) :
  In k0 (Dict.keys (Dict.set k v d)) -> k0 = k \/ In k0 (Dict.keys d).
Proof.
  induction d as [|[k' v'] d IH]; simpl.
  - intros [H | []]. now left.
  - destruct (String.eqb k k') eqn:E; simpl; intros [H | H]; auto.
    destruct (IH H); auto.
Qed.

Lemma keys_set_NoDup (k : string) (v : V) (d : Dict.t V) :
  NoDup (Dict.keys d) -> NoDup (Dict.keys (Dict.set k v d)).
Proof.
  intros Hd. destruct (in_dec string_dec k (Dict.keys d)) as [Hin | Hout].
  - now rewrite keys_set_present.
  - rewrite keys_set_absent by assumption.
    apply NoDup_app; auto.
    + constructor; [tauto | constructor].
    + intros x Hx [<- | []]. contradiction.
Qed.

End DictFacts.

(** ** Context seeding *)

Lemma seed_alias_other params p context als k :
  k <> p ->
  Dict.get k (fold_left (seed_alias params p) als context) = Dict.get k context.
Proof.
  intros Hne. revert context.
  induction als as [|a als IH]; intros context; simpl; auto.
  rewrite IH. unfold seed_alias.
  destruct (Dict.get a params); auto using get_set_other.
Qed.

Lemma seed_param_other params context q k :
  name q <> k ->
  Dict.get k (seed_param params context q) = Dict.get k context.
Proof.
  intros Hne. unfold seed_param.
  assert (Hbase : Dict.get k
            (match Dict.get (name q) params with
             | Some v => Dict.set (name q) v context
             | None => context
             end) = Dict.get k context).
  { destruct (Dict.get (name q) params); auto.
    apply get_set_other. congruence. }
  destruct (aliases q); auto.
  rewrite seed_alias_other; auto.
Qed.

Lemma seed_params_other params context ps k :
  Forall (fun q => name q <> k) ps ->
  Dict.get k (fold_left (seed_param params) ps context) = Dict.get k context.
Proof.
  intros H. revert context.
  induction H as [|q ps Hq _ IH]; intros context; simpl; auto.
  rewrite IH. now apply seed_param_other.
Qed.

Lemma seed_alias_unmatched params p context als :
  Forall (fun b => Dict.get b params = None) als ->
  fold_left (seed_alias params p) als context = context.
Proof.
  intros H. revert context.
  induction H as [|b als Hb _ IH]; intros context; simpl; auto.
  rewrite IH. unfold seed_alias. now rewrite Hb.
Qed.

(** After the aliases of a parameter have been gone through, the last of
    them that the payload has is the one whose value is bound. *)
Lemma seed_alias_last params p context als1 a als2 v :
  Dict.get a params = Some v ->
  Forall (fun b => Dict.get b params = None) als2 ->
  Dict.get p (fold_left (seed_alias params p) (als1 ++ a :: als2) context) = Some v.
Proof.
  intros Ha Hrest. rewrite fold_left_app. simpl.
  rewrite seed_alias_unmatched by assumption.
  unfold seed_alias at 1. rewrite Ha. apply get_set_same.
Qed.

Lemma seed_keys_declared params ps context k :
  In k (Dict.keys (fold_left (seed_param params) ps context)) ->
  In k (Dict.keys context) \/ In k (map name ps).
Proof.
  revert context. induction ps as [|p ps IH]; intros context; simpl; auto.
  intros H. apply IH in H. destruct H as [H | H]; [|tauto].
  assert (Hal : forall als c, In k (Dict.keys (fold_left (seed_alias params (name p)) als c)) ->
                              In k (Dict.keys c) \/ name p = k).
  { induction als as [|a als IHa]; intros c; simpl; auto.
    intros H0. apply IHa in H0. destruct H0 as [H0 | H0]; auto.
    unfold seed_alias in H0. destruct (Dict.get a params); auto.
    apply keys_set_incl in H0. destruct H0; auto. }
  assert (Hbase : forall c : Dict.t value,
            In k (Dict.keys (match Dict.get (name p) params with
                             | Some v => Dict.set (name p) v c
                             | None => c end)) ->
            In k (Dict.keys c) \/ name p = k).
  { intros c H0. destruct (Dict.get (name p) params); auto.
    apply keys_set_incl in H0. destruct H0; auto. }
  unfold seed_param in H. destruct (aliases p).
  - apply Hal in H. destruct H as [H | H]; auto.
    apply Hbase in H. tauto.
  - apply Hbase in H. tauto.
Qed.

(** C9, as the seeding has it.  Seeding goes through a declared
    parameter's name first and its aliases afterwards, in their declared
    order; so when the payload holds both the declared name and one or
    more of the aliases, and no later parameter is declared under the
    same name, the context binds the declared name to the value supplied
    under the last alias that the payload holds, not to the value
    supplied under the declared name. *)
Theorem alias_value_overrides_declared_name
    (r : recipe) (params : Dict.t value)
    (ps1 ps2 : list param_decl) (p : param_decl)
    (als1 als2 : list string) (a : string) (v_name v_alias : value) :
  parameters r = Some (ps1 ++ p :: ps2)%list ->
  Forall (fun q => name q <> name p) ps2 ->
  aliases p = Some (als1 ++ a :: als2)%list ->
  Dict.get (name p) params = Some v_name ->
  Dict.get a params = Some v_alias ->
  Forall (fun b => Dict.get b params = None) als2 ->
  Dict.get (name p) (seed_context r params) = Some v_alias
  /\ Dict.get (name p) (seed_param params (fold_left (seed_param params) ps1 Dict.empty) p)
     = Some v_alias.
Proof.
  intros Hps Hlater Hal Hname Ha Hrest.
  assert (Hstep : forall context,
             Dict.get (name p) (seed_param params context p) = Some v_alias).
  { intros context. unfold seed_param. rewrite Hal.
    now apply seed_alias_last. }
  split; [|apply Hstep].
  unfold seed_context. rewrite Hps, fold_left_app. simpl.
  rewrite seed_params_other by assumption. apply Hstep.
Qed.

(** C10.  The payload is copied into the context only when the recipe has
    no ["parameters"] key: with the key present the context holds declared
    names only, and with the key bound to the empty list it is empty,
    whatever the caller supplied. *)
Theorem verbatim_copy_only_without_parameters_key
    (r : recipe) (params : Dict.t value) :
  (parameters r = None -> seed_context r params = params)
  /\ (parameters r = Some [] -> seed_context r params = Dict.empty)
  /\ (forall ps k, parameters r = Some ps ->
        In k (Dict.keys (seed_context r params)) -> In k (map name ps)).
Proof.
  unfold seed_context. repeat split.
  - now intros ->.
  - now intros ->.
  - intros ps k -> H. apply seed_keys_declared in H.
    destruct H as [[] | H]; assumption.
Qed.

(** ** Strings *)

Lemma append_empty_r (s : string) : s ++ "" = s.
Proof. induction s; simpl; congruence. Qed.

Lemma append_assoc (a b c : string) : (a ++ b) ++ c = a ++ b ++ c.
Proof. induction a; simpl; congruence. Qed.

Lemma length_append (a b : string) :
  String.length (a ++ b) = String.length a + String.length b.
Proof. induction a; simpl; auto. Qed.

Lemma rev_onto_twice (s a b : string) :
  Str.rev_onto (Str.rev_onto s a) b = Str.rev_onto a (s ++ b).
Proof.
  revert a b. induction s as [|c s IH]; intros a b; simpl; [reflexivity|].
  now rewrite IH.
Qed.

Lemma rev_involutive (s : string) : Str.rev (Str.rev s) = s.
Proof.
  unfold Str.rev. rewrite rev_onto_twice. simpl. apply append_empty_r.
Qed.



Lemma strip_leading (c : ascii) (s : string) :
  Str.strip c (String c s) = Str.strip c s.
Proof. unfold Str.strip. simpl. now rewrite Ascii.eqb_refl. Qed.

Lemma cut_first (c : ascii) (body rest : string) :
  Str.contains c body = false ->
  Str.cut c (body ++ String c rest) = Some (body, rest).
Proof.
  induction body as [|x body IH]; simpl.
  - now rewrite Ascii.eqb_refl.
  - intros H. apply orb_false_iff in H. destruct H as [Hx Hb].
    rewrite Hx, (IH Hb). reflexivity.
Qed.

(** ** Embedded templates *)

Lemma match_template_at (body rest : string) :
  template_body body ->
  match_template (template body ++ rest) = Some (String "$" body, rest).
Proof.
  intros [Hne Hclose]. unfold template. simpl.
  rewrite append_assoc. simpl.
  rewrite (cut_first _ _ _ Hclose).
  destruct body; [contradiction | reflexivity].
Qed.

Lemma match_template_literal (c : ascii) (s : string) :
  (Ascii.eqb c "{" && Str.startswith "$" s) = false ->
  match_template (String c s) = None.
Proof.
  intros H. unfold match_template. destruct s as [|c1 after]; auto.
  simpl in H. now rewrite H.
Qed.

Lemma bind_ok {A} (r : result A) : (x <- r ;; Ok x) = r.
Proof. now destruct r. Qed.

Lemma sub_templates_empty (fuel : nat) (context : Dict.t value) :
  sub_templates fuel context "" = Ok "".
Proof. destruct fuel; reflexivity. Qed.

Lemma sub_templates_step (fuel : nat) (context : Dict.t value) (s : string) :
  sub_templates (S fuel) context s
  = match match_template s with
    | Some (group1, rest) =>
        text <- replace_var context group1 ;;
        out <- sub_templates fuel context rest ;;
        Ok (text ++ out)
    | None =>
        match s with
        | String c tail => out <- sub_templates fuel context tail ;; Ok (String c out)
        | EmptyString => Ok EmptyString
        end
    end.
Proof. reflexivity. Qed.

(** Literal text in front of the rest of the string is copied. *)
Lemma sub_templates_literal (context : Dict.t value) (lit s : string) (fuel : nat) :
  literal_text lit ->
  Str.startswith "$" s = false ->
  String.length lit + String.length s <= fuel ->
  sub_templates fuel context (lit ++ s)
  = (out <- sub_templates (fuel - String.length lit) context s ;; Ok (lit ++ out)).
Proof.
  unfold literal_text. revert fuel.
  induction lit as [|c lit IH]; intros fuel Hlit Hs Hfuel; simpl.
  - rewrite Nat.sub_0_r. symmetry. apply bind_ok.
  - simpl in Hlit. apply orb_false_iff in Hlit. destruct Hlit as [Hc Hlit].
    destruct fuel as [|fuel]; [simpl in Hfuel; lia|].
    rewrite sub_templates_step, match_template_literal.
    + rewrite IH by (auto; simpl in Hfuel; lia).
      rewrite Nat.sub_succ.
      now destruct (sub_templates (fuel - String.length lit) context s).
    + destruct lit; simpl in *; auto.
      rewrite Hs. apply andb_false_r.
Qed.

Lemma length_assemble_template (body rest : string) :
  String.length (template body ++ rest) = 3 + String.length body + String.length rest.
Proof.
  unfold template. simpl. rewrite !length_append. simpl. lia.
Qed.

Lemma replace_var_lookup (context : Dict.t value) (body : string) :
  replace_var context (String "$" body) = lookup_path context (Str.strip "$" body).
Proof. unfold replace_var, lookup_path. now rewrite strip_leading. Qed.

(** The substitution on a string made of literal pieces and templates. *)
Lemma sub_templates_assemble (context : Dict.t value)
    (segs : list (string * string)) (final : string) :
  Forall (fun seg => literal_text (fst seg) /\ template_body (snd seg)) segs ->
  literal_text final ->
  forall fuel, String.length (assemble segs final) <= fuel ->
  sub_templates fuel context (assemble segs final) = spec_render context segs final.
Proof.
  intros Hsegs Hfinal.
  induction Hsegs as [|[lit body] segs [Hlit Hbody] _ IH]; intros fuel Hfuel;
    cbn [assemble spec_render fst snd] in *.
  - rewrite <- (append_empty_r final) at 1.
    rewrite sub_templates_literal; auto.
    + rewrite sub_templates_empty. simpl. now rewrite append_empty_r.
    + simpl. lia.
  - rewrite length_append, length_assemble_template in Hfuel.
    rewrite sub_templates_literal; auto.
    + destruct (fuel - String.length lit) as [|fuel'] eqn:Efuel; [lia|].
      rewrite sub_templates_step, (match_template_at _ _ Hbody).
      rewrite replace_var_lookup.
      destruct (lookup_path context (Str.strip "$" body)) as [text|e]; simpl; auto.
      rewrite IH by lia.
      destruct (spec_render context segs final); simpl; auto.
    + rewrite length_assemble_template. lia.
Qed.

Lemma walk_app (v : value) (p q : list string) :
  walk v (p ++ q)%list = (x <- walk v p ;; walk x q).
Proof.
  revert v. induction p as [|key p IH]; intros v; simpl; auto.
  destruct (subscript v key); simpl; auto.
Qed.

Lemma resolve_value_template (r : recipe) (context : Dict.t value) (s : string) :
  Str.startswith "$" s = false ->
  resolve_value r context (VStr s) = (text <- expand context s ;; Ok (Bound (VStr text))).
Proof. intros H. unfold resolve_value. now rewrite H. Qed.

Lemma resolve_value_reference (r : recipe) (context : Dict.t value) (s : string) :
  Str.startswith "$" s = true ->
  resolve_value r context (VStr s)
  = match Dict.get (Str.strip "$" s) context with
    | Some x => Ok (Bound x)
    | None =>
        if param_is_optional r (Str.strip "$" s) then Ok Skipped
        else Raise (missing_variable (Str.strip "$" s))
    end.
Proof. intros H. unfold resolve_value. now rewrite H. Qed.



(** C8.  A string value of an input mapping that begins with [$] is a
    direct reference as a whole: the variable is the value without the
    [$] signs at its two ends, and the outcome depends on the context
    through that one variable only, so a template inside such a string is
    never expanded.  Templates are expanded in the strings that do not
    begin with [$]. *)
Theorem direct_reference_takes_precedence
    (r : recipe) (context : Dict.t value) (v : string) :
  (Str.startswith "$" v = true ->
     resolve_value r context (VStr v)
     = match Dict.get (Str.strip "$" v) context with
       | Some x => Ok (Bound x)
       | None =>
           if param_is_optional r (Str.strip "$" v) then Ok Skipped
           else Raise (missing_variable (Str.strip "$" v))
       end
     /\ forall context',
          Dict.get (Str.strip "$" v) context' = Dict.get (Str.strip "$" v) context ->
          resolve_value r context' (VStr v) = resolve_value r context (VStr v))
  /\ (Str.startswith "$" v = false ->
        resolve_value r context (VStr v)
        = (text <- expand context v ;; Ok (Bound (VStr text)))).
Proof.
  split.
  - intros H. split.
    + now apply resolve_value_reference.
    + intros context' Hsame. rewrite !resolve_value_reference by assumption.
      now rewrite Hsame.
  - apply resolve_value_template.
Qed.

Lemma direct_reference_takes_precedence_witness :
  resolve_value
    {| endpoint := "/greet"; method := None; description := None;
       required_skills := None; parameters := None; flow := [] |}
    [("user", VDict [("name", VStr "Ann")]); ("who {$user.name}", VInt 7)]
    (VStr "$who {$user.name}")
  = Ok (Bound (VInt 7)).
Proof.
  refine (eq_trans (proj1 (proj1 (direct_reference_takes_precedence _ _ _) _)) _);
    reflexivity.
Defined.

(** ** The interpreter's steps *)

Lemma run_step_unfold (recipe_name : string) (r : recipe) (i : nat) (st : step)
    (context : Dict.t value) (w : world) :
  run_step recipe_name r i st context w
  = match Dict.get (skill_name st) (skills (mgr w)) with
    | None => (w, Raise (KeyError (VStr (skill_name st))))
    | Some sk =>
        match step_input r sk context st with
        | Raise e => (w, Raise e)
        | Ok kw =>
            ({| mgr := annotated recipe_name i sk (mgr w);
                calls := (calls w ++ [{| callee := skill_name st; kwargs := kw |}])%list |},
             y <- run sk kw ;; Ok (Dict.set (output st) y context))
        end
    end.
Proof.
  unfold run_step, bindM, get_skill, lift, annotate_step, invoke, retM, annotated.
  destruct (Dict.get (skill_name st) (skills (mgr w))) as [sk|]; auto.
  destruct (step_input r sk context st) as [kw|e]; auto.
  destruct (run_return sk); simpl; destruct (run sk kw); reflexivity.
Qed.

Lemma run_flow_app (recipe_name : string) (r : recipe) (pre post : list step) :
  forall (i : nat) (context : Dict.t value) (w : world),
    run_flow recipe_name r i (pre ++ post) context w
    = match run_flow recipe_name r i pre context w with
      | (w1, Ok context1) => run_flow recipe_name r (i + List.length pre) post context1 w1
      | (w1, Raise e) => (w1, Raise e)
      end.
Proof.
  induction pre as [|st pre IH]; intros i context w; simpl.
  - unfold retM. now rewrite Nat.add_0_r.
  - unfold bindM.
    destruct (run_step recipe_name r i st context w) as [w1 [context1|e]]; auto.
    rewrite IH. now rewrite Nat.add_succ_r.
Qed.

Lemma set_output_type_skills (recipe_name : string) (i : nat) (t : string) (m : manager) :
  skills (set_output_type recipe_name i t m) = skills m.
Proof. unfold set_output_type. now destruct (Dict.get recipe_name (recipes m)). Qed.

Lemma annotated_skills (recipe_name : string) (i : nat) (sk : skill) (m : manager) :
  skills (annotated recipe_name i sk m) = skills m.
Proof. unfold annotated. destruct (run_return sk); auto using set_output_type_skills. Qed.

Lemma run_step_skills (recipe_name : string) (r : recipe) (i : nat) (st : step)
    (context : Dict.t value) (w : world) :
  skills (mgr (fst (run_step recipe_name r i st context w))) = skills (mgr w).
Proof.
  rewrite run_step_unfold.
  destruct (Dict.get (skill_name st) (skills (mgr w))) as [sk|]; auto.
  destruct (step_input r sk context st); simpl; auto using annotated_skills.
Qed.

Lemma run_flow_skills (recipe_name : string) (r : recipe) (steps : list step) :
  forall (i : nat) (context : Dict.t value) (w : world),
    skills (mgr (fst (run_flow recipe_name r i steps context w))) = skills (mgr w).
Proof.
  induction steps as [|st steps IH]; intros i context w; simpl; auto.
  unfold bindM.
  pose proof (run_step_skills recipe_name r i st context w) as Hst.
  destruct (run_step recipe_name r i st context w) as [w1 [context1|e]]; simpl in *; auto.
  now rewrite IH.
Qed.

(** A flow that completes has invoked the skill of each of its steps, in
    order, and nothing else. *)
Lemma run_flow_calls (recipe_name : string) (r : recipe) (steps : list step) :
  forall (i : nat) (context context' : Dict.t value) (w w' : world),
    run_flow recipe_name r i steps context w = (w', Ok context') ->
    exists cs, calls w' = (calls w ++ cs)%list /\ map callee cs = map skill_name steps.
Proof.
  induction steps as [|st steps IH]; intros i context context' w w'; simpl.
  - unfold retM. intros [= <- _]. exists []. now rewrite app_nil_r.
  - unfold bindM. rewrite run_step_unfold.
    destruct (Dict.get (skill_name st) (skills (mgr w))) as [sk|]; [|discriminate].
    destruct (step_input r sk context st) as [kw|e]; [|discriminate].
    destruct (run sk kw) as [y|e]; simpl; [|discriminate].
    intros H. apply IH in H. destruct H as [cs [Hcalls Hnames]]. simpl in Hcalls.
    exists ({| callee := skill_name st; kwargs := kw |} :: cs). split.
    + now rewrite Hcalls, <- app_assoc.
    + simpl. now rewrite Hnames.
Qed.

Lemma last_some_snoc {A} (l : list A) (x : A) :
  List.last (map Some (l ++ [x])) None = Some x.
Proof. rewrite map_app. simpl. apply last_last. Qed.

Lemma final_output_ok (r : recipe) (context : Dict.t value) (v : value) :
  final_output r context = Ok v ->
  exists prefix st, flow r = (prefix ++ [st])%list /\ Dict.get (output st) context = Some v.
Proof.
  unfold final_output. destruct (flow r) as [|s0 l] using rev_ind.
  - discriminate.
  - rewrite last_some_snoc.
    destruct (Dict.get (output s0) context) as [x|] eqn:E; [|discriminate].
    intros [= <-]. now exists l, s0.
Qed.

Lemma build_input_app (r : recipe) (context : Dict.t value)
    (es1 es2 : list (string * value)) :
  forall acc,
    build_input r context (es1 ++ es2) acc
    = (acc1 <- build_input r context es1 acc ;; build_input r context es2 acc1).
Proof.
  induction es1 as [|[k v] es1 IH]; intros acc; simpl; auto.
  destruct (resolve_value r context v); simpl; auto.
Qed.

Lemma build_input_keys (r : recipe) (context : Dict.t value)
    (es : list (string * value)) (k : string) :
  forall acc res,
    build_input r context es acc = Ok res ->
    In k (Dict.keys res) -> In k (Dict.keys acc) \/ In k (Dict.keys es).
Proof.
  induction es as [|[k0 v0] es IH]; intros acc res; simpl.
  - intros [= <-]. auto.
  - destruct (resolve_value r context v0) as [[y|]|e]; simpl; [| |discriminate].
    + intros H Hin. destruct (IH _ _ H Hin) as [H1 | H1]; auto.
      apply keys_set_incl in H1. destruct H1; auto.
    + intros H Hin. destruct (IH _ _ H Hin); auto.
Qed.

Lemma execute_recipe_aborts (recipe_name : string) (params : Dict.t value)
    (r : recipe) (pre post : list step) (st : step) (sk : skill)
    (context : Dict.t value) (w w1 : world) (e : exn) :
  Dict.get recipe_name (recipes (mgr w)) = Some r ->
  flow r = (pre ++ st :: post)%list ->
  run_flow recipe_name r 0 pre (seed_context r params) w = (w1, Ok context) ->
  Dict.get (skill_name st) (skills (mgr w)) = Some sk ->
  step_input r sk context st = Raise e ->
  execute_recipe recipe_name params w = (w1, Raise e).
Proof.
  intros Hr Hflow Hpre Hsk Hin.
  unfold execute_recipe, bindM, get_recipe. rewrite Hr, Hflow, run_flow_app, Hpre.
  simpl. unfold bindM. rewrite run_step_unfold.
  pose proof (run_flow_skills recipe_name r pre 0 (seed_context r params) w) as Hsame.
  rewrite Hpre in Hsame. simpl in Hsame. rewrite Hsame, Hsk, Hin. reflexivity.
Qed.

(** The test of the interpreter for an optional variable is the
    declaration, as the design document words it. *)
Lemma param_is_optional_declared (r : recipe) (var_name : string) :
  param_is_optional r var_name = true <-> declared_optional r var_name.
Proof.
  unfold param_is_optional, declared_optional. split.
  - destruct (parameters r) as [ps|]; [|discriminate].
    intros H. apply existsb_exists in H. destruct H as [p [Hin H]].
    apply andb_true_iff in H. destruct H as [Hname Hopt].
    apply String.eqb_eq in Hname.
    destruct (optional p) as [o|] eqn:Ho; [|discriminate].
    exists ps, p, o. auto.
  - intros (ps & p & o & -> & Hin & Hname & Ho & Ht).
    apply existsb_exists. exists p. split; auto.
    rewrite Ho. cbn [from_option]. rewrite Ht, andb_true_r.
    now apply String.eqb_eq.
Qed.

(** C2.  An entry of an input mapping whose string value begins with [$]
    is a direct reference to the variable named by the value without its
    [$] signs.  When the context binds the variable, the entry's key gets
    that very value, whatever its type.  When it does not and the
    parameter list declares the variable optional, the entry contributes
    nothing: the input is built as if the entry were not there, and its
    key is absent from it.  When it does not and the variable is not
    declared optional, building the input raises the error whose message
    is [Required variable '<name>' not found in recipe context]; the
    execution of the recipe then ends with that error in place of a
    result, the skills invoked being those of the earlier steps and no
    other. *)
Theorem direct_reference_resolution
    (r : recipe) (context : Dict.t value) (k v : string)
    (es1 es2 : list (string * value)) (acc : Dict.t value) :
  Str.startswith "$" v = true ->
  build_input r context es1 Dict.empty = Ok acc ->
  let var_name := Str.strip "$" v in
  let entries := (es1 ++ (k, VStr v) :: es2)%list in
  let required_variable_missing :=
    KeyError (VStr ("Required variable '" ++ var_name
                    ++ "' not found in recipe context")) in
  (forall x, Dict.get var_name context = Some x ->
     build_input r context entries Dict.empty
     = build_input r context es2 (Dict.set k x acc))
  /\ (Dict.get var_name context = None ->
      declared_optional r var_name ->
      build_input r context entries Dict.empty = build_input r context es2 acc
      /\ (forall res, build_input r context entries Dict.empty = Ok res ->
            ~ In k (Dict.keys (es1 ++ es2)%list) -> Dict.get k res = None))
  /\ (Dict.get var_name context = None ->
      ~ declared_optional r var_name ->
      build_input r context entries Dict.empty = Raise required_variable_missing
      /\ (forall recipe_name params w w1 pre st post,
            Dict.get recipe_name (recipes (mgr w)) = Some r ->
            flow r = (pre ++ st :: post)%list ->
            input st = VDict entries ->
            Dict.mem (skill_name st) (skills (mgr w)) = true ->
            run_flow recipe_name r 0 pre (seed_context r params) w = (w1, Ok context) ->
            execute_recipe recipe_name params w
            = (w1, Raise required_variable_missing)
            /\ exists cs, calls w1 = (calls w ++ cs)%list
                          /\ map callee cs = map skill_name pre)).
Proof.
  intros Hdollar Hacc var_name entries required_variable_missing.
  assert (Hbuild : build_input r context entries Dict.empty
                   = (x <- resolve_value r context (VStr v) ;;
                      build_input r context es2
                        (match x with
                         | Bound y => Dict.set k y acc
                         | Skipped => acc
                         end))).
  { unfold entries. rewrite build_input_app, Hacc. reflexivity. }
  rewrite resolve_value_reference in Hbuild by assumption. fold var_name in Hbuild.
  split; [|split].
  - intros x Hctx. now rewrite Hctx in Hbuild.
  - intros Hctx Hopt. apply param_is_optional_declared in Hopt.
    rewrite Hctx, Hopt in Hbuild. simpl in Hbuild.
    split; [exact Hbuild|].
    intros res Hres Hfresh. rewrite Hbuild in Hres.
    apply get_None_keys. intros Hin.
    destruct (build_input_keys _ _ _ _ _ _ Hres Hin) as [H | H].
    + destruct (build_input_keys _ _ _ _ _ _ Hacc H) as [[] | H1].
      apply Hfresh. unfold Dict.keys in *. rewrite map_app. apply in_or_app. now left.
    + apply Hfresh. unfold Dict.keys in *. rewrite map_app. apply in_or_app. now right.
  - intros Hctx Hopt.
    assert (Hreq : param_is_optional r var_name = false).
    { destruct (param_is_optional r var_name) eqn:E; auto.
      destruct Hopt. now apply param_is_optional_declared. }
    rewrite Hctx, Hreq in Hbuild.
    change (missing_variable var_name) with required_variable_missing in Hbuild.
    simpl in Hbuild.
    split; [exact Hbuild|].
    intros recipe_name params w w1 pre st post Hr Hflow Hinput Hmem Hpre. split.
    + unfold Dict.mem in Hmem.
      destruct (Dict.get (skill_name st) (skills (mgr w))) as [sk|] eqn:Hsk;
        [|discriminate].
      change required_variable_missing with (missing_variable var_name).
      eapply execute_recipe_aborts; eauto.
      unfold step_input. now rewrite Hinput.
    + eapply run_flow_calls. exact Hpre.
Qed.

Lemma direct_reference_resolution_witness :
  build_input Example.summarize [("html", VInt 7)] [("text", VStr "$html")] Dict.empty
  = Ok [("text", VInt 7)]
  /\ build_input Example.summarize [] [("style", VStr "$style")] Dict.empty = Ok []
  /\ execute_recipe "/summarize" [] Example.world0
     = (Example.world0,
        Raise (KeyError (VStr "Required variable 'html' not found in recipe context"))).
Proof.
  split; [|split].
  - exact (proj1 (direct_reference_resolution Example.summarize [("html", VInt 7)]
                    "text" "$html" [] [] [] eq_refl eq_refl)
             (VInt 7) eq_refl).
  - refine (proj1 (proj1 (proj2 (direct_reference_resolution Example.summarize []
                                   "style" "$style" [] [] [] eq_refl eq_refl))
                     eq_refl _)).
    exists [{| name := "html"; aliases := Some ["page"; "content"];
               optional := None; param_doc := [] |};
            {| name := "style"; aliases := None;
               optional := Some (VBool true); param_doc := [] |}],
           {| name := "style"; aliases := None;
              optional := Some (VBool true); param_doc := [] |},
           (VBool true).
    repeat split. simpl. tauto.
  - destruct (proj2 (proj2 (direct_reference_resolution Example.summarize []
                              "text" "$html" [] [] [] eq_refl eq_refl))
                eq_refl) as [_ H].
    + intros (ps & p & o & Hps & Hin & Hname & Ho & Ht).
      injection Hps as <-.
      destruct Hin as [<- | [<- | []]]; discriminate.
    + apply (H "/summarize" [] Example.world0 Example.world0 []
               {| skill_name := "HtmlTextParser";
                  input := VDict [("text", VStr "$html")];
                  output := "parsed"; output_type := None |}
               [{| skill_name := "TextCompletion";
                   input := VDict [("prompt", VStr "Summarize: {$parsed.text}");
                                   ("style", VStr "$style")];
                   output := "summary"; output_type := None |}]);
        reflexivity.
Defined.

Lemma run_step_ok (recipe_name : string) (r : recipe) (i : nat) (st : step)
    (context context' : Dict.t value) (w w' : world) :
  run_step recipe_name r i st context w = (w', Ok context') ->
  exists sk kw y,
    Dict.get (skill_name st) (skills (mgr w)) = Some sk
    /\ step_input r sk context st = Ok kw
    /\ run sk kw = Ok y
    /\ context' = Dict.set (output st) y context
    /\ w' = {| mgr := annotated recipe_name i sk (mgr w);
               calls := (calls w ++ [{| callee := skill_name st; kwargs := kw |}])%list |}.
Proof.
  rewrite run_step_unfold.
  destruct (Dict.get (skill_name st) (skills (mgr w))) as [sk|] eqn:Hsk; [|discriminate].
  destruct (step_input r sk context st) as [kw|e] eqn:Hin; [|discriminate].
  destruct (run sk kw) as [y|e] eqn:Hrun; simpl; [|discriminate].
  intros [= <- <-]. now exists sk, kw, y.
Qed.

Lemma run_flow_snoc_ok (recipe_name : string) (r : recipe) (prefix : list step)
    (st : step) (context context' : Dict.t value) (w w' : world) :
  run_flow recipe_name r 0 (prefix ++ [st]) context w = (w', Ok context') ->
  exists w1 context1,
    run_flow recipe_name r 0 prefix context w = (w1, Ok context1)
    /\ run_step recipe_name r (List.length prefix) st context1 w1 = (w', Ok context').
Proof.
  rewrite run_flow_app.
  destruct (run_flow recipe_name r 0 prefix context w) as [w1 [context1|e]] eqn:Hpre;
    [|discriminate].
  simpl. unfold bindM, retM.
  destruct (run_step recipe_name r (List.length prefix) st context1 w1)
    as [w2 [context2|e]] eqn:Hlast; [|discriminate].
  intros [= <- <-]. exists w1, context1. split; [reflexivity | exact Hlast].
Qed.

(** C5.  When the execution of a recipe returns a value, the flow is not
    empty and the value is the one the context holds under the output key
    of the last step, which is what the skill of the last step returned.
    In a flow of two steps where the first writes ["a"] and the second
    takes [$a] and writes ["b"], the value returned is the result of the
    second skill applied to the result of the first. *)
Theorem result_is_last_step_output
    (recipe_name : string) (params : Dict.t value) (w w' : world) (v : value) :
  execute_recipe recipe_name params w = (w', Ok v) ->
  exists r context prefix st,
    Dict.get recipe_name (recipes (mgr w)) = Some r
    /\ flow r = (prefix ++ [st])%list
    /\ run_flow recipe_name r 0 (flow r) (seed_context r params) w = (w', Ok context)
    /\ Dict.get (output st) context = Some v
    /\ (exists sk kw cs,
           Dict.get (skill_name st) (skills (mgr w)) = Some sk
           /\ calls w' = (cs ++ [{| callee := skill_name st; kwargs := kw |}])%list
           /\ run sk kw = Ok v)
    /\ (forall s1 k,
           prefix = [s1] -> output s1 = "a" ->
           input st = VDict [(k, VStr "$a")] -> output st = "b" ->
           exists sk1 sk2 kw1 r1,
             Dict.get (skill_name s1) (skills (mgr w)) = Some sk1
             /\ Dict.get (skill_name st) (skills (mgr w)) = Some sk2
             /\ step_input r sk1 (seed_context r params) s1 = Ok kw1
             /\ run sk1 kw1 = Ok r1
             /\ run sk2 [(k, r1)] = Ok v).
Proof.
  unfold execute_recipe, bindM, get_recipe, lift.
  destruct (Dict.get recipe_name (recipes (mgr w))) as [r|] eqn:Hr; [|discriminate].
  destruct (run_flow recipe_name r 0 (flow r) (seed_context r params) w)
    as [w1 [context|e]] eqn:Hflow; [|discriminate].
  intros H. assert (w1 = w' /\ final_output r context = Ok v) as [-> Hfinal]
    by (split; congruence).
  clear H. destruct (final_output_ok _ _ _ Hfinal) as [prefix [st [Hsplit Hout]]].
  exists r, context, prefix, st.
  split; [reflexivity|]. repeat (split; [assumption|]).
  rewrite Hsplit in Hflow.
  destruct (run_flow_snoc_ok _ _ _ _ _ _ _ _ Hflow) as [w1 [context1 [Hpre Hlast]]].
  pose proof (run_flow_skills recipe_name r prefix 0 (seed_context r params) w) as Hsk1.
  rewrite Hpre in Hsk1. simpl in Hsk1.
  destruct (run_step_ok _ _ _ _ _ _ _ _ Hlast)
    as [sk [kw [y [Hsk [Hin [Hrun [Hctx Hw]]]]]]].
  rewrite Hsk1 in Hsk.
  assert (Hy : y = v).
  { rewrite Hctx, get_set_same in Hout. congruence. }
  subst y. split.
  - exists sk, kw, (calls w1). rewrite Hw. auto.
  - intros s1 k -> Ha Hinput Hb. simpl in Hpre. unfold bindM, retM in Hpre.
    destruct (run_step recipe_name r 0 s1 (seed_context r params) w)
      as [w2 [context2|e]] eqn:Hfirst; [|discriminate].
    assert (w2 = w1 /\ context2 = context1) as [-> ->] by (split; congruence).
    destruct (run_step_ok _ _ _ _ _ _ _ _ Hfirst)
      as [sk1 [kw1 [r1 [Hs1 [Hin1 [Hrun1 [Hctx1 _]]]]]]].
    exists sk1, sk, kw1, r1. repeat (split; [assumption|]).
    unfold step_input in Hin. rewrite Hinput in Hin. simpl in Hin.
    change (Str.strip "$" "$a") with "a" in Hin.
    rewrite Hctx1, Ha, get_set_same in Hin. simpl in Hin.
    congruence.
Qed.

Lemma result_is_last_step_output_witness :
  exists r context prefix st,
    Dict.get "/summarize" (recipes Example.manager0) = Some r
    /\ flow r = (prefix ++ [st])%list
    /\ Dict.get (output st) context = Some (VStr "no answer").
Proof.
  destruct (result_is_last_step_output "/summarize"
              [("page", VStr "<p>news</p>")] Example.world0
              (fst (execute_recipe "/summarize" [("page", VStr "<p>news</p>")] Example.world0))
              (VStr "no answer") eq_refl)
    as [r [context [prefix [st [H1 [H2 [_ [H3 _]]]]]]]].
  exists r, context, prefix, st. auto.
Defined.

(** C7, as the interpreter has it.  For a step whose input specification
    is not a mapping, the expression is neither read as a reference nor
    expanded as a template: it is taken once, as it stands, for a key of
    the context.  The value found under it is bound to the first
    parameter of the signature of the skill's [run] (the signature of the
    bound method, hence without the receiver), and the skill is invoked
    with the mapping that has this one entry; when the context has no
    such key the lookup raises, and the skill is not invoked. *)
Theorem single_expression_binds_first_parameter
    (recipe_name : string) (r : recipe) (i : nat) (st : step)
    (context : Dict.t value) (w : world)
    (sk : skill) (first : sig_param) (others : list sig_param) :
  Dict.get (skill_name st) (skills (mgr w)) = Some sk ->
  (forall entries, input st <> VDict entries) ->
  run_params sk = first :: others ->
  (forall s, input st = VStr s ->
     context_item context (input st)
     = match Dict.get s context with
       | Some x => Ok x
       | None => Raise (KeyError (VStr s))
       end)
  /\ (forall x, context_item context (input st) = Ok x ->
      step_input r sk context st = Ok [(sp_name first, x)]
      /\ run_step recipe_name r i st context w
         = ({| mgr := annotated recipe_name i sk (mgr w);
               calls := (calls w ++ [{| callee := skill_name st;
                                        kwargs := [(sp_name first, x)] |}])%list |},
            y <- run sk [(sp_name first, x)] ;; Ok (Dict.set (output st) y context)))
  /\ (forall e, context_item context (input st) = Raise e ->
      step_input r sk context st = Raise e
      /\ run_step recipe_name r i st context w = (w, Raise e)).
Proof.
  intros Hsk Hshape Hparams.
  assert (Hin : step_input r sk context st
                = (x <- context_item context (input st) ;; Ok [(sp_name first, x)])).
  { unfold step_input.
    assert (Hsingle : single_input sk context (input st)
                      = (x <- context_item context (input st) ;;
                         Ok [(sp_name first, x)])).
    { unfold single_input. rewrite Hparams.
      now destruct (String.eqb (sp_name first) "self"). }
    destruct (input st) as [| | | | |l|d]; try exact Hsingle.
    now destruct (Hshape d). }
  split; [|split].
  - intros s ->. reflexivity.
  - intros x Hitem. rewrite Hitem in Hin. split; [exact Hin|].
    now rewrite run_step_unfold, Hsk, Hin.
  - intros e Hitem. rewrite Hitem in Hin. split; [exact Hin|].
    now rewrite run_step_unfold, Hsk, Hin.
Qed.

Lemma single_expression_binds_first_parameter_witness :
  step_input Example.summarize Example.html_text_parser
    [("html", VStr "<p>news</p>")]
    {| skill_name := "HtmlTextParser"; input := VStr "html";
       output := "parsed"; output_type := None |}
  = Ok [("text", VStr "<p>news</p>")].
Proof.
  refine (proj1 (proj1 (proj2 (single_expression_binds_first_parameter
                   "/summarize" Example.summarize 0
                   {| skill_name := "HtmlTextParser"; input := VStr "html";
                      output := "parsed"; output_type := None |}
                   [("html", VStr "<p>news</p>")] Example.world0
                   Example.html_text_parser
                   {| sp_name := "text"; sp_hint := None; sp_default := None |} []
                   eq_refl _ eq_refl)) (VStr "<p>news</p>") eq_refl)).
  intros entries; discriminate.
Defined.

(** C7, as stated, fails: a single expression is not resolved.  With
    [html] bound in the context, the step whose input is the reference
    [$html] raises the lookup error of the key ["$html"], and so does the
    one whose input is the template [{$html}] with its own text, where
    the same reference inside a mapping gives the value. *)
Lemma single_expression_is_not_resolved :
  step_input Example.summarize Example.html_text_parser
    [("html", VStr "<p>news</p>")]
    {| skill_name := "HtmlTextParser"; input := VStr "$html";
       output := "parsed"; output_type := None |}
  = Raise (KeyError (VStr "$html"))
  /\ step_input Example.summarize Example.html_text_parser
       [("html", VStr "<p>news</p>")]
       {| skill_name := "HtmlTextParser"; input := VStr "{$html}";
          output := "parsed"; output_type := None |}
     = Raise (KeyError (VStr "{$html}"))
  /\ step_input Example.summarize Example.html_text_parser
       [("html", VStr "<p>news</p>")]
       {| skill_name := "HtmlTextParser"; input := VDict [("text", VStr "$html")];
          output := "parsed"; output_type := None |}
     = Ok [("text", VStr "<p>news</p>")]
  /\ snd (execute_recipe "/page"
            [("html", VStr "<p>news</p>")]
            {| mgr := {| skills := Example.registry;
                         recipes := [("/page", Example.page)];
                         routes := []; error_log := [] |};
               calls := [] |})
     = Raise (KeyError (VStr "$html")).
Proof. repeat split. Qed.

Lemma alias_value_overrides_declared_name_witness :
  Dict.get "html"
    (seed_context Example.summarize
       [("html", VStr "by name"); ("content", VStr "by alias")])
  = Some (VStr "by alias").
Proof.
  refine (proj1 (alias_value_overrides_declared_name
                   Example.summarize
                   [("html", VStr "by name"); ("content", VStr "by alias")]
                   []
                   [{| name := "style"; aliases := None;
                       optional := Some (VBool true); param_doc := [] |}]
                   {| name := "html"; aliases := Some ["page"; "content"];
                      optional := None; param_doc := [] |}
                   ["page"] [] "content" (VStr "by name") (VStr "by alias")
                   eq_refl _ eq_refl eq_refl eq_refl _)).
  - repeat constructor. simpl. discriminate.
  - constructor.
Defined.

(** C9, as stated, fails for a name declared twice: the second
    declaration, which has no alias, assigns the value supplied under the
    name again, after the alias of the first has been seen. *)
Lemma later_declaration_restores_named_value :
  Dict.get "a" [("a", VInt 1); ("x", VInt 2)] = Some (VInt 1)
  /\ Dict.get "x" [("a", VInt 1); ("x", VInt 2)] = Some (VInt 2)
  /\ parameters Example.twice_declared
     = Some [{| name := "a"; aliases := Some ["x"]; optional := None;
                param_doc := [] |};
             {| name := "a"; aliases := None; optional := None;
                param_doc := [] |}]
  /\ Dict.get "a" (seed_context Example.twice_declared [("a", VInt 1); ("x", VInt 2)])
     = Some (VInt 1)
  /\ VInt 1 <> VInt 2.
Proof. repeat split. discriminate. Qed.

Lemma verbatim_copy_only_without_parameters_key_witness :
  seed_context
    {| endpoint := "/noop"; method := None; description := None;
       required_skills := None; parameters := Some []; flow := [] |}
    [("q", VStr "rust")]
  = Dict.empty.
Proof.
  apply (proj1 (proj2 (verbatim_copy_only_without_parameters_key _ _))).
  reflexivity.
Defined.

(** ** What an execution writes *)

Lemma forget_update_nth (i : nat) (t : option string) (l : list step) :
  map (with_output_type None) (update_nth i (with_output_type t) l)
  = map (with_output_type None) l.
Proof.
  revert i. induction l as [|s l IH]; intros [|i]; simpl; auto.
  now rewrite IH.
Qed.

Lemma map_values_set_same {V W} (f : V -> W) (k : string) (v v0 : V) (d : Dict.t V) :
  Dict.get k d = Some v0 -> f v = f v0 ->
  Dict.map_values f (Dict.set k v d) = Dict.map_values f d.
Proof.
  intros Hget Hf. induction d as [|[k' v'] d IH]; simpl in *; [discriminate|].
  destruct (String.eqb k k') eqn:E; simpl.
  - injection Hget as ->. now rewrite Hf.
  - now rewrite IH.
Qed.

Lemma keys_map_values {V W} (f : V -> W) (d : Dict.t V) :
  Dict.keys (Dict.map_values f d) = Dict.keys d.
Proof.
  unfold Dict.keys, Dict.map_values. rewrite map_map. now apply map_ext.
Qed.

Lemma set_output_type_forget (recipe_name : string) (i : nat) (t : string) (m : manager) :
  Dict.map_values forget_types (recipes (set_output_type recipe_name i t m))
  = Dict.map_values forget_types (recipes m).
Proof.
  unfold set_output_type.
  destruct (Dict.get recipe_name (recipes m)) as [r|] eqn:Hr; auto.
  simpl. apply map_values_set_same with (v0 := r); auto.
  unfold forget_types, with_flow. simpl. now rewrite forget_update_nth.
Qed.

Lemma set_output_type_others (recipe_name e : string) (i : nat) (t : string) (m : manager) :
  e <> recipe_name ->
  Dict.get e (recipes (set_output_type recipe_name i t m)) = Dict.get e (recipes m).
Proof.
  intros Hne. unfold set_output_type.
  destruct (Dict.get recipe_name (recipes m)); auto.
  simpl. now apply get_set_other.
Qed.

Lemma same_but_types_refl (recipe_name : string) (m : manager) :
  same_but_types recipe_name m m.
Proof. repeat split. Qed.

Lemma same_but_types_trans (recipe_name : string) (m1 m2 m3 : manager) :
  same_but_types recipe_name m1 m2 -> same_but_types recipe_name m2 m3 ->
  same_but_types recipe_name m1 m3.
Proof.
  intros (A1 & A2 & A3 & A4 & A5) (B1 & B2 & B3 & B4 & B5).
  repeat split; try congruence.
  intros e He. now rewrite B5, A5.
Qed.

Lemma annotated_same (recipe_name : string) (i : nat) (sk : skill) (m : manager) :
  same_but_types recipe_name m (annotated recipe_name i sk m).
Proof.
  unfold annotated. destruct (run_return sk) as [t|]; [|apply same_but_types_refl].
  repeat split.
  - apply set_output_type_skills.
  - unfold set_output_type. now destruct (Dict.get recipe_name (recipes m)).
  - unfold set_output_type. now destruct (Dict.get recipe_name (recipes m)).
  - apply set_output_type_forget.
  - intros e He. now apply set_output_type_others.
Qed.

Lemma run_step_same (recipe_name : string) (r : recipe) (i : nat) (st : step)
    (context : Dict.t value) (w : world) :
  same_but_types recipe_name (mgr w)
    (mgr (fst (run_step recipe_name r i st context w))).
Proof.
  rewrite run_step_unfold.
  destruct (Dict.get (skill_name st) (skills (mgr w))) as [sk|];
    [|apply same_but_types_refl].
  destruct (step_input r sk context st); simpl;
    [apply annotated_same | apply same_but_types_refl].
Qed.

Lemma run_flow_same (recipe_name : string) (r : recipe) (steps : list step) :
  forall (i : nat) (context : Dict.t value) (w : world),
    same_but_types recipe_name (mgr w)
      (mgr (fst (run_flow recipe_name r i steps context w))).
Proof.
  induction steps as [|st steps IH]; intros i context w; simpl.
  - apply same_but_types_refl.
  - unfold bindM.
    pose proof (run_step_same recipe_name r i st context w) as Hst.
    destruct (run_step recipe_name r i st context w) as [w1 [context1|e]];
      simpl in *; auto.
    eapply same_but_types_trans; [exact Hst | apply IH].
Qed.

Lemma execute_recipe_same (recipe_name : string) (params : Dict.t value) (w : world) :
  same_but_types recipe_name (mgr w)
    (mgr (fst (execute_recipe recipe_name params w))).
Proof.
  unfold execute_recipe, bindM, get_recipe, lift.
  destruct (Dict.get recipe_name (recipes (mgr w))) as [r|];
    [|apply same_but_types_refl].
  pose proof (run_flow_same recipe_name r (flow r) 0 (seed_context r params) w) as H.
  destruct (run_flow recipe_name r 0 (flow r) (seed_context r params) w)
    as [w1 [context|e]]; exact H.
Qed.

(** C1, as the interpreter has it.  An execution leaves the skills table,
    the routes and the set of stored recipes as they are; the one thing it
    writes is the ["output_type"] entry of steps of the recipe it runs.
    So, over any series of executions, the skills table and the skills
    part of the capabilities are unchanged, the recipes are the same but
    for those entries (and so is the description of the capabilities,
    once these entries are left out), and a recipe that is not run is
    untouched. *)
Theorem execution_writes_only_output_types
    (invocations : list (string * Dict.t value)) (w : world) :
  let m := mgr w in
  let m' := mgr (execute_all invocations w) in
  skills m' = skills m
  /\ routes m' = routes m
  /\ Dict.keys (recipes m') = Dict.keys (recipes m)
  /\ Dict.map_values forget_types (recipes m') = Dict.map_values forget_types (recipes m)
  /\ skills_capabilities (skills m') = skills_capabilities (skills m)
  /\ (forall e, ~ In e (map fst invocations) ->
        Dict.get e (recipes m') = Dict.get e (recipes m))
  /\ get_capabilities (without_types m') = get_capabilities (without_types m).
Proof.
  cbv zeta.
  cut (skills (mgr (execute_all invocations w)) = skills (mgr w)
       /\ routes (mgr (execute_all invocations w)) = routes (mgr w)
       /\ Dict.keys (recipes (mgr (execute_all invocations w))) = Dict.keys (recipes (mgr w))
       /\ Dict.map_values forget_types (recipes (mgr (execute_all invocations w)))
          = Dict.map_values forget_types (recipes (mgr w))
       /\ skills_capabilities (skills (mgr (execute_all invocations w)))
          = skills_capabilities (skills (mgr w))
       /\ (forall e, ~ In e (map fst invocations) ->
             Dict.get e (recipes (mgr (execute_all invocations w)))
             = Dict.get e (recipes (mgr w)))).
  { intros (H1 & H2 & H3 & H4 & H5 & H6). repeat (split; [assumption|]).
    unfold get_capabilities, without_types. simpl. now rewrite H1, H4. }
  unfold execute_all. revert w.
  induction invocations as [|[recipe_name params] invs IH]; intros w; simpl.
  - repeat split.
  - destruct (execute_recipe_same recipe_name params w) as (A1 & A2 & _ & A4 & A5).
    destruct (IH (fst (execute_recipe recipe_name params w)))
      as (B1 & B2 & B3 & B4 & B5 & B6).
    assert (Hsk : skills (mgr (fold_left
                      (fun w0 inv => fst (execute_recipe (fst inv) (snd inv) w0))
                      invs (fst (execute_recipe recipe_name params w))))
                  = skills (mgr w)) by congruence.
    split; [exact Hsk|]. split; [congruence|]. split.
    + rewrite B3. rewrite <- (keys_map_values forget_types), A4.
      apply keys_map_values.
    + split; [congruence|]. split; [now rewrite Hsk|].
      intros e He. rewrite B6 by tauto. apply A5. intros ->. tauto.
Qed.

(** C1, as stated, fails: running [/summarize] once adds ["output_type"]
    to the step of the stored recipe whose skill declares a return type,
    and the capabilities returned afterwards are not the ones returned
    before. *)
Lemma execution_changes_stored_recipe :
  let w' := fst (execute_recipe "/summarize" [("html", VStr "<p>news</p>")]
                   Example.world0) in
  recipes (mgr w') <> recipes Example.manager0
  /\ get_capabilities (mgr w') <> get_capabilities Example.manager0.
Proof.
  cbv zeta. split.
  - vm_compute. discriminate.
  - vm_compute. discriminate.
Qed.

Lemma execution_writes_only_output_types_witness :
  skills (mgr (execute_all [("/summarize", [("html", VStr "<p>news</p>")])]
                 Example.world0))
  = Example.registry.
Proof.
  exact (proj1 (execution_writes_only_output_types
                  [("/summarize", [("html", VStr "<p>news</p>")])] Example.world0)).
Defined.

(** ** The skills registry *)

Lemma load_skill_outcome (m : manager) (p : plugin) :
  fmap skills (load_skill m p)
  = match escapes p with
    | Some e => Raise e
    | None => Ok (register (skills m) p)
    end.
Proof.
  unfold load_skill, escapes, register, registration.
  destruct (String.prefix "__" (stem p)); auto.
  destruct (instantiate p) as [inst|e]; auto.
  destruct (caught_by_loader e); auto.
Qed.

(** The registry a load ends with, and whether it ends, are those of
    [registry_after]. *)
Lemma load_skills_registry (files : list plugin) :
  forall m, fmap skills (load_skills files m) = registry_after files (skills m).
Proof.
  induction files as [|p files IH]; intros m; simpl; auto.
  pose proof (load_skill_outcome m p) as H.
  destruct (load_skill m p) as [m1|e]; simpl in *.
  - destruct (escapes p); [discriminate|].
    injection H as H. rewrite <- H. apply IH.
  - destruct (escapes p); [|discriminate]. now injection H as ->.
Qed.

Lemma registry_after_app (l1 l2 : list plugin) :
  forall sks,
    registry_after (l1 ++ l2) sks
    = (sks1 <- registry_after l1 sks ;; registry_after l2 sks1).
Proof.
  induction l1 as [|p l1 IH]; intros sks; simpl; auto.
  destruct (escapes p); auto.
Qed.

Lemma registry_after_quiet (files : list plugin) :
  Forall (fun q => escapes q = None) files ->
  forall sks, registry_after files sks = Ok (fold_left register files sks).
Proof.
  induction 1 as [|q files Hq _ IH]; intros sks; simpl; auto.
  now rewrite Hq, IH.
Qed.

Lemma registry_after_ok (files : list plugin) :
  forall sks sks', registry_after files sks = Ok sks' ->
                   Forall (fun q => escapes q = None) files
                   /\ sks' = fold_left register files sks.
Proof.
  induction files as [|q files IH]; intros sks sks'; simpl.
  - intros [= <-]. auto.
  - destruct (escapes q) eqn:Hq; [discriminate|].
    intros H. apply IH in H. destruct H as [Hall ->]. auto.
Qed.

Lemma load_skills_quiet (files : list plugin) (m : manager) :
  Forall (fun q => escapes q = None) files ->
  exists m', load_skills files m = Ok m'
             /\ skills m' = fold_left register files (skills m).
Proof.
  intros Hquiet.
  pose proof (load_skills_registry files m) as H.
  rewrite (registry_after_quiet files Hquiet) in H.
  destruct (load_skills files m) as [m'|e]; [|discriminate].
  exists m'. split; auto. now injection H.
Qed.

Lemma load_skills_ok (files : list plugin) (m m' : manager) :
  load_skills files m = Ok m' ->
  Forall (fun q => escapes q = None) files
  /\ skills m' = fold_left register files (skills m).
Proof.
  intros Hload. pose proof (load_skills_registry files m) as H.
  rewrite Hload in H. simpl in H. symmetry in H.
  now apply registry_after_ok in H.
Qed.

Lemma register_keys_unique (files : list plugin) :
  forall sks, NoDup (Dict.keys sks) ->
              NoDup (Dict.keys (fold_left register files sks)).
Proof.
  induction files as [|p files IH]; intros sks Hnd; simpl; auto.
  apply IH. unfold register.
  destruct (registration p) as [[c inst]|]; auto using keys_set_NoDup.
Qed.

Lemma register_keeps (files : list plugin) (c : string) :
  Forall (fun q => forall inst, registration q <> Some (c, inst)) files ->
  forall sks, Dict.get c (fold_left register files sks) = Dict.get c sks.
Proof.
  induction 1 as [|q files Hq _ IH]; intros sks; simpl; auto.
  rewrite IH. unfold register.
  destruct (registration q) as [[c' inst']|]; auto.
  apply get_set_other. intros ->. now apply (Hq inst').
Qed.

(** C6, as the loader has it.  The identifiers of the registry are
    unique, and a load assigns its instance to its identifier whether or
    not an earlier load registered one: of the loads that derive the same
    identifier, the last one that succeeds is the one the registry
    holds.  This is so of every registry that the loader returns; and the
    loader returns one when no file raises an exception that it does not
    catch. *)
Theorem last_registration_wins
    (before after : list plugin) (p : plugin) (c : string) (inst : skill)
    (m : manager) :
  NoDup (Dict.keys (skills m)) ->
  registration p = Some (c, inst) ->
  Forall (fun q => forall inst', registration q <> Some (c, inst')) after ->
  (forall m',
      load_skills (before ++ p :: after) m = Ok m' ->
      NoDup (Dict.keys (skills m'))
      /\ Dict.get c (skills m') = Some inst)
  /\ (Forall (fun q => escapes q = None) (before ++ p :: after) ->
      exists m', load_skills (before ++ p :: after) m = Ok m').
Proof.
  intros Hm Hp Hafter. split.
  - intros m' Hload. apply load_skills_ok in Hload. destruct Hload as [_ Hsk].
    rewrite Hsk. split.
    + now apply register_keys_unique.
    + rewrite fold_left_app. simpl.
      rewrite register_keeps by assumption.
      unfold register at 1. rewrite Hp. apply get_set_same.
  - intros Hquiet.
    destruct (load_skills_quiet _ m Hquiet) as (m' & Hload & _). now exists m'.
Qed.

Lemma last_registration_wins_witness :
  exists m',
    load_skills [Example.news_plugin; Example.news_plugin'] new_manager = Ok m'
    /\ NoDup (Dict.keys (skills m'))
    /\ Dict.get "NewsSearch" (skills m') = Some Example.second_news.
Proof.
  destruct (last_registration_wins [Example.news_plugin] []
              Example.news_plugin' "NewsSearch" Example.second_news new_manager)
    as [Hwins Hends]; [constructor | reflexivity | constructor |].
  destruct Hends as [m' Hload]; [repeat constructor|].
  exists m'. split; [exact Hload | exact (Hwins m' Hload)].
Defined.

(** C6, as stated, fails: two files whose stems derive the same
    identifier are loaded one after the other, and the registry ends up
    with the instance of the second. *)
Lemma later_load_overrides_earlier :
  class_name_of (stem Example.news_plugin) = class_name_of (stem Example.news_plugin')
  /\ fmap (fun m => Dict.get "NewsSearch" (skills m))
       (load_skills [Example.news_plugin] new_manager)
     = Ok (Some Example.first_news)
  /\ fmap (fun m => Dict.get "NewsSearch" (skills m))
       (load_skills [Example.news_plugin; Example.news_plugin'] new_manager)
     = Ok (Some Example.second_news)
  /\ Example.second_news <> Example.first_news.
Proof.
  repeat split. intros H. apply (f_equal class_doc) in H. discriminate.
Qed.

(** ** The recipe table *)

Lemma load_recipe_skills (compile : rule_compiler) (m : manager) (f : recipe_file) :
  skills (load_recipe compile m f) = skills m.
Proof.
  unfold load_recipe, register_route, app_route, log_error.
  destruct (safe_load f) as [r|e]; auto.
  destruct (missing_skills (skills m) r); auto. simpl.
  destruct (compile _); auto. simpl.
  destruct (existsb _ _); auto.
Qed.

Lemma load_recipe_recipes (compile : rule_compiler) (m : manager) (f : recipe_file) :
  recipes (load_recipe compile m f)
  = match accepted (skills m) f with
    | Some r => Dict.set (endpoint r) r (recipes m)
    | None => recipes m
    end.
Proof.
  unfold load_recipe, accepted, register_route, app_route, log_error.
  destruct (safe_load f) as [r|e]; auto.
  destruct (missing_skills (skills m) r); auto. simpl.
  destruct (compile _); auto. simpl.
  destruct (existsb _ _); auto.
Qed.

(** The rule of a stored recipe is added whenever it compiles, whether
    or not its view is then refused. *)
Lemma load_recipe_routes (compile : rule_compiler) (m : manager) (f : recipe_file) :
  routes (load_recipe compile m f)
  = match accepted (skills m) f with
    | Some r =>
        match compile (route_path (recipe_route r)) with
        | Ok _ => (routes m ++ [recipe_route r])%list
        | Raise _ => routes m
        end
    | None => routes m
    end.
Proof.
  unfold load_recipe, accepted, register_route, app_route, log_error.
  destruct (safe_load f) as [r|e]; auto.
  destruct (missing_skills (skills m) r); auto. simpl.
  destruct (compile _); auto. simpl.
  destruct (existsb _ _); auto.
Qed.




Lemma register_recipes_skills (compile : rule_compiler) (files : list recipe_file) :
  forall m, skills (register_recipes_endpoints compile files m) = skills m.
Proof.
  unfold register_recipes_endpoints.
  induction files as [|f files IH]; intros m; simpl; auto.
  now rewrite IH, load_recipe_skills.
Qed.


Lemma load_recipe_routes_grow (compile : rule_compiler) (m : manager)
    (f : recipe_file) (rt : route) :
  In rt (routes m) -> In rt (routes (load_recipe compile m f)).
Proof.
  rewrite load_recipe_routes.
  destruct (accepted (skills m) f) as [r|]; auto.
  destruct (compile _); auto using in_or_app.
Qed.

Lemma register_recipes_routes_grow (compile : rule_compiler)
    (files : list recipe_file) (rt : route) :
  forall m, In rt (routes m) ->
            In rt (routes (register_recipes_endpoints compile files m)).
Proof.
  unfold register_recipes_endpoints.
  induction files as [|f files IH]; intros m H; simpl; auto.
  apply IH. now apply load_recipe_routes_grow.
Qed.

Lemma missing_skills_nil (sks : Dict.t skill) (r : recipe) :
  missing_skills sks r = [] <-> skills_available sks r.
Proof.
  unfold missing_skills, skills_available.
  induction (from_option [] (required_skills r)) as [|s l IH]; simpl.
  - split; [intros _ s [] | reflexivity].
  - destruct (Dict.mem s sks) eqn:E; simpl.
    + rewrite IH. split.
      * intros H s' [<- | H']; auto.
      * intros H s' H'. auto.
    + split; [discriminate|]. intros H. specialize (H s (or_introl eq_refl)). congruence.
Qed.





Lemma has_rule_false (path : string) (m : manager) :
  has_rule path m = false <->
  forall rt, In rt (routes m) -> route_path rt <> path.
Proof.
  unfold has_rule. split.
  - intros H rt Hrt Hpath.
    assert (Hex : existsb (fun rt => String.eqb (route_path rt) path) (routes m) = true).
    { apply existsb_exists. exists rt. split; auto. now apply String.eqb_eq. }
    congruence.
  - intros H.
    destruct (existsb (fun rt => String.eqb (route_path rt) path) (routes m)) eqn:E; auto.
    apply existsb_exists in E. destruct E as (rt & Hrt & Heq).
    apply String.eqb_eq in Heq. now destruct (H rt Hrt).
Qed.

Lemma load_recipe_routes_origin (compile : rule_compiler) (m : manager)
    (f : recipe_file) (rt : route) :
  In rt (routes (load_recipe compile m f)) ->
  In rt (routes m)
  \/ exists r, rt = recipe_route r /\ compile (route_path rt) = Ok tt.
Proof.
  rewrite load_recipe_routes.
  destruct (accepted (skills m) f) as [r|]; auto.
  destruct (compile (route_path (recipe_route r))) as [[]|] eqn:Hc; auto.
  intros H. apply in_app_or in H. destruct H as [H | [<- | []]]; eauto.
Qed.

Lemma register_recipes_routes_origin (compile : rule_compiler)
    (files : list recipe_file) (rt : route) :
  forall m, In rt (routes (register_recipes_endpoints compile files m)) ->
            In rt (routes m)
            \/ exists r, rt = recipe_route r /\ compile (route_path rt) = Ok tt.
Proof.
  unfold register_recipes_endpoints.
  induction files as [|f files IH]; intros m H; simpl in *; auto.
  apply IH in H. destruct H as [H | H]; auto.
  now apply load_recipe_routes_origin in H.
Qed.






(** * Further properties of the manager *)

(** ** How an execution ends *)

Lemma execute_recipe_unfold (recipe_name : string) (params : Dict.t value) (w : world) :
  execute_recipe recipe_name params w
  = match Dict.get recipe_name (recipes (mgr w)) with
    | None => (w, Raise (KeyError (VStr recipe_name)))
    | Some r =>
        match run_flow recipe_name r 0 (flow r) (seed_context r params) w with
        | (w', Ok context) => (w', final_output r context)
        | (w', Raise e) => (w', Raise e)
        end
    end.
Proof.
  unfold execute_recipe, bindM, get_recipe, lift.
  destruct (Dict.get recipe_name (recipes (mgr w))); auto.
Qed.

(** X1.  A recipe that is not in the table cannot be executed: the call
    raises the [KeyError] of the lookup, no skill is invoked and the
    manager is left as it was. *)
Theorem unknown_recipe_raises
    (recipe_name : string) (params : Dict.t value) (w : world) :
  Dict.get recipe_name (recipes (mgr w)) = None ->
  execute_recipe recipe_name params w = (w, Raise (KeyError (VStr recipe_name))).
Proof. intros H. now rewrite execute_recipe_unfold, H. Qed.

Lemma unknown_recipe_raises_witness :
  execute_recipe "/translate" [] Example.world0
  = (Example.world0, Raise (KeyError (VStr "/translate"))).
Proof. apply unknown_recipe_raises. reflexivity. Defined.

(** X2.  A recipe whose flow is empty has no last step: its execution
    raises [IndexError], whatever the payload, without invoking a skill
    or touching the manager. *)
Theorem empty_flow_raises
    (recipe_name : string) (params : Dict.t value) (w : world) (r : recipe) :
  Dict.get recipe_name (recipes (mgr w)) = Some r ->
  flow r = [] ->
  execute_recipe recipe_name params w = (w, Raise IndexError).
Proof.
  intros Hr Hflow. rewrite execute_recipe_unfold, Hr, Hflow. simpl.
  unfold retM, final_output. now rewrite Hflow.
Qed.

Lemma empty_flow_raises_witness :
  execute_recipe "/noop" [("q", VStr "rust")]
    {| mgr := {| skills := Example.registry;
                 recipes := [("/noop",
                              {| endpoint := "/noop"; method := None; description := None;
                                 required_skills := None; parameters := None;
                                 flow := [] |})];
                 routes := []; error_log := [] |};
       calls := [] |}
  = ({| mgr := {| skills := Example.registry;
                  recipes := [("/noop",
                               {| endpoint := "/noop"; method := None; description := None;
                                  required_skills := None; parameters := None;
                                  flow := [] |})];
                  routes := []; error_log := [] |};
        calls := [] |}, Raise IndexError).
Proof. eapply empty_flow_raises; reflexivity. Defined.

Lemma execute_recipe_stops (recipe_name : string) (params : Dict.t value)
    (r : recipe) (pre post : list step) (st : step)
    (context : Dict.t value) (w w1 w2 : world) (e : exn) :
  Dict.get recipe_name (recipes (mgr w)) = Some r ->
  flow r = (pre ++ st :: post)%list ->
  run_flow recipe_name r 0 pre (seed_context r params) w = (w1, Ok context) ->
  run_step recipe_name r (List.length pre) st context w1 = (w2, Raise e) ->
  execute_recipe recipe_name params w = (w2, Raise e).
Proof.
  intros Hr Hflow Hpre Hst.
  rewrite execute_recipe_unfold, Hr, Hflow, run_flow_app, Hpre.
  simpl. unfold bindM. now rewrite Hst.
Qed.

(** X3.  A step whose skill is not in the registry ends the execution
    with the [KeyError] of the registry lookup, naming the skill; the
    skills invoked are those of the earlier steps. *)
Theorem unregistered_skill_aborts
    (recipe_name : string) (params : Dict.t value) (r : recipe)
    (pre post : list step) (st : step) (context : Dict.t value) (w w1 : world) :
  Dict.get recipe_name (recipes (mgr w)) = Some r ->
  flow r = (pre ++ st :: post)%list ->
  run_flow recipe_name r 0 pre (seed_context r params) w = (w1, Ok context) ->
  Dict.get (skill_name st) (skills (mgr w)) = None ->
  execute_recipe recipe_name params w = (w1, Raise (KeyError (VStr (skill_name st))))
  /\ exists cs, calls w1 = (calls w ++ cs)%list /\ map callee cs = map skill_name pre.
Proof.
  intros Hr Hflow Hpre Hsk. split.
  - eapply execute_recipe_stops; eauto.
    rewrite run_step_unfold.
    pose proof (run_flow_skills recipe_name r pre 0 (seed_context r params) w) as Hsame.
    rewrite Hpre in Hsame. simpl in Hsame. now rewrite Hsame, Hsk.
  - eapply run_flow_calls. exact Hpre.
Qed.

(** X4.  When the skill of a step raises, the execution ends with that
    exception: the failing invocation is the last one made, after those
    of the earlier steps, and no later step runs. *)
Theorem skill_exception_propagates
    (recipe_name : string) (params : Dict.t value) (r : recipe)
    (pre post : list step) (st : step) (context kw : Dict.t value)
    (w w1 : world) (sk : skill) (e : exn) :
  Dict.get recipe_name (recipes (mgr w)) = Some r ->
  flow r = (pre ++ st :: post)%list ->
  run_flow recipe_name r 0 pre (seed_context r params) w = (w1, Ok context) ->
  Dict.get (skill_name st) (skills (mgr w)) = Some sk ->
  step_input r sk context st = Ok kw ->
  run sk kw = Raise e ->
  exists w2 cs,
    execute_recipe recipe_name params w = (w2, Raise e)
    /\ calls w2 = (calls w ++ cs ++ [{| callee := skill_name st; kwargs := kw |}])%list
    /\ map callee cs = map skill_name pre.
Proof.
  intros Hr Hflow Hpre Hsk Hin Hrun.
  destruct (run_flow_calls _ _ _ _ _ _ _ _ Hpre) as [cs [Hcalls Hnames]].
  pose proof (run_flow_skills recipe_name r pre 0 (seed_context r params) w) as Hsame.
  rewrite Hpre in Hsame. simpl in Hsame.
  exists {| mgr := annotated recipe_name (List.length pre) sk (mgr w1);
            calls := (calls w1 ++ [{| callee := skill_name st; kwargs := kw |}])%list |}, cs.
  split; [|split; auto].
  - eapply execute_recipe_stops; eauto.
    now rewrite run_step_unfold, Hsame, Hsk, Hin, Hrun.
  - simpl. now rewrite Hcalls, <- app_assoc.
Qed.

(** X5.  An execution that returns a value has invoked the skill of every
    step of the flow exactly once, in the order of the flow. *)
Theorem completed_execution_runs_every_step
    (recipe_name : string) (params : Dict.t value) (w w' : world) (v : value) :
  execute_recipe recipe_name params w = (w', Ok v) ->
  exists r cs,
    Dict.get recipe_name (recipes (mgr w)) = Some r
    /\ calls w' = (calls w ++ cs)%list
    /\ map callee cs = map skill_name (flow r).
Proof.
  rewrite execute_recipe_unfold.
  destruct (Dict.get recipe_name (recipes (mgr w))) as [r|]; [|discriminate].
  destruct (run_flow recipe_name r 0 (flow r) (seed_context r params) w)
    as [w1 [context|e]] eqn:Hflow; [|discriminate].
  intros H. assert (w1 = w') by congruence. subst w1.
  destruct (run_flow_calls _ _ _ _ _ _ _ _ Hflow) as [cs [H1 H2]].
  now exists r, cs.
Qed.

Lemma unregistered_skill_aborts_witness :
  execute_recipe "/headlines" [("query", VStr "rust")] Example.world1
  = (Example.world1, Raise (KeyError (VStr "NewsSearch"))).
Proof.
  refine (proj1 (unregistered_skill_aborts "/headlines" [("query", VStr "rust")]
                   Example.headlines []  []
                   {| skill_name := "NewsSearch"; input := VStr "query";
                      output := "news"; output_type := None |}
                   [("query", VStr "rust")] Example.world1 Example.world1
                   eq_refl eq_refl eq_refl eq_refl)).
Defined.

Lemma skill_exception_propagates_witness :
  exists w2 cs,
    execute_recipe "/parse_nothing" [] Example.world1
    = (w2, Raise (SkillError "run() missing 1 required positional argument: 'text'"))
    /\ calls w2 = (calls Example.world1 ++ cs
                   ++ [{| callee := "HtmlTextParser"; kwargs := [] |}])%list
    /\ map callee cs = map skill_name [].
Proof.
  exact (skill_exception_propagates "/parse_nothing" [] Example.parse_nothing [] []
           {| skill_name := "HtmlTextParser"; input := VDict [];
              output := "parsed"; output_type := None |}
           [] [] Example.world1 Example.world1 Example.html_text_parser
           (SkillError "run() missing 1 required positional argument: 'text'")
           eq_refl eq_refl eq_refl eq_refl eq_refl eq_refl).
Defined.

Lemma completed_execution_runs_every_step_witness :
  exists r cs,
    Dict.get "/summarize" (recipes (mgr Example.world0)) = Some r
    /\ calls (fst (execute_recipe "/summarize" [("html", VStr "<p>news</p>")]
                     Example.world0))
       = (calls Example.world0 ++ cs)%list
    /\ map callee cs = map skill_name (flow r).
Proof.
  exact (completed_execution_runs_every_step "/summarize"
           [("html", VStr "<p>news</p>")] Example.world0
           (fst (execute_recipe "/summarize" [("html", VStr "<p>news</p>")]
                   Example.world0))
           (VStr "no answer") eq_refl).
Defined.

(** ** What the context is seeded with *)

Lemma from_payload_set (ps : list param_decl) (params context : Dict.t value)
    (p : param_decl) (key : string) (v : value) :
  In p ps ->
  key = name p \/ In key (from_option [] (aliases p)) ->
  Dict.get key params = Some v ->
  from_payload ps params context ->
  from_payload ps params (Dict.set (name p) v context).
Proof.
  intros Hp Hkey Hv Hctx k x.
  destruct (string_dec k (name p)) as [-> | Hne].
  - rewrite get_set_same. intros [= <-]. now exists p, key.
  - rewrite get_set_other by assumption. apply Hctx.
Qed.

Lemma from_payload_aliases (ps : list param_decl) (params : Dict.t value)
    (p : param_decl) (als : list string) :
  In p ps ->
  (forall a, In a als -> In a (from_option [] (aliases p))) ->
  forall context,
    from_payload ps params context ->
    from_payload ps params (fold_left (seed_alias params (name p)) als context).
Proof.
  intros Hp. induction als as [|a als IH]; intros Hals context Hctx; simpl; auto.
  apply IH; [intros b Hb; apply Hals; now right|].
  unfold seed_alias. destruct (Dict.get a params) as [v|] eqn:Ha; auto.
  apply from_payload_set with (key := a); auto.
  right. apply Hals. now left.
Qed.

Lemma from_payload_param (ps : list param_decl) (params context : Dict.t value)
    (p : param_decl) :
  In p ps ->
  from_payload ps params context ->
  from_payload ps params (seed_param params context p).
Proof.
  intros Hp Hctx. unfold seed_param.
  assert (Hbase : from_payload ps params
            (match Dict.get (name p) params with
             | Some v => Dict.set (name p) v context
             | None => context
             end)).
  { destruct (Dict.get (name p) params) as [v|] eqn:Hv; auto.
    apply from_payload_set with (key := name p); auto. }
  destruct (aliases p) as [als|] eqn:Hal; auto.
  apply from_payload_aliases; auto.
  intros a Ha. now rewrite Hal.
Qed.

Lemma from_payload_params (ps : list param_decl) (params : Dict.t value)
    (qs : list param_decl) :
  (forall q, In q qs -> In q ps) ->
  forall context,
    from_payload ps params context ->
    from_payload ps params (fold_left (seed_param params) qs context).
Proof.
  induction qs as [|q qs IH]; intros Hqs context Hctx; simpl; auto.
  apply IH; [intros q' Hq'; apply Hqs; now right|].
  apply from_payload_param; auto. apply Hqs. now left.
Qed.

(** X6.  With declared parameters, the context is seeded from the payload
    and nothing else: every binding of the seeded context is a declared
    name, bound to the value the payload holds under that name or under
    one of its aliases. *)
Theorem seeded_values_come_from_payload
    (r : recipe) (params : Dict.t value) (ps : list param_decl)
    (k : string) (v : value) :
  parameters r = Some ps ->
  Dict.get k (seed_context r params) = Some v ->
  exists p key,
    In p ps /\ name p = k
    /\ (key = name p \/ In key (from_option [] (aliases p)))
    /\ Dict.get key params = Some v.
Proof.
  intros Hps. unfold seed_context. rewrite Hps.
  apply (from_payload_params ps params ps); auto.
  intros k0 v0. discriminate.
Qed.

Lemma seeded_values_come_from_payload_witness :
  exists p key,
    In p [{| name := "html"; aliases := Some ["page"; "content"];
             optional := None; param_doc := [] |};
          {| name := "style"; aliases := None;
             optional := Some (VBool true); param_doc := [] |}]
    /\ name p = "html"
    /\ (key = name p \/ In key (from_option [] (aliases p)))
    /\ Dict.get key [("page", VStr "<p>news</p>")] = Some (VStr "<p>news</p>").
Proof.
  exact (seeded_values_come_from_payload Example.summarize
           [("page", VStr "<p>news</p>")] _ "html" (VStr "<p>news</p>")
           eq_refl eq_refl).
Defined.

(** ** Strings and mappings that pass through *)

(** X7.  A string value in which the text [{$] does not occur, and which
    does not begin with [$], is passed to the skill as it is, whatever
    the context holds. *)
Theorem plain_string_unchanged
    (r : recipe) (context : Dict.t value) (s : string) :
  has_open s = false ->
  expand context s = Ok s
  /\ (Str.startswith "$" s = false ->
      resolve_value r context (VStr s) = Ok (Bound (VStr s))).
Proof.
  intros Hplain.
  assert (Heq : expand context s = Ok s).
  { unfold expand.
    apply (sub_templates_assemble context [] s); auto. }
  split; [exact Heq|].
  intros H. rewrite resolve_value_template by assumption. now rewrite Heq.
Qed.

Lemma plain_string_unchanged_witness :
  expand Example.ann "a { b $x } {x}" = Ok "a { b $x } {x}".
Proof. apply (plain_string_unchanged Example.summarize). reflexivity. Defined.

Lemma set_absent {V} (k : string) (v : V) (d : Dict.t V) :
  ~ In k (Dict.keys d) -> Dict.set k v d = (d ++ [(k, v)])%list.
Proof.
  induction d as [|[k' v'] d IH]; simpl; auto.
  destruct (String.eqb k k') eqn:E.
  - apply String.eqb_eq in E. subst. tauto.
  - intros H. rewrite IH; tauto.
Qed.

Lemma build_input_literals (r : recipe) (context : Dict.t value)
    (es : list (string * value)) :
  Forall (fun kv => forall s, snd kv <> VStr s) es ->
  NoDup (Dict.keys es) ->
  forall acc,
    (forall k, In k (Dict.keys es) -> ~ In k (Dict.keys acc)) ->
    build_input r context es acc = Ok (acc ++ es)%list.
Proof.
  induction 1 as [|[k v] es Hv _ IH]; intros Hnd acc Hfresh; simpl.
  - now rewrite app_nil_r.
  - simpl in Hnd. apply NoDup_cons_iff in Hnd. destruct Hnd as [Hk Hnd].
    assert (Hres : resolve_value r context v = Ok (Bound v)).
    { destruct v; try reflexivity. now destruct (Hv s). }
    rewrite Hres. simpl.
    rewrite set_absent by (apply Hfresh; now left).
    rewrite IH; auto.
    + now rewrite <- app_assoc.
    + intros k0 Hk0 Hin. unfold Dict.keys in Hin. rewrite map_app in Hin.
      apply in_app_or in Hin. destruct Hin as [Hin | [<- | []]].
      * apply (Hfresh k0); auto. now right.
      * now apply Hk.
Qed.

(** X8.  An input mapping none of whose values is a string is the very
    mapping the skill is invoked with: the values, of whatever type, and
    the order of the keys are kept. *)
Theorem literal_mapping_passed_as_is
    (r : recipe) (sk : skill) (context : Dict.t value) (st : step)
    (es : list (string * value)) :
  input st = VDict es ->
  NoDup (Dict.keys es) ->
  Forall (fun kv => forall s, snd kv <> VStr s) es ->
  step_input r sk context st = Ok es.
Proof.
  intros Hin Hnd Hlit. unfold step_input. rewrite Hin.
  apply (build_input_literals r context es Hlit Hnd Dict.empty).
  intros k _ [].
Qed.

Lemma literal_mapping_passed_as_is_witness :
  step_input Example.summarize Example.html_text_parser []
    {| skill_name := "NewsSearch";
       input := VDict [("limit", VInt 5); ("tags", VList [VStr "{$x}"]); ("raw", VBool true)];
       output := "news"; output_type := None |}
  = Ok [("limit", VInt 5); ("tags", VList [VStr "{$x}"]); ("raw", VBool true)].
Proof.
  apply literal_mapping_passed_as_is.
  - reflexivity.
  - repeat constructor; simpl; intuition discriminate.
  - repeat constructor; intros s; discriminate.
Defined.

(** X9.  A template whose path goes through a value that is not a mapping
    (a string, a number, a list, [None]) ends the expansion with a
    [TypeError]: no value is substituted for it. *)
Theorem path_through_non_mapping_raises
    (context : Dict.t value) (lit body final : string)
    (keys rest : list string) (key : string) (x : value) :
  literal_text lit -> template_body body -> literal_text final ->
  Str.split "." (Str.strip "$" body) = (keys ++ key :: rest)%list ->
  walk (VDict context) keys = Ok x ->
  (forall d, x <> VDict d) ->
  exists what, expand context (lit ++ template body ++ final) = Raise (TypeError what).
Proof.
  intros Hlit Hbody Hfinal Hpath Hwalk Hx.
  change (lit ++ template body ++ final) with (assemble [(lit, body)] final).
  unfold expand. rewrite sub_templates_assemble; auto.
  simpl. unfold lookup_path. rewrite Hpath, walk_app, Hwalk. simpl.
  destruct x; simpl; eauto. now destruct (Hx d).
Qed.

Lemma path_through_non_mapping_raises_witness :
  exists what,
    expand [("user", VStr "Ann")] ("Hello " ++ template "user.name" ++ "!")
    = Raise (TypeError what).
Proof.
  apply (path_through_non_mapping_raises [("user", VStr "Ann")] "Hello " "user.name" "!"
           ["user"] [] "name" (VStr "Ann")).
  - reflexivity.
  - split; [discriminate | reflexivity].
  - reflexivity.
  - reflexivity.
  - reflexivity.
  - intros d; discriminate.
Defined.

(** ** Discovery *)

Lemma keys_set_iff {V} (k k0 : string) (v : V) (d : Dict.t V) :
  In k0 (Dict.keys (Dict.set k v d)) <-> k0 = k \/ In k0 (Dict.keys d).
Proof.
  split; [apply keys_set_incl|].
  destruct (in_dec string_dec k (Dict.keys d)) as [Hin | Hout].
  - rewrite keys_set_present by assumption. intros [-> | H]; auto.
  - rewrite keys_set_absent by assumption. intros [-> | H]; apply in_or_app; auto.
    right. now left.
Qed.

Lemma skills_capabilities_keys (sks : Dict.t skill) (k : string) :
  forall d,
    In k (Dict.keys (fold_left
            (fun d kv => let '(skill_id, skill_instance) := kv in
                         if hiddenCapability skill_instance then d
                         else Dict.set (camel_to_snake skill_id)
                                (skill_info skill_instance) d)
            sks d))
    <-> In k (Dict.keys d)
        \/ exists skill_id sk, In (skill_id, sk) sks
                               /\ hiddenCapability sk = false
                               /\ camel_to_snake skill_id = k.
Proof.
  induction sks as [|[n sk] sks IH]; intros d; simpl.
  - split; auto. intros [H | (n & sk & [] & _)]; auto.
  - rewrite IH. destruct (hiddenCapability sk) eqn:Hh.
    + split.
      * intros [H | (n' & sk' & Hin & Hv & Hs)]; auto.
        right. exists n', sk'. auto.
      * intros [H | (n' & sk' & [Heq | Hin] & Hv & Hs)]; auto.
        -- injection Heq as <- <-. congruence.
        -- right. exists n', sk'. auto.
    + rewrite keys_set_iff. split.
      * intros [[-> | H] | (n' & sk' & Hin & Hv & Hs)]; auto.
        -- right. exists n, sk. auto.
        -- right. exists n', sk'. auto.
      * intros [H | (n' & sk' & [Heq | Hin] & Hv & Hs)]; auto.
        -- injection Heq as <- <-. auto.
        -- right. exists n', sk'. auto.
Qed.

(** X10.  The skills the capabilities describe are exactly the registered
    skills that are not hidden, each under the snake-case form of its
    identifier: a hidden skill contributes no entry. *)
Theorem capabilities_list_visible_skills (sks : Dict.t skill) (k : string) :
  In k (Dict.keys (skills_capabilities sks))
  <-> exists skill_id sk, In (skill_id, sk) sks
                          /\ hiddenCapability sk = false
                          /\ camel_to_snake skill_id = k.
Proof.
  unfold skills_capabilities. rewrite skills_capabilities_keys. simpl. tauto.
Qed.

Lemma recipes_capabilities_fold (rs : Dict.t recipe) :
  NoDup (Dict.keys rs) ->
  forall d,
    (forall e, In e (Dict.keys rs) -> ~ In e (Dict.keys d)) ->
    fold_left (fun d kv => let '(endpoint_key, r) := kv in
                           Dict.set endpoint_key (recipe_info endpoint_key r) d)
              rs d
    = (d ++ map (fun kv => (fst kv, recipe_info (fst kv) (snd kv))) rs)%list.
Proof.
  induction rs as [|[e r] rs IH]; intros Hnd d Hfresh; simpl.
  - now rewrite app_nil_r.
  - simpl in Hnd. apply NoDup_cons_iff in Hnd. destruct Hnd as [He Hnd].
    rewrite set_absent by (apply Hfresh; now left).
    rewrite IH; auto.
    + now rewrite <- app_assoc.
    + intros e0 He0 Hin. unfold Dict.keys in Hin. rewrite map_app in Hin.
      apply in_app_or in Hin. destruct Hin as [Hin | [<- | []]].
      * apply (Hfresh e0); auto. now right.
      * now apply He.
Qed.

(** X11.  The capabilities describe every stored recipe, in the order of
    the table, each under its endpoint and with the flow as it is stored
    at that moment. *)
Theorem capabilities_list_every_recipe (rs : Dict.t recipe) :
  NoDup (Dict.keys rs) ->
  recipes_capabilities rs
  = map (fun kv => (fst kv, recipe_info (fst kv) (snd kv))) rs.
Proof.
  intros Hnd. unfold recipes_capabilities.
  rewrite recipes_capabilities_fold; auto.
Qed.

Lemma capabilities_list_every_recipe_witness :
  recipes_capabilities (recipes Example.manager1)
  = [("/summarize", recipe_info "/summarize" Example.summarize);
     ("/headlines", recipe_info "/headlines" Example.headlines);
     ("/parse_nothing", recipe_info "/parse_nothing" Example.parse_nothing)].
Proof.
  apply (capabilities_list_every_recipe (recipes Example.manager1)).
  repeat constructor; simpl; intuition discriminate.
Defined.

Lemma capabilities_list_visible_skills_witness :
  In "html_text_parser" (Dict.keys (skills_capabilities Example.registry))
  /\ ~ In "text_completion" (Dict.keys (skills_capabilities Example.registry)).
Proof.
  split.
  - apply (proj2 (capabilities_list_visible_skills Example.registry "html_text_parser")).
    exists "HtmlTextParser", Example.html_text_parser.
    repeat split. simpl. tauto.
  - intros H.
    apply (proj1 (capabilities_list_visible_skills Example.registry "text_completion")) in H.
    destruct H as (n & sk & [Heq | [Heq | []]] & Hv & Hs);
      injection Heq as <- <-; discriminate.
Defined.

(** ** Snake case *)

Lemma to_lower_not_upper (c : ascii) : Str.is_upper (Str.to_lower c) = false.
Proof. destruct c as [[|] [|] [|] [|] [|] [|] [|] [|]]; reflexivity. Qed.

Lemma lower_no_capital (s : string) : has_upper (Str.lower s) = false.
Proof.
  induction s as [|c s IH]; simpl; auto.
  now rewrite to_lower_not_upper, IH.
Qed.

(** X12.  The snake-case form of a name has no capital letter. *)
Theorem camel_to_snake_has_no_capital (name : string) :
  has_upper (camel_to_snake name) = false.
Proof. unfold camel_to_snake. apply lower_no_capital. Qed.

Lemma lower_without_capital (s : string) : has_upper s = false -> Str.lower s = s.
Proof.
  induction s as [|c s IH]; simpl; auto.
  intros H. apply orb_false_iff in H. destruct H as [Hc Hs].
  unfold Str.to_lower. now rewrite Hc, IH.
Qed.

Lemma snake_humps_without_capital (s : string) :
  has_upper s = false -> snake_humps s = s.
Proof.
  induction s as [|a s IH]; auto.
  intros H. simpl in H. apply orb_false_iff in H. destruct H as [_ Hs].
  destruct s as [|u rest]; auto.
  specialize (IH Hs). simpl in Hs. apply orb_false_iff in Hs. destruct Hs as [Hu _].
  change (snake_humps (String a (String u rest)))
    with (if (Str.is_lower a || Str.is_digit a) && Str.is_upper u
          then String a (String "_" (String u (snake_humps rest)))
          else String a (snake_humps (String u rest))).
  now rewrite Hu, andb_false_r, IH.
Qed.

Lemma snake_words_without_capital (fuel : nat) :
  forall s, has_upper s = false -> snake_words fuel s = s.
Proof.
  induction fuel as [|fuel IH]; intros s H; auto.
  destruct s as [|c [|u [|l rest]]]; simpl; auto.
  - now rewrite IH.
  - rewrite IH; auto. simpl in H. now apply orb_false_iff in H.
  - assert (Htail : has_upper (String u (String l rest)) = false).
    { simpl in H. now apply orb_false_iff in H. }
    assert (Hu : Str.is_upper u = false).
    { simpl in Htail. now apply orb_false_iff in Htail. }
    rewrite Hu, andb_false_r. simpl. now rewrite IH.
Qed.

(** X13.  An ASCII name without a capital letter is its own snake-case
    form. *)
Theorem camel_to_snake_keeps_snake_names (name : string) :
  Str.is_ascii name = true ->
  has_upper name = false -> camel_to_snake name = name.
Proof.
  intros _ H. unfold camel_to_snake.
  now rewrite snake_words_without_capital, snake_humps_without_capital,
    lower_without_capital.
Qed.

Lemma camel_to_snake_keeps_snake_names_witness :
  camel_to_snake "web_url_downloader2" = "web_url_downloader2".
Proof. apply camel_to_snake_keeps_snake_names; reflexivity. Defined.

(** ** The registry and its files *)

Lemma registration_inv (p : plugin) (c : string) (inst : skill) :
  registration p = Some (c, inst) ->
  String.prefix "__" (stem p) = false
  /\ c = class_name_of (stem p)
  /\ exists attributes, imported_as p = Module_ attributes
                        /\ Dict.get c attributes = Some (Ok inst).
Proof.
  unfold registration, instantiate, import_module, getattr.
  destruct (String.prefix "__" (stem p)); [discriminate|].
  destruct (imported_as p) as [attributes|e]; simpl; [|discriminate].
  destruct (Dict.get (class_name_of (stem p)) attributes) as [[i|e]|] eqn:E;
    simpl; try discriminate.
  intros [= <- <-]. repeat split. now exists attributes.
Qed.

Lemma registered_from_file (files : list plugin) (c : string) (inst : skill) :
  forall sks,
    Dict.get c (fold_left register files sks) = Some inst ->
    Dict.get c sks = Some inst
    \/ exists p, In p files /\ registration p = Some (c, inst).
Proof.
  induction files as [|p files IH]; intros sks H; simpl in *; auto.
  apply IH in H. destruct H as [H | [q [Hq Hreg]]].
  - unfold register in H. destruct (registration p) as [[c' i']|] eqn:Hp; auto.
    destruct (string_dec c c') as [-> | Hne].
    + rewrite get_set_same in H. injection H as ->. right. exists p. auto.
    + rewrite get_set_other in H by assumption. auto.
  - right. exists q. auto.
Qed.

(** X14.  Every skill of the registry built at startup comes from a file
    of the skills directory: one whose stem does not begin with [__],
    whose module was imported, and whose module defines, under the class
    name derived from the stem, the class the instance was built from;
    the identifier is that class name. *)
Theorem registered_skill_comes_from_a_file
    (files : list plugin) (m : manager) (c : string) (inst : skill) :
  load_skills files new_manager = Ok m ->
  Dict.get c (skills m) = Some inst ->
  exists p,
    In p files
    /\ String.prefix "__" (stem p) = false
    /\ c = class_name_of (stem p)
    /\ exists attributes, imported_as p = Module_ attributes
                          /\ Dict.get c attributes = Some (Ok inst).
Proof.
  intros Hload H. apply load_skills_ok in Hload. destruct Hload as [_ Hsk].
  rewrite Hsk in H.
  apply registered_from_file in H. destruct H as [H | [p [Hp Hreg]]].
  - discriminate.
  - exists p. split; auto. now apply registration_inv.
Qed.

Lemma registered_skill_comes_from_a_file_witness :
  exists p,
    In p [Example.news_plugin; Example.broken_plugin]
    /\ String.prefix "__" (stem p) = false
    /\ "NewsSearch" = class_name_of (stem p)
    /\ exists attributes, imported_as p = Module_ attributes
                          /\ Dict.get "NewsSearch" attributes
                             = Some (Ok Example.first_news).
Proof.
  exact (registered_skill_comes_from_a_file
           [Example.news_plugin; Example.broken_plugin]
           {| skills := [("NewsSearch", Example.first_news)]; recipes := [];
              routes := [];
              error_log := ["Failed to load skill from skills/broken.py: No module named 'newsapi'"] |}
           "NewsSearch" Example.first_news eq_refl eq_refl).
Defined.

Lemma load_skills_app (l1 l2 : list plugin) :
  forall m, load_skills (l1 ++ l2) m = (m1 <- load_skills l1 m ;; load_skills l2 m1).
Proof.
  induction l1 as [|p l1 IH]; intros m; simpl; auto.
  destruct (load_skill m p); simpl; auto.
Qed.

Lemma load_skill_log_grows (m m' : manager) (p : plugin) (line : string) :
  load_skill m p = Ok m' -> In line (error_log m) -> In line (error_log m').
Proof.
  unfold load_skill, log_error, with_skills.
  destruct (String.prefix "__" (stem p)); [now intros [= <-]|].
  destruct (instantiate p) as [inst|e].
  - now intros [= <-].
  - destruct (caught_by_loader e); [|discriminate].
    intros [= <-] H. simpl. auto using in_or_app.
Qed.

Lemma load_skills_log_grows (files : list plugin) (line : string) :
  forall m m', load_skills files m = Ok m' ->
               In line (error_log m) -> In line (error_log m').
Proof.
  induction files as [|p files IH]; intros m m'; simpl.
  - now intros [= <-].
  - destruct (load_skill m p) as [m1|e] eqn:Hp; [|discriminate]. simpl.
    intros Hrest H. apply (IH m1 m' Hrest).
    now apply (load_skill_log_grows m m1 p).
Qed.

Lemma load_skill_caught (m : manager) (p : plugin) (e : exn) :
  String.prefix "__" (stem p) = false ->
  instantiate p = Raise e ->
  caught_by_loader e = true ->
  load_skill m p
  = Ok (log_error ("Failed to load skill from " ++ plugin_path p ++ ": "
                   ++ exn_str e) m).
Proof. unfold load_skill. now intros -> -> ->. Qed.

Lemma load_skill_escapes (m : manager) (p : plugin) (e : exn) :
  escapes p = Some e -> load_skill m p = Raise e.
Proof.
  unfold load_skill, escapes.
  destruct (String.prefix "__" (stem p)); [discriminate|].
  destruct (instantiate p) as [inst|e0]; [discriminate|].
  destruct (caught_by_loader e0); [discriminate|]. now intros [= ->].
Qed.

(** X15.  A file whose import, class lookup or construction raises
    [ImportError] or [AttributeError] is skipped: as far as the registry
    and the end of the load go, the load is the one of the other files,
    and the failure is logged with the path of the file and the text of
    the exception.  An exception of any other class is not caught: it is
    what the load raises, when the files before it raise none of the
    kind. *)
Theorem failing_plugin_is_skipped
    (before after : list plugin) (p : plugin) (m : manager) (e : exn) :
  String.prefix "__" (stem p) = false ->
  instantiate p = Raise e ->
  (caught_by_loader e = true ->
   fmap skills (load_skills (before ++ p :: after) m)
   = fmap skills (load_skills (before ++ after) m)
   /\ forall m', load_skills (before ++ p :: after) m = Ok m' ->
        In ("Failed to load skill from " ++ plugin_path p ++ ": " ++ exn_str e)
           (error_log m'))
  /\ (caught_by_loader e = false ->
      Forall (fun q => escapes q = None) before ->
      load_skills (before ++ p :: after) m = Raise e).
Proof.
  intros Hstem Hp. split.
  - intros Hcaught.
    assert (Hesc : escapes p = None).
    { unfold escapes. now rewrite Hstem, Hp, Hcaught. }
    assert (Hreg : registration p = None).
    { unfold registration. now rewrite Hstem, Hp. }
    split.
    + rewrite !load_skills_registry, !registry_after_app. simpl.
      rewrite Hesc. unfold register at 1. now rewrite Hreg.
    + intros m'. rewrite load_skills_app.
      destruct (load_skills before m) as [m1|e1]; [|discriminate]. simpl.
      rewrite (load_skill_caught m1 p e Hstem Hp Hcaught). simpl.
      intros Hrest. apply (load_skills_log_grows after _ _ m' Hrest).
      simpl. apply in_or_app. right. now left.
  - intros Hcaught Hquiet.
    assert (Hesc : escapes p = Some e).
    { unfold escapes. now rewrite Hstem, Hp, Hcaught. }
    rewrite load_skills_app.
    destruct (load_skills_quiet before m Hquiet) as (m1 & -> & _). simpl.
    now rewrite (load_skill_escapes m1 p e Hesc).
Qed.

Lemma failing_plugin_is_skipped_witness :
  fmap skills (load_skills [Example.news_plugin; Example.misnamed_plugin;
                            Example.news_plugin'] new_manager)
  = fmap skills (load_skills [Example.news_plugin; Example.news_plugin'] new_manager)
  /\ load_skills [Example.news_plugin; Example.unconfigured_plugin;
                  Example.news_plugin'] new_manager
     = Raise (ValueError "AI_API_MODEL environment variable is not set").
Proof.
  split.
  - refine (proj1 (proj1 (failing_plugin_is_skipped
                            [Example.news_plugin] [Example.news_plugin']
                            Example.misnamed_plugin new_manager
                            (AttributeError "module has no attribute 'HtmlParser'")
                            eq_refl eq_refl) eq_refl)).
  - refine (proj2 (failing_plugin_is_skipped
                     [Example.news_plugin] [Example.news_plugin']
                     Example.unconfigured_plugin new_manager
                     (ValueError "AI_API_MODEL environment variable is not set")
                     eq_refl eq_refl) eq_refl _).
    repeat constructor.
Defined.

(** ** Startup as a whole *)

Lemma load_skill_routes (m m' : manager) (p : plugin) :
  load_skill m p = Ok m' -> routes m' = routes m /\ recipes m' = recipes m.
Proof.
  unfold load_skill, log_error, with_skills.
  destruct (String.prefix "__" (stem p)); [now intros [= <-]|].
  destruct (instantiate p) as [inst|e]; [now intros [= <-]|].
  destruct (caught_by_loader e); [now intros [= <-] | discriminate].
Qed.

Lemma load_skills_routes (files : list plugin) :
  forall m m', load_skills files m = Ok m' ->
               routes m' = routes m /\ recipes m' = recipes m.
Proof.
  induction files as [|p files IH]; intros m m'; simpl.
  - now intros [= <-].
  - destruct (load_skill m p) as [m1|e] eqn:Hp; [|discriminate]. simpl.
    intros Hrest. destruct (IH _ _ Hrest) as [H1 H2].
    destruct (load_skill_routes _ _ _ Hp) as [H3 H4]. split; congruence.
Qed.

Lemma route_or_raise_fresh (compile : rule_compiler) (rt : route) (m : manager) :
  compile (route_path rt) = Ok tt ->
  (forall rt', In rt' (routes m) -> route_endpoint rt' <> route_endpoint rt) ->
  route_or_raise compile rt m
  = Ok {| skills := skills m; recipes := recipes m;
          routes := (routes m ++ [rt])%list; error_log := error_log m |}.
Proof.
  intros Hc Hfresh. unfold route_or_raise, app_route. rewrite Hc.
  destruct (existsb (fun r' => String.eqb (route_endpoint r') (route_endpoint rt))
              (routes m)) eqn:E; auto.
  apply existsb_exists in E. destruct E as [rt' [Hin Heq]].
  apply String.eqb_eq in Heq. now destruct (Hfresh rt' Hin).
Qed.

Lemma skill_route_inj (a b : string) :
  route_endpoint (skill_route a) = route_endpoint (skill_route b) -> a = b.
Proof. simpl. now intros [= H]. Qed.

Lemma register_skills_endpoints_ok (compile : rule_compiler) (ids : list string) :
  NoDup ids ->
  (forall id, In id ids -> compile (route_path (skill_route id)) = Ok tt) ->
  forall m,
    (forall id rt, In id ids -> In rt (routes m) ->
                   route_endpoint rt <> route_endpoint (skill_route id)) ->
    exists m',
      register_skills_endpoints compile ids m = Ok m'
      /\ routes m' = (routes m ++ map skill_route ids)%list
      /\ skills m' = skills m
      /\ recipes m' = recipes m
      /\ error_log m' = error_log m.
Proof.
  induction 1 as [|id ids Hid Hnd IH]; intros Hc m Hfresh;
    cbn [register_skills_endpoints].
  - exists m. simpl. now rewrite app_nil_r.
  - rewrite route_or_raise_fresh;
      [|apply Hc; now left | intros rt Hrt; apply Hfresh; simpl; auto].
    cbn [bind].
    destruct (IH (fun id' H' => Hc id' (or_intror H'))
                {| skills := skills m; recipes := recipes m;
                   routes := (routes m ++ [skill_route id])%list;
                   error_log := error_log m |}) as (m' & H1 & H2 & H3 & H4 & H5).
    + intros id' rt Hid' Hrt. cbn [routes] in Hrt. apply in_app_or in Hrt.
      destruct Hrt as [Hrt | [<- | []]].
      * apply Hfresh; simpl; auto.
      * intros Heq. apply skill_route_inj in Heq. subst. contradiction.
    + exists m'. cbn [routes skills recipes error_log] in *. repeat split; auto.
      rewrite H2, <- app_assoc. reflexivity.
Qed.

Lemma register_keys_origin (files : list plugin) (c : string) :
  forall sks,
    In c (Dict.keys (fold_left register files sks)) ->
    In c (Dict.keys sks)
    \/ exists p inst, In p files /\ registration p = Some (c, inst).
Proof.
  induction files as [|p files IH]; intros sks H; simpl in *; auto.
  apply IH in H. destruct H as [H | (q & inst & Hq & Hreg)].
  - unfold register in H. destruct (registration p) as [[c' i']|] eqn:Hp; auto.
    apply keys_set_incl in H. destruct H as [-> | H]; auto.
    right. exists p, i'. auto.
  - right. exists q, inst. auto.
Qed.

(** X16.  No recipe file can make the constructor fail, and no view is
    refused, because the identifiers of the registry are distinct and
    the endpoint names of skills, of recipes and of the capabilities
    route cannot coincide.  The constructor completes, whatever the
    recipes directory holds, when no skill file raises an exception that
    the loader does not catch and the gateway compiles the paths of the
    skill routes and of the capabilities route; the manager it builds has
    the registry given by the skill files, a route for every registered
    skill and the capabilities route.  When a skill file raises an
    exception that the loader does not catch, the constructor raises
    it. *)
Theorem init_completes
    (compile : rule_compiler) (plugins : list plugin)
    (recipe_files : list recipe_file) :
  (Forall (fun p => escapes p = None) plugins ->
   (forall p c inst, In p plugins -> registration p = Some (c, inst) ->
                     compile (route_path (skill_route c)) = Ok tt) ->
   compile (route_path capabilities_route) = Ok tt ->
   exists m,
     init compile plugins recipe_files = Ok m
     /\ fmap skills (load_skills plugins new_manager) = Ok (skills m)
     /\ In capabilities_route (routes m)
     /\ forall skill_id, In skill_id (Dict.keys (skills m)) ->
                         In (skill_route skill_id) (routes m))
  /\ (forall before p after e,
        plugins = (before ++ p :: after)%list ->
        Forall (fun q => escapes q = None) before ->
        escapes p = Some e ->
        init compile plugins recipe_files = Raise e).
Proof.
  split.
  - intros Hquiet Hskills Hcap. unfold init.
    destruct (load_skills_quiet plugins new_manager Hquiet) as (m0 & Hload & Hsk0).
    rewrite Hload. cbn [bind fmap].
    destruct (load_skills_routes plugins _ _ Hload) as [Hroutes0 _].
    simpl in Hroutes0, Hsk0.
    destruct (register_skills_endpoints_ok compile (Dict.keys (skills m0)))
      with (m := m0) as (m1 & H1 & H2 & H3 & H4 & H5).
    + rewrite Hsk0. apply register_keys_unique. constructor.
    + intros id Hid. rewrite Hsk0 in Hid.
      apply register_keys_origin in Hid.
      destruct Hid as [[] | (p & inst & Hp & Hreg)]. now apply (Hskills p id inst).
    + intros id rt _ Hrt. rewrite Hroutes0 in Hrt. destruct Hrt.
    + rewrite H1. cbn [bind].
      set (m2 := register_recipes_endpoints compile recipe_files m1).
      assert (Hfresh : forall rt, In rt (routes m2) ->
                                  route_endpoint rt <> route_endpoint capabilities_route).
      { intros rt Hrt. apply register_recipes_routes_origin in Hrt.
        destruct Hrt as [Hrt | [r [-> _]]]; [|discriminate].
        rewrite H2, Hroutes0 in Hrt. simpl in Hrt. apply in_map_iff in Hrt.
        destruct Hrt as [id [<- _]]. discriminate. }
      rewrite (route_or_raise_fresh _ _ _ Hcap Hfresh).
      eexists. split; [reflexivity|]. cbn [skills routes].
      assert (Hsk : skills m2 = skills m0).
      { unfold m2. now rewrite register_recipes_skills. }
      split; [now rewrite Hsk|]. split.
      * apply in_or_app. right. now left.
      * intros id Hid. apply in_or_app. left.
        apply register_recipes_routes_grow. rewrite H2. apply in_or_app. right.
        apply in_map. now rewrite <- Hsk.
  - intros before p after e -> Hquiet Hesc. unfold init.
    rewrite load_skills_app.
    destruct (load_skills_quiet before new_manager Hquiet) as (m1 & -> & _).
    cbn [bind load_skills]. now rewrite (load_skill_escapes m1 p e Hesc).
Qed.

Lemma init_completes_witness :
  (exists m,
     init Example.compile [Example.news_plugin; Example.broken_plugin]
       Example.greet_files = Ok m
     /\ skills m = [("NewsSearch", Example.first_news)]
     /\ In capabilities_route (routes m))
  /\ init Example.compile [Example.news_plugin; Example.unconfigured_plugin]
       Example.greet_files
     = Raise (ValueError "AI_API_MODEL environment variable is not set").
Proof.
  split.
  - destruct (proj1 (init_completes Example.compile
                       [Example.news_plugin; Example.broken_plugin]
                       Example.greet_files))
      as (m & Hinit & Hsk & Hcap & _).
    + repeat constructor.
    + intros p c inst [<- | [<- | []]]; intros [= <- _]; reflexivity.
    + reflexivity.
    + exists m. split; [exact Hinit|]. split; [|exact Hcap].
      now injection Hsk as <-.
  - apply (proj2 (init_completes Example.compile
                    [Example.news_plugin; Example.unconfigured_plugin]
                    Example.greet_files)
             [Example.news_plugin] Example.unconfigured_plugin []
             (ValueError "AI_API_MODEL environment variable is not set"));
      repeat constructor.
Defined.

(** ** The recipe table as a whole *)

Lemma accepted_inv (sks : Dict.t skill) (f : recipe_file) (r : recipe) :
  accepted sks f = Some r -> safe_load f = Ok r /\ skills_available sks r.
Proof.
  unfold accepted. destruct (safe_load f) as [r0|]; [|discriminate].
  destruct (missing_skills sks r0) eqn:Hmiss; [|discriminate].
  intros [= <-]. split; auto. now apply missing_skills_nil.
Qed.

Lemma load_recipe_well_stored (compile : rule_compiler) (sks : Dict.t skill)
    (files : list recipe_file) (m : manager) (f : recipe_file) :
  skills m = sks -> In f files ->
  well_stored compile sks files m ->
  well_stored compile sks files (load_recipe compile m f).
Proof.
  intros Hsk Hf Hm.
  assert (Hgrow : forall e r,
             Dict.get e (recipes m) = Some r ->
             endpoint r = e /\ skills_available sks r
             /\ (exists f0, In f0 files /\ safe_load f0 = Ok r)
             /\ (compile ("/recipes" ++ e) = Ok tt ->
                 exists rt, In rt (routes (load_recipe compile m f))
                            /\ route_path rt = "/recipes" ++ e
                            /\ route_endpoint rt = "recipe_" ++ e)).
  { intros e r H. destruct (Hm e r H) as (H1 & H2 & H3 & H4).
    repeat split; auto. intros Hc. destruct (H4 Hc) as (rt & Hrt & Hpath & Hname).
    exists rt. split; auto. now apply load_recipe_routes_grow. }
  intros e r. rewrite load_recipe_recipes, Hsk.
  destruct (accepted sks f) as [r'|] eqn:Hacc; [|apply Hgrow].
  destruct (string_dec e (endpoint r')) as [-> | Hne].
  - rewrite get_set_same. intros [= <-].
    destruct (accepted_inv _ _ _ Hacc) as [Hload Havail].
    repeat split; auto; [now exists f|].
    intros Hc. exists (recipe_route r'). split; [|split; reflexivity].
    rewrite load_recipe_routes, Hsk, Hacc.
    change (route_path (recipe_route r')) with ("/recipes" ++ endpoint r').
    rewrite Hc. apply in_or_app. right. now left.
  - rewrite get_set_other by assumption. apply Hgrow.
Qed.

Lemma register_recipes_well_stored (compile : rule_compiler) (sks : Dict.t skill)
    (files : list recipe_file) (todo : list recipe_file) :
  (forall f, In f todo -> In f files) ->
  forall m, skills m = sks -> well_stored compile sks files m ->
            well_stored compile sks files (register_recipes_endpoints compile todo m).
Proof.
  unfold register_recipes_endpoints.
  induction todo as [|f todo IH]; intros Hsub m Hsk Hm; simpl; auto.
  apply IH.
  - intros f' Hf'. apply Hsub. now right.
  - now rewrite load_recipe_skills.
  - apply load_recipe_well_stored; auto. apply Hsub. now left.
Qed.

(** X17.  After the load of the recipes into an empty table, every stored
    recipe is stored under its own endpoint, has every skill it requires
    in the registry and was read from one of the files.  When the gateway
    compiles the path [/recipes<endpoint>], the map has a rule of that
    path under the endpoint name of the recipe; when the gateway refuses
    the path, the recipe is stored all the same and the load adds no rule
    of that path. *)
Theorem stored_recipes_are_well_formed
    (compile : rule_compiler) (files : list recipe_file) (m : manager)
    (e : string) (r : recipe) :
  recipes m = Dict.empty ->
  Dict.get e (recipes (register_recipes_endpoints compile files m)) = Some r ->
  endpoint r = e
  /\ skills_available (skills m) r
  /\ (exists f, In f files /\ safe_load f = Ok r)
  /\ (compile ("/recipes" ++ e) = Ok tt ->
      exists rt, In rt (routes (register_recipes_endpoints compile files m))
                 /\ route_path rt = "/recipes" ++ e
                 /\ route_endpoint rt = "recipe_" ++ e)
  /\ (forall x, compile ("/recipes" ++ e) = Raise x ->
        has_rule ("/recipes" ++ e) m = false ->
        has_rule ("/recipes" ++ e) (register_recipes_endpoints compile files m)
        = false).
Proof.
  intros Hempty Hget.
  destruct (register_recipes_well_stored compile (skills m) files files
              (fun f H => H) m eq_refl) with (e := e) (r := r)
    as (H1 & H2 & H3 & H4); auto.
  { intros e0 r0. rewrite Hempty. discriminate. }
  repeat split; auto.
  intros x Hc Hnone. apply has_rule_false. intros rt Hrt Hpath.
  apply register_recipes_routes_origin in Hrt.
  destruct Hrt as [Hrt | (r0 & _ & Hok)].
  - now apply (proj1 (has_rule_false _ m) Hnone rt).
  - rewrite Hpath, Hc in Hok. discriminate.
Qed.

Lemma stored_recipes_are_well_formed_witness :
  (exists rt,
     In rt (routes (register_recipes_endpoints Example.compile Example.greet_files
                      Example.loaded))
     /\ route_path rt = "/recipes/greet" /\ route_endpoint rt = "recipe_/greet")
  /\ has_rule "/recipes/a<b"
       (register_recipes_endpoints Example.compile Example.greet_files Example.loaded)
     = false.
Proof.
  split.
  - exact (proj1 (proj2 (proj2 (proj2
             (stored_recipes_are_well_formed Example.compile Example.greet_files
                Example.loaded "/greet" Example.greet' eq_refl eq_refl))))
             eq_refl).
  - exact (proj2 (proj2 (proj2 (proj2
             (stored_recipes_are_well_formed Example.compile Example.greet_files
                Example.loaded "/a<b" Example.unclosed eq_refl eq_refl))))
             (ValueError ("malformed url rule: " ++ Repr.repr_str "/recipes/a<b"))
             eq_refl eq_refl).
Defined.

(** ** The answers of the recipe route *)

(** X19.  A caller whose payload lacks a variable that the first step of
    the recipe refers to, and that is not declared optional, gets status
    500; no skill is invoked and the manager is untouched.  The error
    text is the [repr] of the interpreter's message, that is the message
    within quotes, because the exception is a [KeyError]. *)
Theorem missing_variable_is_a_server_error
    (recipe_endpoint : string) (params : Dict.t value) (w : world)
    (r : recipe) (st : step) (post : list step)
    (k v : string) (es : list (string * value)) :
  Dict.get recipe_endpoint (recipes (mgr w)) = Some r ->
  flow r = st :: post ->
  Dict.mem (skill_name st) (skills (mgr w)) = true ->
  input st = VDict ((k, VStr v) :: es) ->
  Str.startswith "$" v = true ->
  Dict.get (Str.strip "$" v) (seed_context r params) = None ->
  param_is_optional r (Str.strip "$" v) = false ->
  recipe_handler recipe_endpoint (Json params) w
  = (w, error_response 500
          (Repr.repr_str
             ("Required variable '" ++ Str.strip "$" v
              ++ "' not found in recipe context"))).
Proof.
  intros Hr Hflow Hmem Hin Hdollar Hctx Hopt.
  unfold Dict.mem in Hmem.
  destruct (Dict.get (skill_name st) (skills (mgr w))) as [sk|] eqn:Hsk; [|discriminate].
  assert (Hexec : execute_recipe recipe_endpoint params w
                  = (w, Raise (missing_variable (Str.strip "$" v)))).
  { apply (execute_recipe_aborts recipe_endpoint params r [] post st sk
             (seed_context r params) w w); auto.
    unfold step_input. rewrite Hin. cbn [build_input].
    rewrite resolve_value_reference by assumption.
    now rewrite Hctx, Hopt. }
  unfold recipe_handler. now rewrite Hexec.
Qed.

Lemma missing_variable_is_a_server_error_witness :
  recipe_handler "/summarize" (Json []) Example.world0
  = (Example.world0,
     {| status := 500;
        body := AsJson
                  (VDict [("error",
                           VStr (String Repr.dquote
                                   ("Required variable 'html' not found in recipe context"
                                    ++ String Repr.dquote "")))]) |}).
Proof.
  exact (missing_variable_is_a_server_error "/summarize" [] Example.world0
           Example.summarize
           {| skill_name := "HtmlTextParser"; input := VDict [("text", VStr "$html")];
              output := "parsed"; output_type := None |}
           [{| skill_name := "TextCompletion";
               input := VDict [("prompt", VStr "Summarize: {$parsed.text}");
                               ("style", VStr "$style")];
               output := "summary"; output_type := None |}]
           "text" "$html" [] eq_refl eq_refl eq_refl eq_refl eq_refl eq_refl eq_refl).
Defined.

(** ** Executions and the output types they write *)

Lemma set_set {V} (k : string) (v1 v2 : V) (d : Dict.t V) :
  Dict.set k v2 (Dict.set k v1 d) = Dict.set k v2 d.
Proof.
  induction d as [|[k' v'] d IH]; simpl.
  - now rewrite String.eqb_refl.
  - destruct (String.eqb k k') eqn:E; simpl; rewrite E; auto.
    now rewrite IH.
Qed.

Lemma set_same {V} (k : string) (v : V) (d : Dict.t V) :
  Dict.get k d = Some v -> Dict.set k v d = d.
Proof.
  induction d as [|[k' v'] d IH]; simpl; [discriminate|].
  destruct (String.eqb k k') eqn:E.
  - now intros [= ->].
  - intros H. now rewrite IH.
Qed.

Lemma with_flow_same (r : recipe) : with_flow (flow r) r = r.
Proof. now destruct r. Qed.

Lemma with_recipes_same (m : manager) : with_recipes (recipes m) m = m.
Proof. now destruct m. Qed.

Lemma with_stored_flow_same (recipe_name : string) (r : recipe) (m : manager) :
  Dict.get recipe_name (recipes m) = Some r ->
  with_stored_flow recipe_name r (flow r) m = m.
Proof.
  intros H. unfold with_stored_flow.
  now rewrite with_flow_same, (set_same _ _ _ H), with_recipes_same.
Qed.

Lemma set_output_type_stored (recipe_name : string) (r : recipe) (f : list step)
    (i : nat) (t : string) (m : manager) :
  set_output_type recipe_name i t (with_stored_flow recipe_name r f m)
  = with_stored_flow recipe_name r (update_nth i (with_output_type (Some t)) f) m.
Proof.
  unfold set_output_type, with_stored_flow, with_recipes, with_flow. simpl.
  now rewrite get_set_same, set_set.
Qed.

(** What a flow does to a world, in terms of [pure_flow]. *)
Lemma run_flow_pure (recipe_name : string) (r rc : recipe) (steps : list step) :
  forall (i : nat) (f : list step) (context : Dict.t value) (m : manager)
         (cs0 : list call),
    let '(hs, cs, res) := pure_flow (skills m) r steps context in
    run_flow recipe_name r i steps context
      {| mgr := with_stored_flow recipe_name rc f m; calls := cs0 |}
    = ({| mgr := with_stored_flow recipe_name rc (apply_hints i hs f) m;
          calls := (cs0 ++ cs)%list |}, res).
Proof.
  induction steps as [|st steps IH]; intros i f context m cs0; simpl.
  - unfold retM. now rewrite app_nil_r.
  - unfold bindM. rewrite run_step_unfold. simpl.
    destruct (Dict.get (skill_name st) (skills m)) as [sk|];
      [|simpl; now rewrite app_nil_r].
    destruct (step_input r sk context st) as [kw|e];
      [|simpl; now rewrite app_nil_r].
    assert (Hann : annotated recipe_name i sk (with_stored_flow recipe_name rc f m)
                   = with_stored_flow recipe_name rc
                       (match run_return sk with
                        | Some t => update_nth i (with_output_type (Some t)) f
                        | None => f
                        end) m).
    { unfold annotated. destruct (run_return sk); auto using set_output_type_stored. }
    rewrite Hann.
    destruct (run sk kw) as [y|e]; simpl; auto.
    specialize (IH (S i)
                  (match run_return sk with
                   | Some t => update_nth i (with_output_type (Some t)) f
                   | None => f
                   end)
                  (Dict.set (output st) y context) m
                  (cs0 ++ [{| callee := skill_name st; kwargs := kw |}])%list).
    destruct (pure_flow (skills m) r steps (Dict.set (output st) y context))
      as [[hs cs] res].
    rewrite IH. now rewrite <- app_assoc.
Qed.

Lemma resolve_value_parameters (r1 r2 : recipe) (context : Dict.t value) (v : value) :
  parameters r1 = parameters r2 ->
  resolve_value r1 context v = resolve_value r2 context v.
Proof.
  intros H. unfold resolve_value, param_is_optional. now rewrite H.
Qed.

Lemma build_input_parameters (r1 r2 : recipe) (context : Dict.t value)
    (es : list (string * value)) :
  parameters r1 = parameters r2 ->
  forall acc, build_input r1 context es acc = build_input r2 context es acc.
Proof.
  intros H. induction es as [|[k v] es IH]; intros acc; simpl; auto.
  rewrite (resolve_value_parameters r1 r2 context v H).
  destruct (resolve_value r2 context v); simpl; auto.
Qed.

Lemma step_input_parameters (r1 r2 : recipe) (sk : skill) (context : Dict.t value)
    (s1 s2 : step) :
  parameters r1 = parameters r2 -> input s1 = input s2 ->
  step_input r1 sk context s1 = step_input r2 sk context s2.
Proof.
  intros H Hin. unfold step_input. rewrite Hin.
  destruct (input s2); auto using build_input_parameters.
Qed.

Lemma pure_flow_forget (sks : Dict.t skill) (r1 r2 : recipe) (f1 : list step) :
  parameters r1 = parameters r2 ->
  forall f2 context,
    map (with_output_type None) f1 = map (with_output_type None) f2 ->
    pure_flow sks r1 f1 context = pure_flow sks r2 f2 context.
Proof.
  intros Hp. induction f1 as [|s1 f1 IH]; intros [|s2 f2] context Hmap;
    simpl in *; try discriminate; auto.
  injection Hmap as Hn Hi Ho Hf.
  rewrite Hn. destruct (Dict.get (skill_name s2) sks) as [sk|]; auto.
  rewrite (step_input_parameters r1 r2 sk context s1 s2 Hp Hi).
  destruct (step_input r2 sk context s2) as [kw|e]; auto.
  destruct (run sk kw) as [y|e]; auto.
  now rewrite Ho, (IH f2 _ Hf).
Qed.

Lemma execute_recipe_pure (recipe_name : string) (params : Dict.t value)
    (w : world) (r : recipe) :
  Dict.get recipe_name (recipes (mgr w)) = Some r ->
  let '(hs, cs, res) :=
    pure_flow (skills (mgr w)) r (flow r) (seed_context r params) in
  execute_recipe recipe_name params w
  = ({| mgr := with_stored_flow recipe_name r (apply_hints 0 hs (flow r)) (mgr w);
        calls := (calls w ++ cs)%list |},
     match res with
     | Ok context => final_output r context
     | Raise e => Raise e
     end).
Proof.
  intros Hr. rewrite execute_recipe_unfold, Hr.
  pose proof (run_flow_pure recipe_name r r (flow r) 0 (flow r)
                (seed_context r params) (mgr w) (calls w)) as H.
  rewrite (with_stored_flow_same _ _ _ Hr) in H.
  destruct (pure_flow (skills (mgr w)) r (flow r) (seed_context r params))
    as [[hs cs] res].
  replace {| mgr := mgr w; calls := calls w |} with w in H by now destruct w.
  rewrite H. now destruct res.
Qed.

Lemma get_map_values {V W} (f : V -> W) (k : string) (d : Dict.t V) :
  Dict.get k (Dict.map_values f d) = option_map f (Dict.get k d).
Proof.
  induction d as [|[k' v] d IH]; simpl; auto.
  now destruct (String.eqb k k').
Qed.

Lemma last_forget (f1 : list step) :
  forall f2,
    map (with_output_type None) f1 = map (with_output_type None) f2 ->
    option_map output (List.last (map Some f1) None)
    = option_map output (List.last (map Some f2) None).
Proof.
  induction f1 as [|s1 f1 IH]; intros [|s2 f2] H; simpl in *; try discriminate; auto.
  injection H as Hn Hi Ho Hf.
  destruct f1 as [|s1' f1]; destruct f2 as [|s2' f2]; simpl in *; try discriminate.
  - now rewrite Ho.
  - apply (IH (s2' :: f2)). exact Hf.
Qed.

Lemma final_output_forget (r1 r2 : recipe) (context : Dict.t value) :
  map (with_output_type None) (flow r1) = map (with_output_type None) (flow r2) ->
  final_output r1 context = final_output r2 context.
Proof.
  intros H. apply last_forget in H. unfold final_output.
  destruct (List.last (map Some (flow r1)) None) as [s1|];
    destruct (List.last (map Some (flow r2)) None) as [s2|];
    simpl in H; try discriminate; auto.
  injection H as ->. reflexivity.
Qed.

Lemma seed_context_parameters (r1 r2 : recipe) (params : Dict.t value) :
  parameters r1 = parameters r2 -> seed_context r1 params = seed_context r2 params.
Proof. intros H. unfold seed_context. now rewrite H. Qed.

(** X20.  The ["output_type"] entries never count in an execution: from
    two states with the same registry and the same recipes but for these
    entries, an invocation ends the same way, with the same value or the
    same exception, and makes the same skill invocations. *)
Theorem execution_ignores_output_types
    (recipe_name : string) (params : Dict.t value) (w1 w2 : world) :
  skills (mgr w1) = skills (mgr w2) ->
  Dict.map_values forget_types (recipes (mgr w1))
  = Dict.map_values forget_types (recipes (mgr w2)) ->
  snd (execute_recipe recipe_name params w1)
  = snd (execute_recipe recipe_name params w2)
  /\ exists cs,
       calls (fst (execute_recipe recipe_name params w1)) = (calls w1 ++ cs)%list
       /\ calls (fst (execute_recipe recipe_name params w2)) = (calls w2 ++ cs)%list.
Proof.
  intros Hsk Hrec.
  assert (Hget : option_map forget_types (Dict.get recipe_name (recipes (mgr w1)))
                 = option_map forget_types (Dict.get recipe_name (recipes (mgr w2)))).
  { now rewrite <- !get_map_values, Hrec. }
  destruct (Dict.get recipe_name (recipes (mgr w1))) as [r1|] eqn:H1;
    destruct (Dict.get recipe_name (recipes (mgr w2))) as [r2|] eqn:H2;
    simpl in Hget; try discriminate.
  - assert (Hforget : forget_types r1 = forget_types r2) by congruence.
    assert (Hp : parameters r1 = parameters r2)
      by (apply (f_equal parameters) in Hforget; exact Hforget).
    assert (Hf : map (with_output_type None) (flow r1)
                 = map (with_output_type None) (flow r2))
      by (apply (f_equal flow) in Hforget; exact Hforget).
    pose proof (execute_recipe_pure recipe_name params w1 r1 H1) as E1.
    pose proof (execute_recipe_pure recipe_name params w2 r2 H2) as E2.
    rewrite Hsk, (seed_context_parameters r1 r2 params Hp),
      (pure_flow_forget (skills (mgr w2)) r1 r2 (flow r1) Hp (flow r2) _ Hf) in E1.
    destruct (pure_flow (skills (mgr w2)) r2 (flow r2) (seed_context r2 params))
      as [[hs cs] res].
    rewrite E1, E2. simpl. split.
    + destruct res; auto using final_output_forget.
    + now exists cs.
  - rewrite !execute_recipe_unfold, H1, H2. simpl. split; auto.
    exists []. now rewrite !app_nil_r.
Qed.

Lemma execution_ignores_output_types_witness :
  snd (execute_recipe "/summarize" [("html", VStr "<p>news</p>")]
         (fst (execute_recipe "/summarize" [("html", VStr "<p>other</p>")]
                 Example.world0)))
  = snd (execute_recipe "/summarize" [("html", VStr "<p>news</p>")] Example.world0).
Proof.
  exact (proj1 (execution_ignores_output_types "/summarize"
                  [("html", VStr "<p>news</p>")]
                  (fst (execute_recipe "/summarize" [("html", VStr "<p>other</p>")]
                          Example.world0))
                  Example.world0 eq_refl eq_refl)).
Defined.

Lemma update_nth_comm {A} (i j : nat) (f g : A -> A) (l : list A) :
  i <> j ->
  update_nth i f (update_nth j g l) = update_nth j g (update_nth i f l).
Proof.
  revert i j. induction l as [|x l IH]; intros [|i] [|j] H; simpl; auto.
  - contradiction.
  - rewrite IH; auto.
Qed.

Lemma update_nth_idem {A} (i : nat) (f : A -> A) (l : list A) :
  (forall x, f (f x) = f x) ->
  update_nth i f (update_nth i f l) = update_nth i f l.
Proof.
  intros Hf. revert i. induction l as [|x l IH]; intros [|i]; simpl; auto.
  - now rewrite Hf.
  - now rewrite IH.
Qed.

Lemma apply_hints_comm (t : string) (hs : list (option string)) :
  forall i j f, (i < j)%nat ->
    update_nth i (with_output_type (Some t)) (apply_hints j hs f)
    = apply_hints j hs (update_nth i (with_output_type (Some t)) f).
Proof.
  induction hs as [|h hs IH]; intros i j f Hlt; simpl; auto.
  rewrite IH by lia. destruct h as [t'|]; auto.
  rewrite update_nth_comm by lia. reflexivity.
Qed.

Lemma apply_hints_idem (hs : list (option string)) :
  forall i f, apply_hints i hs (apply_hints i hs f) = apply_hints i hs f.
Proof.
  induction hs as [|h hs IH]; intros i f; simpl; auto.
  destruct h as [t|]; auto.
  rewrite apply_hints_comm by lia. rewrite update_nth_idem by reflexivity.
  apply IH.
Qed.

Lemma apply_hints_forget (hs : list (option string)) :
  forall i f, map (with_output_type None) (apply_hints i hs f)
              = map (with_output_type None) f.
Proof.
  induction hs as [|h hs IH]; intros i f; simpl; auto.
  rewrite IH. destruct h; auto using forget_update_nth.
Qed.

(** X21.  What an invocation writes, it writes once: repeating the same
    invocation right after it has run leaves the manager, and with it the
    description of the capabilities, exactly as the first run left it,
    and ends the same way. *)
Theorem repeated_invocation_writes_nothing
    (recipe_name : string) (params : Dict.t value) (w : world) :
  let w1 := fst (execute_recipe recipe_name params w) in
  let w2 := fst (execute_recipe recipe_name params w1) in
  mgr w2 = mgr w1
  /\ get_capabilities (mgr w2) = get_capabilities (mgr w1)
  /\ snd (execute_recipe recipe_name params w1)
     = snd (execute_recipe recipe_name params w).
Proof.
  cbv zeta.
  cut (mgr (fst (execute_recipe recipe_name params
                   (fst (execute_recipe recipe_name params w))))
       = mgr (fst (execute_recipe recipe_name params w))
       /\ snd (execute_recipe recipe_name params
                 (fst (execute_recipe recipe_name params w)))
          = snd (execute_recipe recipe_name params w)).
  { intros [H1 H2]. rewrite H1. auto. }
  destruct (Dict.get recipe_name (recipes (mgr w))) as [r|] eqn:Hr.
  - pose proof (execute_recipe_pure recipe_name params w r Hr) as E1.
    destruct (pure_flow (skills (mgr w)) r (flow r) (seed_context r params))
      as [[hs cs] res] eqn:Hpure.
    rewrite E1. simpl.
    set (f1 := apply_hints 0 hs (flow r)).
    set (r1 := with_flow f1 r).
    set (w1 := {| mgr := with_stored_flow recipe_name r f1 (mgr w);
                  calls := (calls w ++ cs)%list |}).
    assert (Hr1 : Dict.get recipe_name (recipes (mgr w1)) = Some r1).
    { simpl. apply get_set_same. }
    pose proof (execute_recipe_pure recipe_name params w1 r1 Hr1) as E2.
    assert (Hf : map (with_output_type None) (flow r1)
                 = map (with_output_type None) (flow r)).
    { simpl. apply apply_hints_forget. }
    simpl skills in E2.
    rewrite (seed_context_parameters r1 r params eq_refl),
      (pure_flow_forget (skills (mgr w)) r1 r (flow r1) eq_refl (flow r) _ Hf),
      Hpure in E2.
    rewrite E2. simpl. split.
    + unfold f1. rewrite apply_hints_idem.
      apply (with_stored_flow_same recipe_name r1 (mgr w1) Hr1).
    + destruct res; auto. now apply final_output_forget.
  - rewrite !execute_recipe_unfold, Hr. simpl. now rewrite Hr.
Qed.

(** ** From a file stem to a route and back *)

Lemma lower_not_upper (c : ascii) : Str.is_lower c = true -> Str.is_upper c = false.
Proof. destruct c as [[|] [|] [|] [|] [|] [|] [|] [|]]; simpl; auto. Qed.

Lemma lower_not_underscore (c : ascii) :
  Str.is_lower c = true -> Ascii.eqb c "_" = false.
Proof. destruct c as [[|] [|] [|] [|] [|] [|] [|] [|]]; simpl; auto. Qed.

Lemma lower_not_newline (c : ascii) :
  Str.is_lower c = true -> Ascii.eqb c newline = false.
Proof. destruct c as [[|] [|] [|] [|] [|] [|] [|] [|]]; simpl; auto. Qed.

Lemma to_upper_is_upper (c : ascii) :
  Str.is_lower c = true -> Str.is_upper (Str.to_upper c) = true.
Proof. destruct c as [[|] [|] [|] [|] [|] [|] [|] [|]]; simpl; auto. Qed.

Lemma to_upper_not_lower (c : ascii) :
  Str.is_lower c = true -> Str.is_lower (Str.to_upper c) = false.
Proof. destruct c as [[|] [|] [|] [|] [|] [|] [|] [|]]; simpl; auto. Qed.

Lemma to_lower_to_upper (c : ascii) :
  Str.is_lower c = true -> Str.to_lower (Str.to_upper c) = c.
Proof. destruct c as [[|] [|] [|] [|] [|] [|] [|] [|]]; simpl; auto; discriminate. Qed.

Lemma all_lower_no_capital (s : string) : all_lower s = true -> has_upper s = false.
Proof.
  induction s as [|c s IH]; simpl; auto.
  intros H. apply andb_true_iff in H. destruct H as [Hc Hs].
  now rewrite (lower_not_upper c Hc), IH.
Qed.

Lemma all_lower_app (a b : string) :
  all_lower (a ++ b) = all_lower a && all_lower b.
Proof.
  induction a as [|c a IH]; simpl; auto. now rewrite IH, andb_assoc.
Qed.

(** A string that is not empty is some string followed by one character. *)
Lemma unsnoc (c : ascii) (s : string) :
  exists pre z, String c s = pre ++ String z "".
Proof.
  revert c. induction s as [|d s IH]; intros c.
  - now exists "", c.
  - destruct (IH d) as [pre [z H]]. exists (String c pre), z. simpl. now rewrite H.
Qed.

Lemma span_length (p : ascii -> bool) (s : string) :
  String.length (snd (Str.span p s)) <= String.length s.
Proof.
  induction s as [|c s IH]; simpl; auto.
  destruct (p c); simpl; auto.
  destruct (Str.span p s) as [a b]. simpl in *. lia.
Qed.

Lemma snake_words_fuel (f1 : nat) :
  forall f2 s, String.length s <= f1 -> String.length s <= f2 ->
               snake_words f1 s = snake_words f2 s.
Proof.
  induction f1 as [|f1 IH]; intros f2 s H1 H2.
  - destruct s; simpl in H1; [|lia]. now destruct f2.
  - destruct f2 as [|f2].
    + destruct s; simpl in H2; [|lia]. reflexivity.
    + destruct s as [|c [|u [|l rest]]]; simpl; auto.
      * now rewrite (IH f2 "") by (simpl; lia).
      * rewrite (IH f2 (String u "")); auto; simpl in *; lia.
      * destruct (negb (Ascii.eqb c newline) && Str.is_upper u && Str.is_lower l).
        -- pose proof (span_length Str.is_lower rest) as Hspan.
           destruct (Str.span Str.is_lower rest) as [small rest']. simpl in Hspan.
           rewrite (IH f2 rest'); auto; simpl in *; lia.
        -- rewrite (IH f2 (String u (String l rest))); auto; simpl in *; lia.
Qed.

Lemma words_pass_empty : words_pass "" = "".
Proof. reflexivity. Qed.

Lemma words_pass_single (a : ascii) : words_pass (String a "") = String a "".
Proof. reflexivity. Qed.

Lemma snake_words_unfold (fuel : nat) (s : string) :
  snake_words (S fuel) s
  = match s with
    | String c (String u (String l rest) as tail) =>
        if negb (Ascii.eqb c newline) && Str.is_upper u && Str.is_lower l
        then let (small, rest') := Str.span Str.is_lower rest in
             String c (String "_" (String u (String l
               (small ++ snake_words fuel rest'))))
        else String c (snake_words fuel tail)
    | String c tail => String c (snake_words fuel tail)
    | EmptyString => EmptyString
    end.
Proof. reflexivity. Qed.

Lemma words_pass_step (a b : ascii) (t : string) :
  Str.is_upper b = false ->
  words_pass (String a (String b t)) = String a (words_pass (String b t)).
Proof.
  intros Hb. unfold words_pass.
  change (String.length (String a (String b t)))
    with (S (String.length (String b t))).
  rewrite snake_words_unfold.
  destruct t as [|l rest]; [reflexivity|].
  now rewrite Hb, andb_false_r.
Qed.

Lemma words_pass_match (c u l : ascii) (rest : string) :
  Ascii.eqb c newline = false -> Str.is_upper u = true -> Str.is_lower l = true ->
  words_pass (String c (String u (String l rest)))
  = String c (String "_" (String u (String l
      (fst (Str.span Str.is_lower rest)
       ++ words_pass (snd (Str.span Str.is_lower rest)))))).
Proof.
  intros Hc Hu Hl. unfold words_pass.
  change (String.length (String c (String u (String l rest))))
    with (S (S (S (String.length rest)))).
  rewrite snake_words_unfold, Hc, Hu, Hl.
  cbn [negb andb].
  pose proof (span_length Str.is_lower rest) as Hspan.
  destruct (Str.span Str.is_lower rest) as [small rest']. cbn [fst snd] in *.
  now rewrite (snake_words_fuel (S (S (String.length rest)))
                 (String.length rest') rest') by lia.
Qed.

Lemma words_pass_run (pre : string) :
  forall (a z : ascii) (s : string),
    has_upper pre = false -> Str.is_upper z = false ->
    words_pass (String a (pre ++ String z s))
    = String a (pre ++ words_pass (String z s)).
Proof.
  induction pre as [|b pre IH]; intros a z s Hpre Hz; simpl.
  - now apply words_pass_step.
  - simpl in Hpre. apply orb_false_iff in Hpre. destruct Hpre as [Hb Hpre].
    rewrite words_pass_step by assumption.
    now rewrite (IH b z s Hpre Hz).
Qed.

Lemma span_lower_run (l s : string) :
  all_lower l = true ->
  (forall u t, s = String u t -> Str.is_lower u = false) ->
  Str.span Str.is_lower (l ++ s) = (l, s).
Proof.
  intros Hl Hs. induction l as [|c l IH]; simpl.
  - destruct s as [|u t]; auto. simpl. now rewrite (Hs u t eq_refl).
  - simpl in Hl. apply andb_true_iff in Hl. destruct Hl as [Hc Hl].
    now rewrite Hc, (IH Hl).
Qed.

(** A word of a stem is two small letters followed by small letters. *)
Lemma stem_word_inv (w : string) :
  stem_word w ->
  exists c0 c1 rest,
    w = String c0 (String c1 rest)
    /\ Str.is_lower c0 = true /\ Str.is_lower c1 = true /\ all_lower rest = true.
Proof.
  intros [Hl Hlen]. destruct w as [|c0 [|c1 rest]]; simpl in Hlen; try lia.
  simpl in Hl. apply andb_true_iff in Hl. destruct Hl as [H0 Hl].
  apply andb_true_iff in Hl. destruct Hl as [H1 Hl].
  now exists c0, c1, rest.
Qed.

Lemma glue_head (bs : list (bool * string)) (u : ascii) (t : string) :
  Forall (fun b => stem_word (snd b)) bs ->
  glue bs = String u t -> Str.is_lower u = false.
Proof.
  intros Hbs. destruct Hbs as [|[b w] bs Hw _]; simpl; [discriminate|].
  destruct (stem_word_inv w Hw) as (c0 & c1 & rest & -> & H0 & _).
  destruct b; simpl; intros [= <- _]; auto using to_upper_not_lower.
Qed.

Lemma pair_induction {A} (P : list A -> Prop) :
  P [] -> (forall x, P [x]) -> (forall x y l, P l -> P (x :: y :: l)) ->
  forall l, P l.
Proof.
  intros H0 H1 H2 l.
  assert (H : P l /\ forall x, P (x :: l)).
  { induction l as [|y l [IH1 IH2]]; auto. }
  apply H.
Qed.

Lemma glue_plain_forall (ws : list string) :
  Forall stem_word ws ->
  Forall (fun b => stem_word (snd b)) (map (pair false) ws).
Proof. induction 1; simpl; auto. Qed.

(** The first substitution on the class name of a stem. *)
Lemma words_pass_class_name (ws : list string) :
  Forall stem_word ws ->
  words_pass (glue (map (pair false) ws)) = glue (first_pass ws).
Proof.
  induction ws as [| w | w1 w2 ws IH] using pair_induction; intros Hws.
  - reflexivity.
  - apply Forall_inv in Hws.
    destruct (stem_word_inv w Hws) as (c0 & c1 & rest & -> & H0 & H1 & Hrest).
    simpl. rewrite append_empty_r.
    destruct (unsnoc c1 rest) as [pre [z Hsplit]]. rewrite Hsplit.
    assert (Hall : all_lower (pre ++ String z "") = true).
    { rewrite <- Hsplit. simpl. now rewrite H1. }
    rewrite all_lower_app in Hall. apply andb_true_iff in Hall.
    destruct Hall as [Hpre Hz]. simpl in Hz. rewrite andb_true_r in Hz.
    rewrite words_pass_run;
      auto using all_lower_no_capital, lower_not_upper.
  - apply Forall_cons_iff in Hws. destruct Hws as [Hw1 Hws].
    apply Forall_cons_iff in Hws. destruct Hws as [Hw2 Hws].
    destruct (stem_word_inv w1 Hw1) as (c0 & c1 & rest & -> & H0 & H1 & Hrest).
    destruct (stem_word_inv w2 Hw2) as (d0 & d1 & rest2 & -> & G0 & G1 & Hrest2).
    cbn [map glue first_pass capitalized].
    destruct (unsnoc c1 rest) as [pre [z Hsplit]]. rewrite Hsplit.
    assert (Hall : all_lower (pre ++ String z "") = true).
    { rewrite <- Hsplit. simpl. now rewrite H1. }
    rewrite all_lower_app in Hall. apply andb_true_iff in Hall.
    destruct Hall as [Hpre Hz]. simpl in Hz. rewrite andb_true_r in Hz.
    cbn [append]. rewrite !append_assoc. cbn [append].
    rewrite words_pass_run;
      auto using all_lower_no_capital, lower_not_upper.
    rewrite words_pass_match;
      auto using lower_not_newline, to_upper_is_upper.
    rewrite span_lower_run; auto.
    + cbn [fst snd]. now rewrite (IH Hws).
    + intros u t Hg. eapply glue_head; [|exact Hg].
      now apply glue_plain_forall.
Qed.

Lemma humps_step (a b : ascii) (t : string) :
  (Str.is_lower a || Str.is_digit a) && Str.is_upper b = false ->
  snake_humps (String a (String b t)) = String a (snake_humps (String b t)).
Proof.
  intros H.
  change (snake_humps (String a (String b t)))
    with (if (Str.is_lower a || Str.is_digit a) && Str.is_upper b
          then String a (String "_" (String b (snake_humps t)))
          else String a (snake_humps (String b t))).
  now rewrite H.
Qed.

Lemma humps_insert (a u : ascii) (t : string) :
  Str.is_lower a = true -> Str.is_upper u = true ->
  snake_humps (String a (String u t))
  = String a (String "_" (String u (snake_humps t))).
Proof.
  intros Ha Hu.
  change (snake_humps (String a (String u t)))
    with (if (Str.is_lower a || Str.is_digit a) && Str.is_upper u
          then String a (String "_" (String u (snake_humps t)))
          else String a (snake_humps (String u t))).
  now rewrite Ha, Hu.
Qed.

Lemma humps_run (pre : string) :
  forall (z : ascii) (s : string),
    has_upper pre = false -> Str.is_upper z = false ->
    snake_humps (pre ++ String z s) = pre ++ snake_humps (String z s).
Proof.
  induction pre as [|a pre IH]; intros z s Hpre Hz; auto.
  simpl in Hpre. apply orb_false_iff in Hpre. destruct Hpre as [_ Hpre].
  specialize (IH z s Hpre Hz). cbn [append].
  destruct pre as [|b pre].
  - cbn [append]. rewrite humps_step; [reflexivity|].
    now rewrite Hz, andb_false_r.
  - cbn [append] in *. rewrite humps_step; [now rewrite IH|].
    simpl in Hpre. apply orb_false_iff in Hpre. destruct Hpre as [Hb _].
    now rewrite Hb, andb_false_r.
Qed.

(** The second substitution puts an underscore before every word that
    has none. *)
Lemma humps_body (bs : list (bool * string)) :
  Forall (fun b => stem_word (snd b)) bs ->
  forall (c : ascii) (body : string),
    all_lower (String c body) = true ->
    snake_humps (String c body ++ glue bs)
    = String c body ++ glue (map (fun b => (true, snd b)) bs).
Proof.
  induction 1 as [|[b w] bs Hw _ IH]; intros c body Hbody.
  - simpl glue. rewrite !append_empty_r.
    apply snake_humps_without_capital. now apply all_lower_no_capital.
  - destruct (stem_word_inv w Hw) as (d0 & d1 & rest & -> & G0 & G1 & Hrest).
    destruct (unsnoc c body) as [pre [z Hsplit]]. rewrite Hsplit in Hbody |- *.
    rewrite all_lower_app in Hbody. apply andb_true_iff in Hbody.
    destruct Hbody as [Hpre Hz]. simpl in Hz. rewrite andb_true_r in Hz.
    assert (Hinner : snake_humps (String d1 rest ++ glue bs)
                     = String d1 rest ++ glue (map (fun b => (true, snd b)) bs)).
    { apply IH. simpl. now rewrite G1. }
    cbn [map glue snd capitalized].
    rewrite !append_assoc. cbn [append].
    rewrite humps_run by auto using all_lower_no_capital, lower_not_upper.
    destruct b; cbn [append].
    + rewrite humps_step
        by (change (Str.is_upper "_") with false; apply andb_false_r).
      rewrite humps_step by reflexivity.
      rewrite humps_step
        by (rewrite (lower_not_upper d1 G1); apply andb_false_r).
      cbn [append] in Hinner. now rewrite Hinner.
    + rewrite humps_insert by auto using to_upper_is_upper.
      cbn [append] in Hinner. now rewrite Hinner.
Qed.

Lemma first_pass_words (ws : list string) :
  Forall stem_word ws -> Forall (fun b => stem_word (snd b)) (first_pass ws).
Proof.
  induction ws as [| w | w1 w2 ws IH] using pair_induction; intros H; simpl; auto.
  - apply Forall_inv in H. auto.
  - apply Forall_cons_iff in H. destruct H as [H1 H].
    apply Forall_cons_iff in H. destruct H as [H2 H]. auto.
Qed.

Lemma first_pass_shape (w : string) (ws : list string) :
  exists bs, first_pass (w :: ws) = (false, w) :: bs /\ map snd bs = ws.
Proof.
  revert w. induction ws as [| w' | w1 w2 ws IH] using pair_induction; intros w.
  - now exists [].
  - now exists [(true, w')].
  - destruct (IH w2) as [bs [Hbs Hmap]].
    exists ((true, w1) :: first_pass (w2 :: ws)). split; auto.
    cbn [map snd]. rewrite Hbs. cbn [map snd]. now rewrite Hmap.
Qed.

Lemma lower_app (a b : string) : Str.lower (a ++ b) = Str.lower a ++ Str.lower b.
Proof. induction a as [|c a IH]; simpl; auto. now rewrite IH. Qed.

Lemma lower_capitalized (w : string) : stem_word w -> Str.lower (capitalized w) = w.
Proof.
  intros Hw. destruct (stem_word_inv w Hw) as (c0 & c1 & rest & -> & H0 & H1 & Hrest).
  simpl. rewrite (to_lower_to_upper c0 H0).
  unfold Str.to_lower. rewrite (lower_not_upper c1 H1).
  now rewrite (lower_without_capital rest (all_lower_no_capital rest Hrest)).
Qed.

Lemma lower_glue (bs : list (bool * string)) :
  Forall (fun b => stem_word (snd b)) bs ->
  Str.lower (glue (map (fun b => (true, snd b)) bs)) = underscored (map snd bs).
Proof.
  induction 1 as [|[b w] bs Hw _ IH]; auto.
  cbn [map glue snd underscored].
  rewrite !lower_app, IH, (lower_capitalized w Hw). reflexivity.
Qed.

Lemma join_underscored (w : string) (ws : list string) :
  Str.join "_" (w :: ws) = w ++ underscored ws.
Proof.
  revert w. induction ws as [|w' ws IH]; intros w.
  - simpl. now rewrite append_empty_r.
  - change (Str.join "_" (w :: w' :: ws)) with (w ++ "_" ++ Str.join "_" (w' :: ws)).
    now rewrite IH.
Qed.

(** The snake-case form of the capitalized words of a stem, one after the
    other, is the stem. *)
Lemma camel_to_snake_glue (w : string) (ws : list string) :
  Forall stem_word (w :: ws) ->
  camel_to_snake (glue (map (pair false) (w :: ws))) = Str.join "_" (w :: ws).
Proof.
  intros Hws. unfold camel_to_snake.
  fold (words_pass (glue (map (pair false) (w :: ws)))).
  rewrite words_pass_class_name by assumption.
  pose proof (first_pass_words (w :: ws) Hws) as Hfp.
  destruct (first_pass_shape w ws) as [bs [Hbs Hmap]]. rewrite Hbs in *.
  apply Forall_cons_iff in Hfp. destruct Hfp as [Hw Hbs'].
  destruct (stem_word_inv w Hw) as (c0 & c1 & rest & -> & H0 & H1 & Hrest).
  cbn [glue capitalized append].
  rewrite humps_step by (rewrite (lower_not_upper c1 H1); apply andb_false_r).
  assert (Hbody : all_lower (String c1 rest) = true) by (simpl; now rewrite H1).
  pose proof (humps_body bs Hbs' c1 rest Hbody) as Hh. cbn [append] in Hh.
  rewrite Hh, join_underscored. cbn [Str.lower append].
  rewrite (to_lower_to_upper c0 H0). unfold Str.to_lower at 1.
  rewrite (lower_not_upper c1 H1), lower_app, lower_glue, Hmap by assumption.
  now rewrite (lower_without_capital rest (all_lower_no_capital rest Hrest)).
Qed.

Lemma all_lower_no_underscore (w : string) :
  all_lower w = true -> Str.contains "_" w = false.
Proof.
  induction w as [|c w IH]; simpl; auto.
  intros H. apply andb_true_iff in H. destruct H as [Hc Hw].
  now rewrite (lower_not_underscore c Hc), IH.
Qed.

Lemma split_acc_run (sep : ascii) (w : string) :
  forall cur s, Str.contains sep w = false ->
                Str.split_acc sep cur (w ++ s) = Str.split_acc sep (Str.rev_onto w cur) s.
Proof.
  induction w as [|c w IH]; intros cur s H; simpl; auto.
  simpl in H. apply orb_false_iff in H. destruct H as [Hc Hw].
  rewrite Hc. now apply IH.
Qed.

Lemma split_underscored (ws : list string) :
  Forall stem_word ws ->
  forall w, all_lower w = true ->
            Str.split "_" (w ++ underscored ws) = w :: ws.
Proof.
  unfold Str.split.
  induction 1 as [|w' ws Hw' _ IH]; intros w Hw.
  - simpl underscored.
    rewrite split_acc_run by now apply all_lower_no_underscore.
    simpl. fold (Str.rev w). now rewrite rev_involutive.
  - cbn [underscored].
    rewrite split_acc_run by now apply all_lower_no_underscore.
    cbn [append Str.split_acc]. rewrite Ascii.eqb_refl.
    fold (Str.rev w). rewrite rev_involutive.
    f_equal. apply IH. apply Hw'.
Qed.

Lemma title_from_cased (s : string) :
  all_lower s = true -> Str.title_from true s = s.
Proof.
  induction s as [|c s IH]; simpl; auto.
  intros H. apply andb_true_iff in H. destruct H as [Hc Hs].
  rewrite Hc. simpl. unfold Str.to_lower.
  now rewrite (lower_not_upper c Hc), IH.
Qed.

Lemma title_stem_word (w : string) : stem_word w -> Str.title w = capitalized w.
Proof.
  intros Hw. destruct (stem_word_inv w Hw) as (c0 & c1 & rest & -> & H0 & H1 & Hrest).
  unfold Str.title. cbn [Str.title_from capitalized]. rewrite H0. cbn [orb].
  f_equal. apply (title_from_cased (String c1 rest)). simpl. now rewrite H1.
Qed.

Lemma concat_titles (ws : list string) :
  Forall stem_word ws ->
  String.concat "" (map Str.title ws) = glue (map (pair false) ws).
Proof.
  induction 1 as [|w ws Hw Hws IH]; auto.
  cbn [map glue]. rewrite <- IH, (title_stem_word w Hw). cbn [append].
  destruct ws as [|w' ws]; simpl.
  - now rewrite append_empty_r.
  - reflexivity.
Qed.

Lemma class_name_snake_stem (w : string) (ws : list string) :
  Forall stem_word (w :: ws) ->
  camel_to_snake (class_name_of (Str.join "_" (w :: ws))) = Str.join "_" (w :: ws).
Proof.
  intros Hws. unfold class_name_of. rewrite join_underscored.
  pose proof Hws as Hall. apply Forall_cons_iff in Hall. destruct Hall as [Hw Hrest].
  rewrite split_underscored by (auto; apply Hw).
  rewrite concat_titles by assumption.
  rewrite camel_to_snake_glue by assumption.
  apply join_underscored.
Qed.

(** X22.  For a file whose stem is made of words of two or more small
    letters joined by single underscores, the snake-case form of the
    class name derived from the stem is the stem again: the skill loaded
    from [<stem>.py] is served at [/skills/<stem>] and described under
    [<stem>]. *)
Theorem snake_of_class_name_is_stem (w : string) (ws : list string) :
  Forall stem_word (w :: ws) ->
  camel_to_snake (class_name_of (Str.join "_" (w :: ws))) = Str.join "_" (w :: ws)
  /\ route_path (skill_route (class_name_of (Str.join "_" (w :: ws))))
     = "/skills/" ++ Str.join "_" (w :: ws).
Proof.
  intros Hws. pose proof (class_name_snake_stem w ws Hws) as Hsnake.
  split; [exact Hsnake|]. unfold skill_route. cbn [route_path]. now rewrite Hsnake.
Qed.

Lemma snake_of_class_name_is_stem_witness :
  camel_to_snake (class_name_of "web_url_downloader") = "web_url_downloader".
Proof.
  refine (proj1 (snake_of_class_name_is_stem "web" ["url"; "downloader"] _)).
  repeat constructor; simpl; lia.
Defined.

(** X23.  Two stems of that form that differ derive different class
    names: such files never meet under one identifier of the registry. *)
Theorem regular_stems_do_not_collide (w w' : string) (ws ws' : list string) :
  Forall stem_word (w :: ws) ->
  Forall stem_word (w' :: ws') ->
  class_name_of (Str.join "_" (w :: ws)) = class_name_of (Str.join "_" (w' :: ws')) ->
  Str.join "_" (w :: ws) = Str.join "_" (w' :: ws').
Proof.
  intros H H' Heq.
  rewrite <- (class_name_snake_stem w ws H), <- (class_name_snake_stem w' ws' H').
  now rewrite Heq.
Qed.

Lemma regular_stems_do_not_collide_witness :
  class_name_of "news_search" = "NewsSearch"
  /\ Str.join "_" ["news"; "search"] = "news_search".
Proof.
  split; [reflexivity|].
  refine (regular_stems_do_not_collide "news" "news" ["search"] ["search"] _ _ eq_refl);
    repeat constructor; simpl; lia.
Defined.

Lemma update_nth_app {A} (f : A -> A) (pre : list A) (x : A) (l : list A) :
  update_nth (List.length pre) f (pre ++ x :: l)%list = (pre ++ f x :: l)%list.
Proof. induction pre as [|p pre IH]; simpl; auto. now rewrite IH. Qed.

(** The hints of a flow that completes are those of its steps, one each. *)
Lemma pure_flow_hints (sks : Dict.t skill) (r : recipe) (steps : list step) :
  forall (pre : list step) (context context' : Dict.t value)
         (hs : list (option string)) (cs : list call),
    pure_flow sks r steps context = (hs, cs, Ok context') ->
    apply_hints (List.length pre) hs (pre ++ steps)%list
    = (pre ++ map (hinted sks) steps)%list.
Proof.
  induction steps as [|st steps IH]; intros pre context context' hs cs; simpl.
  - now intros [= <- _ _].
  - unfold hinted at 1.
    destruct (Dict.get (skill_name st) sks) as [sk|]; [|discriminate].
    destruct (step_input r sk context st) as [kw|e]; [|discriminate].
    destruct (run sk kw) as [y|e]; [|discriminate].
    destruct (pure_flow sks r steps (Dict.set (output st) y context))
      as [[hs' cs'] res] eqn:Hrest.
    intros [= <- _ ->]. simpl.
    specialize (IH (pre ++ [match run_return sk with
                            | Some t => with_output_type (Some t) st
                            | None => st
                            end])%list _ _ _ _ Hrest).
    rewrite length_app in IH. simpl in IH.
    replace (List.length pre + 1)%nat with (S (List.length pre)) in IH by lia.
    rewrite <- !app_assoc in IH. simpl in IH.
    destruct (run_return sk) as [t|]; [rewrite update_nth_app|]; exact IH.
Qed.

(** X24.  An execution that returns a value leaves the recipe stored with
    every step of its flow carrying the return type of the step's skill as
    its ["output_type"], where the skill declares one, and as it was
    otherwise: this is the recipe that the capabilities show from then
    on. *)
Theorem completed_execution_annotates_every_step
    (recipe_name : string) (params : Dict.t value) (w w' : world)
    (r : recipe) (v : value) :
  Dict.get recipe_name (recipes (mgr w)) = Some r ->
  execute_recipe recipe_name params w = (w', Ok v) ->
  Dict.get recipe_name (recipes (mgr w'))
  = Some (with_flow (map (hinted (skills (mgr w))) (flow r)) r).
Proof.
  intros Hr Hrun.
  pose proof (execute_recipe_pure recipe_name params w r Hr) as E.
  destruct (pure_flow (skills (mgr w)) r (flow r) (seed_context r params))
    as [[hs cs] res] eqn:Hpure.
  rewrite Hrun in E. injection E as -> Hres.
  destruct res as [context|e]; [|discriminate].
  pose proof (pure_flow_hints _ _ _ [] _ _ _ _ Hpure) as Hh. simpl in Hh.
  rewrite Hh. unfold with_stored_flow. simpl. apply get_set_same.
Qed.

Lemma completed_execution_annotates_every_step_witness :
  Dict.get "/summarize"
    (recipes (mgr (fst (execute_recipe "/summarize" [("html", VStr "<p>news</p>")]
                          Example.world0))))
  = Some (with_flow (map (hinted Example.registry) (flow Example.summarize))
            Example.summarize).
Proof.
  refine (completed_execution_annotates_every_step "/summarize"
            [("html", VStr "<p>news</p>")] Example.world0 _ Example.summarize
            (VStr "no answer") eq_refl _).
  reflexivity.
Defined.

(** X25.  A flow writes the context under the output keys of its steps and
    nowhere else: when it completes, every output key is bound, and every
    other key holds what it held before the first step, the values seeded
    from the payload among them. *)
Theorem flow_binds_only_outputs
    (recipe_name : string) (r : recipe) (steps : list step) (i : nat)
    (context context' : Dict.t value) (w w' : world) :
  run_flow recipe_name r i steps context w = (w', Ok context') ->
  (forall st, In st steps -> exists y, Dict.get (output st) context' = Some y)
  /\ (forall k, ~ In k (map output steps) ->
        Dict.get k context' = Dict.get k context).
Proof.
  revert i context w. induction steps as [|st steps IH]; intros i context w; simpl.
  - unfold retM. intros [= _ <-]. split; [intros st []|reflexivity].
  - unfold bindM.
    destruct (run_step recipe_name r i st context w) as [w1 [context1|e]] eqn:Hstep;
      [|discriminate].
    intros Hrest.
    destruct (run_step_ok _ _ _ _ _ _ _ _ Hstep) as (sk & kw & y & _ & _ & _ & -> & _).
    destruct (IH _ _ _ Hrest) as [Hbound Hkept]. split.
    + intros st' [<-|Hin]; [|now apply Hbound].
      destruct (in_dec string_dec (output st) (map output steps)) as [Hlater|Hnot].
      * apply in_map_iff in Hlater. destruct Hlater as (st2 & Heq & Hin2).
        rewrite <- Heq. now apply Hbound.
      * rewrite (Hkept _ Hnot), get_set_same. now exists y.
    + intros k Hk. rewrite Hkept by tauto.
      apply get_set_other. intros ->. apply Hk. now left.
Qed.

Lemma flow_binds_only_outputs_witness :
  Dict.get "html"
    [("html", VStr "<p>news</p>"); ("style", VStr "short");
     ("parsed", VDict [("text", VStr "<p>news</p>")]);
     ("summary", VStr "no answer")]
  = Dict.get "html"
      (seed_context Example.summarize
         [("html", VStr "<p>news</p>"); ("style", VStr "short")]).
Proof.
  refine (proj2 (flow_binds_only_outputs "/summarize" Example.summarize
                   (flow Example.summarize) 0
                   (seed_context Example.summarize
                      [("html", VStr "<p>news</p>"); ("style", VStr "short")])
                   [("html", VStr "<p>news</p>"); ("style", VStr "short");
                    ("parsed", VDict [("text", VStr "<p>news</p>")]);
                    ("summary", VStr "no answer")]
                   Example.world0
                   (fst (run_flow "/summarize" Example.summarize 0
                           (flow Example.summarize)
                           (seed_context Example.summarize
                              [("html", VStr "<p>news</p>"); ("style", VStr "short")])
                           Example.world0))
                   eq_refl) "html" _).
  simpl. intros [H|[H|[]]]; discriminate.
Defined.
